(** * Session-token lifecycle of the Qureka backend

    A shallow embedding of the registration lock ([utils/requestLock.js]),
    the token utilities ([utils/tokenUtil.js]), the refresh-token store
    ([models/tokenModel.js]), the access-token guard
    ([middlewares/authMiddleware.js]) and the session handlers
    ([controllers/authController.js], [controllers/userController.js]),
    followed by the properties of the session subsystem. *)

From Stdlib Require Import ZArith String Ascii Lia.
From stdpp Require Import base option list gmap strings sorting pretty.

Local Open Scope Z_scope.

(* ===================================================================== *)
(** * Part I: the embedding *)
(* ===================================================================== *)

(** ** The registration lock and the timers of the event loop

    [RequestLock] keeps a JS [Map] from keys to [{timestamp, timer}].  The
    timer is what [setTimeout] returned; the event loop owns the table of
    pending timers, and [clearTimeout] removes an entry from it.  Time is
    the millisecond clock read by [Date.now()]. *)

Module RequestLock.

Record LockInfo := mkLockInfo {
  timestamp : Z;      (* Date.now() at acquisition *)
  timer : nat         (* handle returned by setTimeout *)
}.

(** A pending timer: when it is due, and the key its callback releases
    (the callback is [() => this.release(key)]). *)
Record Pending := mkPending {
  due : Z;
  target : string
}.

Record Loop := mkLoop {
  locks : gmap string LockInfo;   (* this.locks *)
  timeout : Z;                    (* this.timeout *)
  clock : Z;                      (* Date.now() *)
  timers : gmap nat Pending;      (* timers armed and not yet run *)
  next_timer : nat                (* next fresh timer handle *)
}.

(** [new RequestLock()] at time [t0]: an empty map, a window of 5000 ms. *)
Definition create (t0 : Z) : Loop :=
  {| locks := ∅; timeout := 5000; clock := t0; timers := ∅; next_timer := 0 |}.

Definition held (key : string) (s : Loop) : bool :=
  bool_decide (is_Some (locks s !! key)).

(** [acquire(key)] *)
Definition acquire (key : string) (s : Loop) : bool * Loop :=
  if held key s then (false, s)
  else
    let id := next_timer s in
    let lockInfo := {| timestamp := clock s; timer := id |} in
    (true,
     {| locks := <[key := lockInfo]> (locks s);
        timeout := timeout s;
        clock := clock s;
        timers := <[id := {| due := clock s + timeout s; target := key |}]> (timers s);
        next_timer := S id |}).

(** [release(key)] *)
Definition release (key : string) (s : Loop) : Loop :=
  match locks s !! key with
  | Some lockInfo =>
      {| locks := delete key (locks s);
         timeout := timeout s;
         clock := clock s;
         timers := delete (timer lockInfo) (timers s);   (* clearTimeout *)
         next_timer := next_timer s |}
  | None => s
  end.

(** [cleanup()]: the loop visits the entries of the map; an entry older
    than the window is released.  Releasing one key leaves the others
    in place, so the visit is a fold over the keys present at the start. *)
Definition expired_keys (s : Loop) : list string :=
  (map_to_list (filter (λ kv, timeout s <? clock s - timestamp kv.2) (locks s))).*1.

Definition cleanup (s : Loop) : Loop :=
  foldr release s (expired_keys s).

(** A timer runs: it leaves the table of pending timers and its callback
    calls [release] on the key it captured. *)
Definition fire (id : nat) (s : Loop) : Loop :=
  match timers s !! id with
  | Some p =>
      release (target p)
        {| locks := locks s; timeout := timeout s; clock := clock s;
           timers := delete id (timers s); next_timer := next_timer s |}
  | None => s
  end.

Definition earlier (a b : nat * Pending) : Prop :=
  due a.2 < due b.2 ∨ (due a.2 = due b.2 ∧ (a.1 ≤ b.1)%nat).

#[global] Instance earlier_dec a b : Decision (earlier a b).
Proof. unfold earlier. apply _. Defined.

Definition due_timers (t : Z) (s : Loop) : list nat :=
  (merge_sort earlier
     (map_to_list (filter (λ ip, due ip.2 <=? t) (timers s)))).*1.

Definition set_clock (t : Z) (s : Loop) : Loop :=
  {| locks := locks s; timeout := timeout s; clock := Z.max (clock s) t;
     timers := timers s; next_timer := next_timer s |}.

(** The loop reaches time [t]: the timers due by then run, earliest
    first, before anything else is handled at [t]. *)
Definition advance (t : Z) (s : Loop) : Loop :=
  set_clock t (foldl (λ acc id, fire id acc) s (due_timers t s)).

(** What a client of the lock, or the loop itself, can do. *)
Inductive Op :=
| OAcquire (key : string)
| ORelease (key : string)
| OCleanup
| OAdvance (t : Z).

Definition exec (o : Op) (s : Loop) : option bool * Loop :=
  match o with
  | OAcquire k => let '(b, s') := acquire k s in (Some b, s')
  | ORelease k => (None, release k s)
  | OCleanup => (None, cleanup s)
  | OAdvance t => (None, advance t s)
  end.

(** Runs the operations in order; the answers of the calls to
    [acquire key] are collected. *)
Fixpoint run (key : string) (ops : list Op) (s : Loop) : list bool * Loop :=
  match ops with
  | [] => ([], s)
  | o :: rest =>
      let '(r, s1) := exec o s in
      let '(rs, s2) := run key rest s1 in
      (match o, r with
       | OAcquire k, Some b => if bool_decide (k = key) then b :: rs else rs
       | _, _ => rs
       end, s2)
  end.

Definition touches_lock_of (key : string) (o : Op) : bool :=
  match o with
  | OAcquire _ => false
  | ORelease k => bool_decide (k = key)
  | OCleanup => true
  | OAdvance _ => true
  end.

Definition is_acquire_of (key : string) (o : Op) : bool :=
  match o with
  | OAcquire k => bool_decide (k = key)
  | _ => false
  end.

(** The state the loop keeps between two events: every entry of the map
    has its own timer armed for the end of its window, every armed
    timer belongs to an entry, and no armed timer is overdue. *)
Record wf (s : Loop) : Prop := mkWf {
  wf_timeout : 0 < timeout s;
  wf_armed : ∀ k li, locks s !! k = Some li →
    timers s !! timer li = Some {| due := timestamp li + timeout s; target := k |};
  wf_owner : ∀ i p, timers s !! i = Some p →
    ∃ li, locks s !! target p = Some li ∧ timer li = i;
  wf_fresh : ∀ i p, timers s !! i = Some p → (i < next_timer s)%nat;
  wf_future : ∀ i p, timers s !! i = Some p → clock s < due p
}.

End RequestLock.


(** ** Values on the wire

    A JS string that a client presents or the server issues.  A string
    produced by [jwt.sign] is kept as the term [Signed key payload iat exp]:
    the key that made its signature, the payload and the two timestamps
    [jsonwebtoken] adds to it.  Every other string is [Opaque]. *)

Record Claims := mkClaims {
  c_id : option Z;                       (* id: user.userindex *)
  c_userid : string;              (* userid *)
  c_name : string;                (* name *)
  c_rememberMe : option bool      (* rememberMe, absent after a refresh *)
}.

Inductive Wire :=
| Opaque (s : string)
| Signed (key : string) (payload : Claims) (iat exp : Z).

(** JS truthiness of a string: only the empty one is falsy. *)
Definition truthy (v : Wire) : bool :=
  match v with
  | Opaque s => negb (String.eqb s EmptyString)
  | Signed _ _ _ _ => true
  end.

(** What [jwt.verify] hands back: the payload with [iat] and [exp]. *)
Record Decoded := mkDecoded {
  d_claims : Claims;
  d_iat : Z;
  d_exp : Z
}.

Inductive JwtErrorName := TokenExpiredError | JsonWebTokenError.

Inductive ErrorMessage :=
| ErrGenerateAccess      (* 'Failed to generate access token' *)
| ErrGenerateRefresh     (* 'Failed to generate refresh token' *)
| ErrUserIdRequired      (* the user id is required *)
| ErrTokenRequired       (* the token value is required *)
| ErrExpiryRequired      (* the expiry time is required *)
| ErrSecretMissing.      (* 'secretOrPrivateKey must have a value' *)

Inductive Exn :=
| Error (m : ErrorMessage)
| TypeError
| StorageError                   (* the error of a failed storage call *)
| JwtError (name : JwtErrorName).

Inductive Result (A : Type) :=
| Ok (a : A)
| Throw (e : Exn).
Arguments Ok {A} a.
Arguments Throw {A} e.

(** ** Tokens as strings

    [jwt.sign] writes a token as [base64url(header)], a dot,
    [base64url(payload)], a dot and the signature.  The header is
    [{alg: 'HS256', typ: 'JWT'}]; the payload is the object it was given
    with [iat] and [exp] added at the end, and both are written by
    [JSON.stringify]. *)

Module encoding.

Definition quote : ascii := ascii_of_N 34.
Definition backslash : ascii := ascii_of_N 92.

Definition hex (n : N) : ascii :=
  if (n <? 10)%N then ascii_of_N (48 + n) else ascii_of_N (87 + n).

(** One character inside a JSON string. *)
Definition escape (c : ascii) : list ascii :=
  let n := N_of_ascii c in
  if (n =? 34)%N then [backslash; quote]
  else if (n =? 92)%N then [backslash; backslash]
  else if (n =? 8)%N then [backslash; "b"%char]
  else if (n =? 12)%N then [backslash; "f"%char]
  else if (n =? 10)%N then [backslash; "n"%char]
  else if (n =? 13)%N then [backslash; "r"%char]
  else if (n =? 9)%N then [backslash; "t"%char]
  else if (n <? 32)%N then
    [backslash; "u"%char; "0"%char; "0"%char; hex (N.shiftr n 4); hex (N.land n 15)]
  else [c].

Definition json_string (s : string) : list ascii :=
  quote :: flat_map escape (list_ascii_of_string s) ++ [quote].

Definition json_number (z : Z) : list ascii := list_ascii_of_string (pretty z).

Definition key (name : string) : list ascii :=
  quote :: list_ascii_of_string name ++ [quote; ":"%char].

(** The members of the payload that come before [iat]: an [id] or a
    [rememberMe] that is [undefined] is left out. *)
Definition members (c : Claims) : list ascii :=
  match c_id c with
  | Some i => key "id" ++ json_number i ++ [","%char]
  | None => []
  end
  ++ key "userid" ++ json_string (c_userid c) ++ [","%char]
  ++ key "name" ++ json_string (c_name c) ++ [","%char]
  ++ match c_rememberMe c with
     | Some b => key "rememberMe"
                 ++ list_ascii_of_string (if b then "true" else "false") ++ [","%char]
     | None => []
     end.

Definition payload_json (c : Claims) (iat exp : Z) : list ascii :=
  "{"%char :: members c
  ++ key "iat" ++ json_number iat ++ ","%char :: key "exp" ++ json_number exp ++ ["}"%char].

Definition header_json : list ascii :=
  "{"%char :: key "alg" ++ json_string "HS256" ++ ","%char
    :: key "typ" ++ json_string "JWT" ++ ["}"%char].

(** base64url, without padding *)
Definition sextet (n : N) : ascii :=
  if (n <? 26)%N then ascii_of_N (65 + n)
  else if (n <? 52)%N then ascii_of_N (71 + n)
  else if (n <? 62)%N then ascii_of_N (n - 4)
  else if (n =? 62)%N then "-"%char
  else "_"%char.

Fixpoint base64url (bytes : list ascii) : list ascii :=
  match bytes with
  | a :: b :: c :: rest =>
      let n := (N_of_ascii a * 65536 + N_of_ascii b * 256 + N_of_ascii c)%N in
      sextet (N.shiftr n 18) :: sextet (N.land (N.shiftr n 12) 63)
        :: sextet (N.land (N.shiftr n 6) 63) :: sextet (N.land n 63)
        :: base64url rest
  | [a; b] =>
      let n := (N_of_ascii a * 65536 + N_of_ascii b * 256)%N in
      [sextet (N.shiftr n 18); sextet (N.land (N.shiftr n 12) 63);
       sextet (N.land (N.shiftr n 6) 63)]
  | [a] =>
      let n := (N_of_ascii a * 65536)%N in
      [sextet (N.shiftr n 18); sextet (N.land (N.shiftr n 12) 63)]
  | [] => []
  end.

(** A token up to its second dot; the signature follows. *)
Definition signing_input (c : Claims) (iat exp : Z) : list ascii :=
  base64url header_json ++ "."%char :: base64url (payload_json c iat exp).

End encoding.

(** ** bcrypt

    A bcrypt hash string carries its salt next to the digest;
    [bcrypt.compare] recomputes the digest of the candidate with the salt
    of the stored hash.  bcrypt reads the first 72 bytes of its input and
    no more: of a token that is the header, the dot and the first 35
    characters of the payload (the payload of a token is at least 29 bytes
    long, so the signature begins after byte 72).  The digest of these
    bytes is a parameter. *)

Record Hash := mkHash {
  h_salt : Z;
  h_digest : Z
}.

Definition bcrypt_input (data : Wire) : list ascii :=
  take 72
    match data with
    | Opaque s => list_ascii_of_string s
    | Signed _ payload iat exp => encoding.signing_input payload iat exp
    end.

Class Bcrypt := { digest : Z → list ascii → Z }.

Definition bcrypt_hash `{Bcrypt} (data : Wire) (salt : Z) : Hash :=
  {| h_salt := salt; h_digest := digest salt (bcrypt_input data) |}.

Definition bcrypt_compare `{Bcrypt} (data : Wire) (encrypted : Hash) : bool :=
  digest (h_salt encrypted) (bcrypt_input data) =? h_digest encrypted.

(** ** The process and its storage *)

Record Config := mkConfig {
  ACCESS_TOKEN_SECRET : option string;
  REFRESH_TOKEN_SECRET : option string;
  ACCESS_TOKEN_EXPIRES_IN : Z;      (* seconds; '1h' unless configured *)
  REFRESH_TOKEN_EXPIRES_IN : Z;     (* seconds; '7d' unless configured *)
  production : bool                 (* NODE_ENV === 'production' *)
}.

Definition default_config (access refresh : string) : Config :=
  {| ACCESS_TOKEN_SECRET := Some access;
     REFRESH_TOKEN_SECRET := Some refresh;
     ACCESS_TOKEN_EXPIRES_IN := 3600;
     REFRESH_TOKEN_EXPIRES_IN := 7 * 24 * 3600;
     production := false |}.

(** A row of table [refresh_token]. *)
Record Row := mkRow {
  id : Z;
  user_id : Z;
  token : Hash;
  expires_at : Z       (* milliseconds *)
}.

(** A row of table [users]. *)
Record UserRow := mkUserRow {
  userindex : option Z;
  userid : string;
  password : Hash;
  name : string;
  email : option string
}.

Record World := mkWorld {
  rows : list Row;          (* table refresh_token *)
  next_id : Z;              (* its serial key *)
  users : list UserRow;     (* table users *)
  faults : list bool;       (* the coming storage calls: true = it fails *)
  now : Z;                  (* Date.now(), milliseconds *)
  salts : Z;                (* the salt bcrypt.hash draws next *)
  env : Config
}.

Definition set_rows (f : list Row → list Row) (w : World) : World :=
  {| rows := f (rows w); next_id := next_id w; users := users w;
     faults := faults w; now := now w; salts := salts w; env := env w |}.

Definition M (A : Type) : Type := World → Result A * World.

Definition ret {A} (a : A) : M A := λ w, (Ok a, w).
Definition throw {A} (e : Exn) : M A := λ w, (Throw e, w).
Definition bind {A B} (m : M A) (k : A → M B) : M B :=
  λ w, match m w with
       | (Ok a, w') => k a w'
       | (Throw e, w') => (Throw e, w')
       end.
Definition try_catch {A} (m : M A) (handler : Exn → M A) : M A :=
  λ w, match m w with
       | (Ok a, w') => (Ok a, w')
       | (Throw e, w') => handler e w'
       end.
Definition get {A} (f : World → A) : M A := λ w, (Ok (f w), w).

Notation "'let*' x ':=' m 'in' k" := (bind m (λ x, k))
  (at level 10, x name, m at level 100, k at level 200).
Notation "m ';;' k" := (bind m (λ _, k))
  (at level 100, k at level 200, right associativity).

(** One call to the hosted store: it answers [{data, error}], and every
    caller here throws the error.  The world says which calls fail. *)
Definition storage_call : M unit :=
  λ w, match faults w with
       | [] => (Ok (), w)
       | failed :: rest =>
           let w' := {| rows := rows w; next_id := next_id w; users := users w;
                        faults := rest; now := now w; salts := salts w; env := env w |} in
           if failed then (Throw StorageError, w') else (Ok (), w')
       end.

Definition fresh_salt : M Z :=
  λ w, (Ok (salts w),
        {| rows := rows w; next_id := next_id w; users := users w;
           faults := faults w; now := now w; salts := salts w + 1; env := env w |}).

(** ** jsonwebtoken *)

Module jwt.

Definition usable (secret : option string) : option string :=
  match secret with
  | Some k => if String.eqb k EmptyString then None else Some k
  | None => None
  end.

(** [jwt.sign(payload, secret, {expiresIn})]: [iat] is the clock in
    seconds, [exp = iat + expiresIn]. *)
Definition sign (payload : Claims) (secret : option string) (expiresIn : Z) : M Wire :=
  match usable secret with
  | None => throw (Error ErrSecretMissing)
  | Some k =>
      let* t := get now in
      let iat := t / 1000 in
      ret (Signed k payload iat (iat + expiresIn))
  end.

(** [jwt.verify(token, secret)]: the signature is checked first, the
    expiry after it ([clockTimestamp >= exp] is expired). *)
Definition verify (tok : Wire) (secret : option string) : M Decoded :=
  match tok with
  | Opaque _ => throw (JwtError JsonWebTokenError)
  | Signed key payload iat exp =>
      match usable secret with
      | None => throw (JwtError JsonWebTokenError)
      | Some k =>
          if negb (String.eqb key k) then throw (JwtError JsonWebTokenError)
          else
            let* t := get now in
            if exp <=? t / 1000 then throw (JwtError TokenExpiredError)
            else ret {| d_claims := payload; d_iat := iat; d_exp := exp |}
      end
  end.

End jwt.

(** ** models/tokenModel.js *)

Module Token.

Definition insert_row (userId : Z) (hashedToken : Hash) (expiresAt : Z) : M Row :=
  λ w, let r := {| id := next_id w; user_id := userId;
                   token := hashedToken; expires_at := expiresAt |} in
       (Ok r,
        {| rows := rows w ++ [r]; next_id := next_id w + 1; users := users w;
           faults := faults w; now := now w; salts := salts w; env := env w |}).

Definition delete_where (drop : Row → bool) : M unit :=
  λ w, (Ok (), set_rows (filter (λ r, negb (drop r))) w).

(** [Token.deleteRefreshToken(userId)] *)
Definition deleteRefreshToken (userId : Z) : M bool :=
  try_catch
    (if userId =? 0 then throw (Error ErrUserIdRequired)
     else
       storage_call ;;
       delete_where (λ r, user_id r =? userId) ;;
       ret true)
    (λ error, throw error).

(** [Token.saveRefreshToken(userId, hashedToken, expiresAt)]; an
    argument that is missing is [None]. *)
Definition saveRefreshToken (userId : Z) (hashedToken : option Hash)
    (expiresAt : option Z) : M Row :=
  try_catch
    (if userId =? 0 then throw (Error ErrUserIdRequired)
     else match hashedToken with
     | None => throw (Error ErrTokenRequired)
     | Some hashed =>
       match expiresAt with
       | None => throw (Error ErrExpiryRequired)
       | Some expires =>
           deleteRefreshToken userId ;;
           storage_call ;;
           let* data := insert_row userId hashed expires in
           ret data
       end
     end)
    (λ error, throw error).

(** [Token.findRefreshToken(plainToken)] *)
Definition findRefreshToken `{Bcrypt} (plainToken : Wire) : M (option Row) :=
  try_catch
    (storage_call ;;
     let* data := get rows in
     ret (List.find (λ row, bcrypt_compare plainToken (token row)) data))
    (λ error, throw error).

(** [Token.deleteRefreshTokenByToken(plainToken)] *)
Definition deleteRefreshTokenByToken `{Bcrypt} (plainToken : Wire) : M bool :=
  try_catch
    (let* tokenRecord := findRefreshToken plainToken in
     match tokenRecord with
     | None => ret false
     | Some record =>
         storage_call ;;
         delete_where (λ r, id r =? id record) ;;
         ret true
     end)
    (λ error, throw error).

(** [Token.deleteExpiredTokens()] *)
Definition deleteExpiredTokens : M Z :=
  try_catch
    (storage_call ;;
     let* t := get now in
     let* before := get rows in
     delete_where (λ r, expires_at r <? t) ;;
     let* after := get rows in
     ret (Z.of_nat (length before) - Z.of_nat (length after)))
    (λ error, throw error).

End Token.

(** ** utils/validation.js *)

Module validation.

Definition code (c : ascii) : N := N_of_ascii c.

(** [\w]: letters, digits and the underscore. *)
Definition is_word (c : ascii) : bool :=
  let n := code c in
  ((48 <=? n) && (n <=? 57) || (65 <=? n) && (n <=? 90)
   || (97 <=? n) && (n <=? 122) || (n =? 95))%N.

(** The [i] flag folds the case of ASCII letters only. *)
Definition lower (c : ascii) : ascii :=
  let n := code c in
  if ((65 <=? n) && (n <=? 90))%N then ascii_of_N (n + 32) else c.

(** [pat] at the head of [s], case folded; what follows it in [s]. *)
Fixpoint at_head (pat s : list ascii) : option (list ascii) :=
  match pat, s with
  | [], _ => Some s
  | p :: pat', c :: s' =>
      if Ascii.eqb (lower p) (lower c) then at_head pat' s' else None
  | _ :: _, [] => None
  end.

Definition boundary_before (prev : option ascii) : bool :=
  match prev with
  | Some c => negb (is_word c)
  | None => true
  end.

Definition boundary_after (rest : list ascii) : bool :=
  match rest with
  | c :: _ => negb (is_word c)
  | [] => true
  end.

(** [\bword\b] at the head of [s], [prev] being the character before. *)
Definition word_at (word : string) (prev : option ascii) (s : list ascii)
    : option (list ascii) :=
  if boundary_before prev then
    match at_head (list_ascii_of_string word) s with
    | Some rest => if boundary_after rest then Some rest else None
    | None => None
    end
  else None.

(** A regular expression that is not anchored is tried at every
    position of the subject. *)
Fixpoint somewhere (here : option ascii → list ascii → bool)
    (prev : option ascii) (s : list ascii) : bool :=
  here prev s ||
  match s with
  | [] => false
  | c :: rest => somewhere here (Some c) rest
  end.

(** [.] stops at a line terminator: LF, CR, U+2028 and U+2029 (the last
    two are the bytes E2 80 A8 and E2 80 A9). *)
Definition line_terminator (s : list ascii) : bool :=
  match s with
  | c :: rest =>
      ((code c =? 10) || (code c =? 13))%N ||
      match rest with
      | c2 :: c3 :: _ =>
          ((code c =? 226) && (code c2 =? 128)
           && ((code c3 =? 168) || (code c3 =? 169)))%N
      | _ => false
      end
  | [] => false
  end.

(** [.*=] *)
Fixpoint equals_on_line (s : list ascii) : bool :=
  match s with
  | [] => false
  | c :: rest =>
      if line_terminator s then false
      else if (code c =? 61)%N then true
      else equals_on_line rest
  end.

Definition keywords : list string :=
  ["SELECT"; "INSERT"; "UPDATE"; "DELETE"; "DROP"; "CREATE"; "ALTER";
   "EXEC"; "EXECUTE"; "UNION"; "DECLARE"]%string.

Definition fragments : list string :=
  [";"; "--"; "/*"; "*/"; "xp_"; "sp_"]%string.

Definition sqlPatterns : list (option ascii → list ascii → bool) :=
  [ (λ prev s, existsb (λ kw, bool_decide (is_Some (word_at kw prev s))) keywords);
    (λ _ s, existsb (λ f, bool_decide (is_Some (at_head (list_ascii_of_string f) s))) fragments);
    (λ prev s,
       match word_at "OR" prev s with
       | Some rest => equals_on_line rest
       | None => false
       end
       || bool_decide (is_Some (at_head (list_ascii_of_string "1=1") s))
       || bool_decide (is_Some (at_head (list_ascii_of_string "'='") s))) ].

(** [isSafeSqlInput(value)] on a string *)
Definition isSafeSqlInput (value : string) : bool :=
  negb (existsb (λ pattern, somewhere pattern None (list_ascii_of_string value))
          sqlPatterns).

(** [isValidUserid(userid)] on a string *)
Definition isValidUserid (userid : string) : bool :=
  if String.eqb userid EmptyString then false
  else
    let cs := list_ascii_of_string userid in
    (4 <=? length cs)%nat && (length cs <=? 20)%nat && forallb is_word cs.

End validation.

(** ** models/userModel.js (the part the session handlers call) *)

Module User.

(** [User.findByUserid(userid)]: [.single()] answers the error
    [PGRST116] unless exactly one row matches, and that error is
    turned into [null]. *)
Definition findByUserid (userid' : string) : M (option UserRow) :=
  try_catch
    (storage_call ;;
     let* table := get users in
     match filter (λ u, userid u = userid') table with
     | [data] => ret (Some data)
     | _ => ret None
     end)
    (λ error, throw error).

(** [User.authenticate(userid, password)]; the object it returns is the
    row without its password. *)
Definition authenticate `{Bcrypt} (userid' : string) (password' : string)
    : M (option UserRow) :=
  try_catch
    (let* user := findByUserid userid' in
     match user with
     | None => ret None
     | Some user =>
         if negb (bcrypt_compare (Opaque password') (password user)) then ret None
         else ret (Some user)
     end)
    (λ error, throw error).

End User.

(** ** Requests and responses *)

(** The second argument of [extractToken]: ['accessToken'] or ['refreshToken']. *)
Inductive TokenType := AccessToken | RefreshToken.

Record Body := mkBody {
  b_accessToken : option Wire;
  b_refreshToken : option Wire;
  b_userid : option string;
  b_password : option string;
  b_rememberMe : option bool
}.

Record Jar := mkJar {
  k_accessToken : option Wire;
  k_refreshToken : option Wire
}.

Record Request := mkRequest {
  authorization : option (list Wire);   (* the header, cut at its spaces *)
  body : option Body;
  cookies : option Jar;
  user : option Decoded                 (* req.user *)
}.

Definition set_user (d : Decoded) (req : Request) : Request :=
  {| authorization := authorization req; body := body req;
     cookies := cookies req; user := Some d |}.

Inductive SameSite := none | lax.

Record CookieOptions := mkCookieOptions {
  httpOnly : bool;
  secure : bool;
  sameSite : SameSite;
  maxAge : option Z;         (* milliseconds *)
  path : string
}.

Inductive CookieValue :=
| TokenValue (v : Wire)
| FlagValue (b : bool).

Inductive CookieOp :=
| SetCookie (name : string) (value : CookieValue) (options : CookieOptions)
| ClearCookie (name : string) (options : option CookieOptions).

Inductive Message :=
| MsgAuthTokenRequired      (* 401, authMiddleware: a token is required *)
| MsgTokenExpired           (* 401, authMiddleware: the token has expired *)
| MsgTokenInvalid           (* 403, authMiddleware: the token is not valid *)
| MsgRefreshTokenMissing    (* 400, refreshToken: no refresh token given *)
| MsgRefreshTokenRejected   (* 401, refreshToken: not valid or expired *)
| MsgUserNotFound           (* 404, refreshToken *)
| MsgAccessTokenRenewed     (* 200, refreshToken *)
| MsgLoggedOut              (* 200, logout *)
| MsgServerError            (* 500 *)
| MsgCredentialsRequired    (* 400, login: id and password are both needed *)
| MsgUnsafeInput            (* 400, login *)
| MsgUseridFormat           (* 400, login *)
| MsgCredentialsRejected    (* 401, login *)
| MsgUserIndexInvalid       (* 500, login *)
| MsgTokenSaveFailed        (* 500, login: logged in, but the token was not saved *)
| MsgLoginSucceeded.        (* 200, login *)

Record UserSummary := mkUserSummary {
  s_id : option Z;
  s_userid : string;
  s_name : string;
  s_email : option string
}.

(** The JSON body of a response. *)
Record Json := mkJson {
  success : bool;
  message : Message;
  expired : option bool;
  j_accessToken : option Wire;
  j_user : option UserSummary;
  j_tokens : option (Wire * Wire);     (* {accessToken, refreshToken} *)
  j_rememberMe : option bool
}.

Definition plain (ok : bool) (m : Message) : Json :=
  {| success := ok; message := m; expired := None; j_accessToken := None;
     j_user := None; j_tokens := None; j_rememberMe := None |}.

Record Response := mkResponse {
  status : Z;
  json : Json;
  cookie_ops : list CookieOp     (* in the order they were issued *)
}.

(** ** utils/tokenUtil.js *)

Module tokenUtil.

(** [generateAccessToken(payload)] *)
Definition generateAccessToken (payload : Claims) : M Wire :=
  try_catch
    (let* cfg := get env in
     jwt.sign payload (ACCESS_TOKEN_SECRET cfg) (ACCESS_TOKEN_EXPIRES_IN cfg))
    (λ _, throw (Error ErrGenerateAccess)).

(** [generateRefreshToken(payload)] *)
Definition generateRefreshToken (payload : Claims) : M Wire :=
  try_catch
    (let* cfg := get env in
     jwt.sign payload (REFRESH_TOKEN_SECRET cfg) (REFRESH_TOKEN_EXPIRES_IN cfg))
    (λ _, throw (Error ErrGenerateRefresh)).

(** [saveRefreshToken(userId, refreshToken)] *)
Definition saveRefreshToken `{Bcrypt} (userId : Z) (refreshToken' : Wire) : M Row :=
  try_catch
    (let* salt := fresh_salt in
     let hashedToken := bcrypt_hash refreshToken' salt in
     let* t := get now in
     let expiresAt := t + 7 * 24 * 60 * 60 * 1000 in
     Token.saveRefreshToken userId (Some hashedToken) (Some expiresAt))
    (λ error, throw error).

(** [verifyRefreshToken(refreshToken)] *)
Definition verifyRefreshToken `{Bcrypt} (refreshToken' : Wire) : M (option Decoded) :=
  try_catch
    (let* cfg := get env in
     let* decoded := jwt.verify refreshToken' (REFRESH_TOKEN_SECRET cfg) in
     let* tokenRecord := Token.findRefreshToken refreshToken' in
     match tokenRecord with
     | None => ret None
     | Some record =>
         let* t := get now in
         if expires_at record <? t then
           Token.deleteRefreshTokenByToken refreshToken' ;;
           ret None
         else ret (Some decoded)
     end)
    (λ _, ret None).

Definition field (tokenType : TokenType) (b : Body) : option Wire :=
  match tokenType with
  | AccessToken => b_accessToken b
  | RefreshToken => b_refreshToken b
  end.

Definition cookie (tokenType : TokenType) (k : Jar) : option Wire :=
  match tokenType with
  | AccessToken => k_accessToken k
  | RefreshToken => k_refreshToken k
  end.

Definition if_truthy (v : option Wire) : option Wire :=
  match v with
  | Some x => if truthy x then Some x else None
  | None => None
  end.

(** The header, cut at its spaces, starts with ['Bearer '] when its
    first piece is [Bearer] and a second piece exists;
    [authHeader.split(' ')[1]] is that second piece. *)
Definition bearer_token (header : option (list Wire)) : option Wire :=
  match header with
  | Some (Opaque scheme :: second :: _) =>
      if String.eqb scheme "Bearer" then Some second else None
  | _ => None
  end.

(** [extractToken(req, tokenType)].  The piece after [Bearer] is
    returned as it is, even when it is empty; the body and the cookies
    are consulted only for a truthy value. *)
Definition extractToken (req : Request) (tokenType : TokenType) : option Wire :=
  match bearer_token (authorization req) with
  | Some second => Some second
  | None =>
      match if_truthy (body req ≫= field tokenType) with
      | Some v => Some v
      | None =>
          match if_truthy (cookies req ≫= cookie tokenType) with
          | Some v => Some v
          | None => None
          end
      end
  end.

Definition token_cookie (isProduction : bool) (age : Z) (readable : bool)
    : CookieOptions :=
  {| httpOnly := negb readable;
     secure := isProduction;
     sameSite := if isProduction then none else lax;
     maxAge := Some age;
     path := "/" |}.

(** [setTokenCookies(res, accessToken, refreshToken, rememberMe)] *)
Definition setTokenCookies (res : list CookieOp) (accessToken' refreshToken' : Wire)
    (rememberMe : bool) : M (list CookieOp) :=
  let* cfg := get env in
  let isProduction := production cfg in
  let refreshMaxAge :=
    if rememberMe then 30 * 24 * 60 * 60 * 1000 else 7 * 24 * 60 * 60 * 1000 in
  ret (res ++
    [ SetCookie "accessToken" (TokenValue accessToken')
        (token_cookie isProduction (60 * 60 * 1000) false);
      SetCookie "refreshToken" (TokenValue refreshToken')
        (token_cookie isProduction refreshMaxAge false);
      SetCookie "rememberMe" (FlagValue rememberMe)
        (token_cookie isProduction refreshMaxAge true) ]).

End tokenUtil.

(** ** middlewares/authMiddleware.js *)

Inductive Outcome :=
| Responded (res : Response)
| Next (req : Request).

Module authMiddleware.

(** [verifyToken(req, res, next)] *)
Definition verifyToken (req : Request) : M Outcome :=
  match tokenUtil.if_truthy (tokenUtil.extractToken req AccessToken) with
  | None =>
      ret (Responded {| status := 401;
                        json := plain false MsgAuthTokenRequired;
                        cookie_ops := [] |})
  | Some token' =>
      try_catch
        (let* cfg := get env in
         let* decoded := jwt.verify token' (ACCESS_TOKEN_SECRET cfg) in
         ret (Next (set_user decoded req)))
        (λ error,
           match error with
           | JwtError TokenExpiredError =>
               ret (Responded
                      {| status := 401;
                         json := {| success := false; message := MsgTokenExpired;
                                    expired := Some true; j_accessToken := None;
                                    j_user := None; j_tokens := None;
                                    j_rememberMe := None |};
                         cookie_ops := [] |})
           | _ =>
               ret (Responded {| status := 403;
                                 json := plain false MsgTokenInvalid;
                                 cookie_ops := [] |})
           end)
  end.

End authMiddleware.

(** ** controllers/authController.js *)

Module authController.

Definition server_error : Response :=
  {| status := 500; json := plain false MsgServerError; cookie_ops := [] |}.

(** [refreshToken(req, res)] *)
Definition refreshToken `{Bcrypt} (req : Request) : M Response :=
  try_catch
    (match tokenUtil.if_truthy (tokenUtil.extractToken req RefreshToken) with
     | None =>
         ret {| status := 400; json := plain false MsgRefreshTokenMissing;
                cookie_ops := [] |}
     | Some refreshToken' =>
         let* payload := tokenUtil.verifyRefreshToken refreshToken' in
         match payload with
         | None =>
             ret {| status := 401; json := plain false MsgRefreshTokenRejected;
                    cookie_ops := [ClearCookie "accessToken" None;
                                   ClearCookie "refreshToken" None] |}
         | Some payload =>
             let* user := User.findByUserid (c_userid (d_claims payload)) in
             match user with
             | None =>
                 ret {| status := 404; json := plain false MsgUserNotFound;
                        cookie_ops := [ClearCookie "accessToken" None;
                                       ClearCookie "refreshToken" None] |}
             | Some user =>
                 let userInfo :=
                   {| c_id := userindex user; c_userid := userid user;
                      c_name := name user; c_rememberMe := None |} in
                 let* accessToken' := tokenUtil.generateAccessToken userInfo in
                 let* cfg := get env in
                 let isProduction := production cfg in
                 ret {| status := 200;
                        json := {| success := true; message := MsgAccessTokenRenewed;
                                   expired := None;
                                   j_accessToken := Some accessToken';
                                   j_user := Some {| s_id := userindex user;
                                                     s_userid := userid user;
                                                     s_name := name user;
                                                     s_email := None |};
                                   j_tokens := None; j_rememberMe := None |};
                        cookie_ops :=
                          [SetCookie "accessToken" (TokenValue accessToken')
                             (tokenUtil.token_cookie isProduction (60 * 60 * 1000) false)] |}
             end
         end
     end)
    (λ _, ret server_error).

Definition clear_options (isProduction : bool) (readable : bool) : CookieOptions :=
  {| httpOnly := negb readable;
     secure := isProduction;
     sameSite := if isProduction then none else lax;
     maxAge := None;
     path := "/" |}.

(** [logout(req, res)] *)
Definition logout `{Bcrypt} (req : Request) : M Response :=
  try_catch
    (let refreshToken' := tokenUtil.extractToken req RefreshToken in
     let userId := user req ≫= (λ u, c_id (d_claims u)) in
     match tokenUtil.if_truthy refreshToken' with
     | Some refreshToken' => Token.deleteRefreshTokenByToken refreshToken' ;; ret ()
     | None =>
         match userId with
         | Some userId => if userId =? 0 then ret ()
                          else Token.deleteRefreshToken userId ;; ret ()
         | None => ret ()
         end
     end ;;
     let* cfg := get env in
     let isProduction := production cfg in
     ret {| status := 200; json := plain true MsgLoggedOut;
            cookie_ops :=
              [ClearCookie "accessToken" (Some (clear_options isProduction false));
               ClearCookie "refreshToken" (Some (clear_options isProduction false));
               ClearCookie "rememberMe" (Some (clear_options isProduction true))] |})
    (λ _, ret server_error).

End authController.

(** ** routes/authRoutes.js: the step in front of [logout] *)

Module authRoutes.

(** A bearer token that verifies as an access token fills [req.user];
    one that does not is ignored. *)
Definition optional_user (req : Request) : M Request :=
  match tokenUtil.bearer_token (authorization req) with
  | Some token' =>
      try_catch
        (let* cfg := get env in
         let* decoded := jwt.verify token' (ACCESS_TOKEN_SECRET cfg) in
         ret (set_user decoded req))
        (λ _, ret req)
  | None => ret req
  end.

(** [POST /logout] *)
Definition post_logout `{Bcrypt} (req : Request) : M Response :=
  let* req := optional_user req in
  authController.logout req.

End authRoutes.

(** ** controllers/userController.js: [login] *)

Module userController.

Definition bad_request (m : Message) : Response :=
  {| status := 400; json := plain false m; cookie_ops := [] |}.

Definition empty (v : option string) : bool :=
  match v with
  | Some s => String.eqb s EmptyString
  | None => true
  end.

(** [login(req, res)] *)
Definition login `{Bcrypt} (req : Request) : M Response :=
  try_catch
    (match body req with
     | None => throw TypeError
     | Some b =>
       let rememberMe := default false (b_rememberMe b) in
       if empty (b_userid b) || empty (b_password b)
       then ret (bad_request MsgCredentialsRequired)
       else
         let userid' := default EmptyString (b_userid b) in
         let password' := default EmptyString (b_password b) in
         if negb (validation.isSafeSqlInput userid') then ret (bad_request MsgUnsafeInput)
         else if negb (validation.isValidUserid userid') then ret (bad_request MsgUseridFormat)
         else
           let* user := User.authenticate userid' password' in
           match user with
           | None =>
               ret {| status := 401; json := plain false MsgCredentialsRejected;
                      cookie_ops := [] |}
           | Some user =>
               match userindex user with
               | None =>
                   ret {| status := 500; json := plain false MsgUserIndexInvalid;
                          cookie_ops := [] |}
               | Some index =>
                   let userInfo :=
                     {| c_id := userindex user; c_userid := userid user;
                        c_name := name user; c_rememberMe := Some rememberMe |} in
                   let* accessToken' := tokenUtil.generateAccessToken userInfo in
                   let* refreshToken' := tokenUtil.generateRefreshToken userInfo in
                   let* saved :=
                     try_catch
                       (tokenUtil.saveRefreshToken index refreshToken' ;;
                        let* res := tokenUtil.setTokenCookies [] accessToken'
                                      refreshToken' rememberMe in
                        ret (inl res))
                       (λ _, ret (inr {| status := 500;
                                         json := plain false MsgTokenSaveFailed;
                                         cookie_ops := [] |})) in
                   match saved with
                   | inr failure => ret failure
                   | inl res =>
                       ret {| status := 200;
                              json := {| success := true; message := MsgLoginSucceeded;
                                         expired := None; j_accessToken := None;
                                         j_user := Some {| s_id := userindex user;
                                                           s_userid := userid user;
                                                           s_name := name user;
                                                           s_email := email user |};
                                         j_tokens := Some (accessToken', refreshToken');
                                         j_rememberMe := Some rememberMe |};
                              cookie_ops := res |}
                   end
               end
           end
     end)
    (λ _, ret authController.server_error).

End userController.

(** ** A digest to run the model with

    Any function of the salt and of the bytes bcrypt reads can stand for
    the digest when a scenario is evaluated; this one gives different
    bytes different digests. *)

Definition sample_digest (salt : Z) (bytes : list ascii) : Z :=
  salt + foldl (λ acc c, acc * 257 + Z.of_N (N_of_ascii c) + 1) 0 bytes.

Definition sample_bcrypt : Bcrypt := {| digest := sample_digest |}.

(** ** What the properties are stated with *)

(** At most one row of [refresh_token] for each user. *)
Definition one_row_per_user (rs : list Row) : Prop :=
  ∀ u, (length (filter (λ r, user_id r = u) rs) ≤ 1)%nat.

(** A computation keeps the single-row invariant, however it ends. *)
Definition keeps_one_row {A} (m : M A) : Prop :=
  ∀ w, one_row_per_user (rows w) → one_row_per_user (rows (m w).2).

(** The clock moves to [t]; nothing else changes. *)
Definition at_time (t : Z) (w : World) : World :=
  {| rows := rows w; next_id := next_id w; users := users w;
     faults := faults w; now := t; salts := salts w; env := env w |}.

(** The coming storage calls fail as [fs] says. *)
Definition with_faults (fs : list bool) (w : World) : World :=
  {| rows := rows w; next_id := next_id w; users := users w;
     faults := fs; now := now w; salts := salts w; env := env w |}.

(** A request that carries [tok] as a bearer token and nothing else. *)
Definition bearer (tok : Wire) : Request :=
  {| authorization := Some [Opaque "Bearer"; tok]; body := None;
     cookies := None; user := None |}.

(** [tok] carries a signature made with the configured [secret]. *)
Definition valid_signature (tok : Wire) (secret : option string) : bool :=
  match tok, jwt.usable secret with
  | Signed key _ _ _, Some k => String.eqb key k
  | _, _ => false
  end.

(** The token-embedded expiry of [tok] has passed at time [t] (ms). *)
Definition token_expired (tok : Wire) (t : Z) : bool :=
  match tok with
  | Signed _ _ _ exp => exp <=? t / 1000
  | Opaque _ => false
  end.

(** The three ways the access-token guard refuses a request. *)
Definition refused_no_token : Response :=
  {| status := 401; json := plain false MsgAuthTokenRequired; cookie_ops := [] |}.

Definition refused_expired : Response :=
  {| status := 401;
     json := {| success := false; message := MsgTokenExpired; expired := Some true;
                j_accessToken := None; j_user := None; j_tokens := None;
                j_rememberMe := None |};
     cookie_ops := [] |}.

Definition refused_invalid : Response :=
  {| status := 403; json := plain false MsgTokenInvalid; cookie_ops := [] |}.

(** The one answer of the refresh endpoint to a token it does not accept. *)
Definition refresh_rejected : Response :=
  {| status := 401; json := plain false MsgRefreshTokenRejected;
     cookie_ops := [ClearCookie "accessToken" None; ClearCookie "refreshToken" None] |}.

(** The answer of a logout that went through. *)
Definition logged_out (isProduction : bool) : Response :=
  {| status := 200; json := plain true MsgLoggedOut;
     cookie_ops :=
       [ClearCookie "accessToken" (Some (authController.clear_options isProduction false));
        ClearCookie "refreshToken" (Some (authController.clear_options isProduction false));
        ClearCookie "rememberMe" (Some (authController.clear_options isProduction true))] |}.

(** The next storage call is going to fail. *)
Definition next_call_fails (w : World) : bool :=
  match faults w with
  | true :: _ => true
  | _ => false
  end.

(** The [n]-th of the coming storage calls fails; the next one is
    number 0. *)
Definition call_fails (n : nat) (w : World) : bool := nth n (faults w) false.

(** The world once [n] storage calls have been answered. *)
Definition after_calls (n : nat) (w : World) : World :=
  {| rows := rows w; next_id := next_id w; users := users w;
     faults := drop n (faults w); now := now w; salts := salts w; env := env w |}.

(** The payload of a signed token, as [jwt.verify] returns it. *)
Definition decode (tok : Wire) : option Decoded :=
  match tok with
  | Signed _ c iat exp => Some {| d_claims := c; d_iat := iat; d_exp := exp |}
  | Opaque _ => None
  end.

(** The row [findRefreshToken] meets first for [tok]. *)
Definition matching_row `{Bcrypt} (tok : Wire) (w : World) : option Row :=
  List.find (λ row, bcrypt_compare tok (token row)) (rows w).

(** ** A small deployment to evaluate scenarios on *)

Module Scenario.

(** The account [alice]; her password is [pass1234], hashed with
    [sample_digest] and salt 7. *)
Definition alice : UserRow :=
  {| userindex := Some 1; userid := "alice";
     password := @bcrypt_hash sample_bcrypt (Opaque "pass1234") 7;
     name := "Alice"; email := None |}.

(** An empty token table, the default lifetimes, the clock at 1000 s. *)
Definition start : World :=
  {| rows := []; next_id := 1; users := [alice]; faults := [];
     now := 1000000; salts := 0; env := default_config "access-key" "refresh-key" |}.

Definition login_request (rememberMe : bool) : Request :=
  {| authorization := None;
     body := Some {| b_accessToken := None; b_refreshToken := None;
                     b_userid := Some "alice"%string;
                     b_password := Some "pass1234"%string;
                     b_rememberMe := Some rememberMe |};
     cookies := None; user := None |}.

(** The refresh token [alice] gets when she logs in at [start]. *)
Definition refresh_token (rememberMe : bool) : Wire :=
  Signed "refresh-key"
    {| c_id := Some 1; c_userid := "alice"; c_name := "Alice";
       c_rememberMe := Some rememberMe |} 1000 605800.

(** A request that presents [tok] in the [refreshToken] cookie. *)
Definition with_cookie (tok : Wire) : Request :=
  {| authorization := None; body := None;
     cookies := Some {| k_accessToken := None; k_refreshToken := Some tok |};
     user := None |}.

(** The world after [alice] has logged in at [start]. *)
Definition logged_in (rememberMe : bool) : World :=
  (@userController.login sample_bcrypt (login_request rememberMe) start).2.

End Scenario.

(** ** routes/authRoutes.js: [GET /verify] *)

Module verifyRoute.

(** The [user] object of the 200 answer. *)
Record Verified := mkVerified {
  v_id : option Z;
  v_userid : string;
  v_name : string;
  v_rememberMe : bool
}.

Inductive Answer :=
| Refused (res : Response)      (* what [verifyToken] answered *)
| Valid (user : Verified).      (* 200, the token is valid *)

(** [router.get('/verify', verifyToken, (req, res) => ...)];
    [req.user.rememberMe || false] is [false] when the flag is absent. *)
Definition get_verify (req : Request) : M Answer :=
  let* outcome := authMiddleware.verifyToken req in
  match outcome with
  | Responded res => ret (Refused res)
  | Next req =>
      match user req with
      | Some decoded =>
          ret (Valid {| v_id := c_id (d_claims decoded);
                        v_userid := c_userid (d_claims decoded);
                        v_name := c_name (d_claims decoded);
                        v_rememberMe := default false (c_rememberMe (d_claims decoded)) |})
      | None => throw TypeError
      end
  end.

End verifyRoute.

(** ** controllers/userController.js: [checkUserid] *)

Module checkUserid.

(** The four answers of the handler, each a fixed status and body. *)
Inductive Answer :=
| Missing        (* 400: no id was given *)
| Taken          (* 409: the id is in use *)
| Free           (* 200: the id can be used *)
| Failed.        (* 500 *)

Definition status_of (a : Answer) : Z :=
  match a with
  | Missing => 400
  | Taken => 409
  | Free => 200
  | Failed => 500
  end.

(** [checkUserid(req, res)] *)
Definition handle (req : Request) : M Answer :=
  try_catch
    (match body req with
     | None => throw TypeError
     | Some b =>
         if userController.empty (b_userid b) then ret Missing
         else
           let* existingUser := User.findByUserid (default EmptyString (b_userid b)) in
           match existingUser with
           | Some _ => ret Taken
           | None => ret Free
           end
     end)
    (λ _, ret Failed).

End checkUserid.

(** ** What the further properties are stated with *)

(** The request names an account of table [users], once, and gives its
    password; the id passes the checks [login] makes before it asks the
    store. *)
Definition valid_credentials `{Bcrypt} (req : Request) (account : UserRow)
    (w : World) : Prop :=
  ∃ b pw,
    body req = Some b ∧
    b_userid b = Some (userid account) ∧
    b_password b = Some pw ∧
    pw ≠ EmptyString ∧
    validation.isSafeSqlInput (userid account) = true ∧
    validation.isValidUserid (userid account) = true ∧
    filter (λ u, userid u = userid account) (users w) = [account] ∧
    bcrypt_compare (Opaque pw) (password account) = true.

(** Both signing secrets are set. *)
Definition configured (w : World) (access_key refresh_key : string) : Prop :=
  jwt.usable (ACCESS_TOKEN_SECRET (env w)) = Some access_key ∧
  jwt.usable (REFRESH_TOKEN_SECRET (env w)) = Some refresh_key.

(** The [rememberMe] of the request body, [false] when it is not given. *)
Definition remember_me (req : Request) : bool :=
  default false (body req ≫= b_rememberMe).

(** The claims [login] signs for an account. *)
Definition login_claims (account : UserRow) (rememberMe : bool) : Claims :=
  {| c_id := userindex account; c_userid := userid account;
     c_name := name account; c_rememberMe := Some rememberMe |}.

(** A cookie instruction that sets a cookie. *)
Definition sets_cookie (op : CookieOp) : bool :=
  match op with
  | SetCookie _ _ _ => true
  | ClearCookie _ _ => false
  end.

(** ** utils/validation.js: the other validators

    Strings are held as UTF-8 bytes; a JS regular expression sees UTF-16
    code units.  [code_units] decodes the bytes; a character outside the
    basic plane gives its two surrogates, a byte that starts no
    well-formed sequence gives U+FFFD. *)

Module validation_js.

Definition byte (c : ascii) : N := N_of_ascii c.

Definition continuation (c : ascii) : bool :=
  ((128 <=? byte c) && (byte c <? 192))%N.

Definition low6 (c : ascii) : N := N.land (byte c) 63.

Definition astral (cp : N) : list N :=
  (if cp <? 65536 then [cp]
   else [55296 + N.shiftr (cp - 65536) 10; 56320 + N.land (cp - 65536) 1023])%N.

Fixpoint code_units (s : list ascii) : list N :=
  match s with
  | [] => []
  | b :: rest =>
      if (byte b <? 128)%N then byte b :: code_units rest
      else
        match rest with
        | b2 :: rest2 =>
            if ((192 <=? byte b) && (byte b <? 224))%N && continuation b2 then
              (N.shiftl (N.land (byte b) 31) 6 + low6 b2)%N :: code_units rest2
            else
              match rest2 with
              | b3 :: rest3 =>
                  if ((224 <=? byte b) && (byte b <? 240))%N
                     && continuation b2 && continuation b3 then
                    (N.shiftl (N.land (byte b) 15) 12 + N.shiftl (low6 b2) 6 + low6 b3)%N
                      :: code_units rest3
                  else
                    match rest3 with
                    | b4 :: rest4 =>
                        if ((240 <=? byte b) && (byte b <? 248))%N
                           && continuation b2 && continuation b3 && continuation b4 then
                          astral (N.shiftl (N.land (byte b) 7) 18 + N.shiftl (low6 b2) 12
                                  + N.shiftl (low6 b3) 6 + low6 b4)%N
                            ++ code_units rest4
                        else 65533%N :: code_units rest
                    | [] => 65533%N :: code_units rest
                    end
              | [] => 65533%N :: code_units rest
              end
        | [] => 65533%N :: code_units rest
        end
  end.

(** [value.length] *)
Definition js_length (value : string) : nat :=
  length (code_units (list_ascii_of_string value)).

(** A piece of a regular expression over code units: a character of a
    class repeated between [lo] and [hi] times ([x], [x?], [x{lo,hi}]),
    or one or more times ([x+]). *)
Inductive Piece :=
| Rep (lo hi : nat) (class : N → bool)
| Plus (class : N → bool).

Definition One (class : N → bool) : Piece := Rep 1 1 class.
Definition Optional (class : N → bool) : Piece := Rep 0 1 class.

(** [x{lo,hi}] followed by [continue]: as many [x] as there are, up to
    [hi], and then one fewer at a time down to [lo], as the matcher
    backtracks. *)
Fixpoint repeated (class : N → bool) (continue : list N → bool)
    (lo hi : nat) (s : list N) : bool :=
  match hi with
  | O => match lo with O => continue s | S _ => false end
  | S hi' =>
      let one_more (lo' : nat) :=
        match s with
        | x :: s' => if class x then repeated class continue lo' hi' s' else false
        | [] => false
        end in
      match lo with
      | O => if one_more O then true else continue s
      | S lo' => one_more lo'
      end
  end.

(** [/^pieces$/.test(s)]: whether the whole of [s] matches. *)
Fixpoint matches (pieces : list Piece) : list N → bool :=
  match pieces with
  | [] => λ s, match s with [] => true | _ :: _ => false end
  | piece :: more =>
      let continue := matches more in
      match piece with
      | Rep lo hi class => repeated class continue lo hi
      | Plus class =>
          fix plus (s : list N) : bool :=
            match s with
            | x :: s' =>
                if class x then (if plus s' then true else continue s') else false
            | [] => false
            end
      end
  end.

Definition char (c : string) (x : N) : bool :=
  match c with
  | String a EmptyString => (x =? byte a)%N
  | _ => false
  end.

Definition digit (x : N) : bool := ((48 <=? x) && (x <=? 57))%N.

Definition letter (x : N) : bool :=
  ((65 <=? x) && (x <=? 90) || (97 <=? x) && (x <=? 122))%N.

(** [\s] *)
Definition space (x : N) : bool :=
  ((9 <=? x) && (x <=? 13) || (x =? 32) || (x =? 160) || (x =? 5760)
   || (8192 <=? x) && (x <=? 8202) || (x =? 8232) || (x =? 8233)
   || (x =? 8239) || (x =? 8287) || (x =? 12288) || (x =? 65279))%N.

(** The Hangul syllables, U+AC00 to U+D7A3. *)
Definition hangul (x : N) : bool := ((44032 <=? x) && (x <=? 55203))%N.

Definition units (value : string) : list N :=
  code_units (list_ascii_of_string value).

(** [isValidPassword(password)] on a string *)
Definition isValidPassword (password : string) : bool :=
  if String.eqb password EmptyString then false
  else
    (8 <=? js_length password)%nat && (js_length password <=? 50)%nat
    && existsb letter (units password) && existsb digit (units password).

(** [isValidName(name)] on a string: [/^[hangul a-zA-Z\s]{2,50}$/] *)
Definition isValidName (name : string) : bool :=
  if String.eqb name EmptyString then false
  else matches [Rep 2 50 (λ x, hangul x || letter x || space x)] (units name).

(** [isValidPhone(phone)] on a string:
    [/^01[0-9]-?[0-9]{3,4}-?[0-9]{4}$/] *)
Definition phonePattern : list Piece :=
  [One (char "0"); One (char "1"); One digit; Optional (char "-");
   Rep 3 4 digit; Optional (char "-"); Rep 4 4 digit].

Definition isValidPhone (phone : string) : bool :=
  if String.eqb phone EmptyString then false
  else matches phonePattern (units phone).

(** [isValidEmail(email)] on a string: [/^[^\s@]+@[^\s@]+\.[^\s@]+$/]
    and at most 100 code units *)
Definition emailPattern : list Piece :=
  let plain := λ x, negb (space x || char "@" x) in
  [Plus plain; One (char "@"); Plus plain; One (char "."); Plus plain].

Definition isValidEmail (email : string) : bool :=
  if String.eqb email EmptyString then false
  else matches emailPattern (units email) && (js_length email <=? 100)%nat.

(** [isValidAge(age)] on a number that is an integer *)
Definition isValidAge (age : Z) : bool := (1 <=? age) && (age <=? 150).

(** [isValidGender(gender)] on a string *)
Definition isValidGender (gender : string) : bool :=
  String.eqb gender "M" || String.eqb gender "F".

(** [value.replace(/c/g, by)] for a one-character pattern *)
Definition replace_all (c : ascii) (by_ : string) (value : list ascii) : list ascii :=
  flat_map (λ x, if Ascii.eqb x c then list_ascii_of_string by_ else [x]) value.

Definition quote : ascii := ascii_of_N 34.

(** [sanitizeInput(value)] on a string *)
Definition sanitizeInput (value : string) : string :=
  string_of_list_ascii
    (replace_all "/" "&#x2F;"
       (replace_all "'" "&#x27;"
          (replace_all quote "&quot;"
             (replace_all ">" "&gt;"
                (replace_all "<" "&lt;" (list_ascii_of_string value)))))).

End validation_js.

(** ** controllers/userController.js: register

    [register] is an async function: it runs to its first [await], and
    each time the awaited promise settles it runs to the next one or to
    its answer.  Between two of these runs the event loop handles other
    requests and runs the timers that are due.  A request in flight is
    kept as the point where it waits and what it has captured; the
    database is the environment, which settles each promise as it likes. *)

Module register.

(** [req.body]: the string fields are absent or strings, [age] is
    absent or an integer. *)
Record Form := mkForm {
  f_userid : option string;
  f_password : option string;
  f_name : option string;
  f_age : option Z;
  f_gender : option string;
  f_phone : option string;
  f_email : option string
}.

(** An error of the database client: [{code, message, sqlMessage}]. *)
Record DbError := mkDbError {
  e_code : option string;
  e_message : option string;
  e_sqlMessage : option string
}.

(** The row [User.create] resolves with. *)
Record NewUser := mkNewUser {
  userindex : Z;
  n_userid : string;
  n_name : string;
  n_email : option string
}.

Inductive Answer :=
| MissingFields          (* 400 *)
| UnsafeInput            (* 400 *)
| BadUserid              (* 400 *)
| BadPassword            (* 400 *)
| BadName                (* 400 *)
| BadAge                 (* 400 *)
| BadGender              (* 400 *)
| BadPhone               (* 400 *)
| BadEmail               (* 400 *)
| Busy                   (* 429 *)
| UseridTaken            (* 409, the lookup found the userid *)
| Created (user : NewUser)   (* 201 *)
| DuplicatePhone         (* 409 *)
| DuplicateEmail         (* 409 *)
| DuplicateUserid        (* 409 *)
| Duplicate              (* 409 *)
| ServerError.           (* 500 *)

Definition status (a : Answer) : Z :=
  match a with
  | MissingFields | UnsafeInput | BadUserid | BadPassword | BadName
  | BadAge | BadGender | BadPhone | BadEmail => 400
  | Busy => 429
  | UseridTaken | DuplicatePhone | DuplicateEmail | DuplicateUserid | Duplicate => 409
  | Created _ => 201
  | ServerError => 500
  end.

(** JS truthiness of a field *)
Definition given (v : option string) : bool :=
  match v with
  | Some s => negb (String.eqb s EmptyString)
  | None => false
  end.

Definition given_age (v : option Z) : bool :=
  match v with
  | Some n => negb (n =? 0)
  | None => false
  end.

(** [isSafeSqlInput(v)]: a value that is no string passes. *)
Definition safe (v : option string) : bool :=
  match v with
  | Some s => validation.isSafeSqlInput s
  | None => true
  end.

(** A validator on a field: a value that is no string fails. *)
Definition valid {A} (check : A → bool) (v : option A) : bool :=
  match v with
  | Some s => check s
  | None => false
  end.

(** The checks before the lock is tried, in the order of the code; the
    first one that fails gives the answer. *)
Definition validate (f : Form) : option Answer :=
  if negb (given (f_userid f)) || negb (given (f_password f)) || negb (given (f_name f))
     || negb (given_age (f_age f)) || negb (given (f_gender f)) || negb (given (f_phone f))
  then Some MissingFields
  else if negb (safe (f_userid f)) || negb (safe (f_name f)) || negb (safe (f_phone f))
          || (given (f_email f) && negb (safe (f_email f)))
  then Some UnsafeInput
  else if negb (valid validation.isValidUserid (f_userid f)) then Some BadUserid
  else if negb (valid validation_js.isValidPassword (f_password f)) then Some BadPassword
  else if negb (valid validation_js.isValidName (f_name f)) then Some BadName
  else if negb (valid validation_js.isValidAge (f_age f)) then Some BadAge
  else if negb (valid validation_js.isValidGender (f_gender f)) then Some BadGender
  else if negb (valid validation_js.isValidPhone (f_phone f)) then Some BadPhone
  else if given (f_email f) && negb (valid validation_js.isValidEmail (f_email f))
  then Some BadEmail
  else None.

(** [hay.includes(needle)] *)
Fixpoint starts_with (needle hay : list ascii) : bool :=
  match needle, hay with
  | [], _ => true
  | _ :: _, [] => false
  | a :: needle', b :: hay' => Ascii.eqb a b && starts_with needle' hay'
  end.

Fixpoint includes_list (hay needle : list ascii) : bool :=
  starts_with needle hay
  || match hay with
     | [] => false
     | _ :: hay' => includes_list hay' needle
     end.

Definition includes (hay needle : string) : bool :=
  includes_list (list_ascii_of_string hay) (list_ascii_of_string needle).

(** The [catch] block, after it has released the lock. *)
Definition on_error (error : DbError) : Answer :=
  if bool_decide (e_code error = Some "23505")
     || bool_decide (e_code error = Some "ER_DUP_ENTRY") then
    let errorMessage :=
      if given (e_message error) then default EmptyString (e_message error)
      else if given (e_sqlMessage error) then default EmptyString (e_sqlMessage error)
      else EmptyString in
    if includes errorMessage "phone" || includes errorMessage "전화번호" then DuplicatePhone
    else if includes errorMessage "email" || includes errorMessage "이메일" then DuplicateEmail
    else if includes errorMessage "userid" || includes errorMessage "아이디" then DuplicateUserid
    else Duplicate
  else ServerError.

(** Where a request in flight waits. *)
Inductive Stage :=
| AwaitLookup                      (* await User.findByUserid(userid) *)
| AwaitCreate                      (* await User.create({...}) *)
| AwaitFolder (newUser : NewUser). (* await Favorite.createDefaultFolder(...) *)

(** How the awaited promise settles. *)
Inductive Value :=
| Existing (found : bool)          (* the row of the userid, or null *)
| Row (newUser : NewUser)
| Folder.

Inductive Reply :=
| Resolved (v : Value)
| Rejected (error : DbError).

(** From the call to the first [await], or to the answer. *)
Definition begin (f : Form) (s : RequestLock.Loop) : (Answer + string) * RequestLock.Loop :=
  match validate f with
  | Some a => (inl a, s)
  | None =>
      let userid := default EmptyString (f_userid f) in
      let '(acquired, s') := RequestLock.acquire userid s in
      if acquired then (inr userid, s') else (inl Busy, s')
  end.

(** From a settled promise to the next [await], or to the answer.  A
    promise settles with a value of its own kind; there is nothing to
    run for another. *)
Definition resume (userid : string) (st : Stage) (r : Reply) (s : RequestLock.Loop)
  : option ((Answer + Stage) * RequestLock.Loop) :=
  match st, r with
  | AwaitLookup, Resolved (Existing true) =>
      Some (inl UseridTaken, RequestLock.release userid s)
  | AwaitLookup, Resolved (Existing false) => Some (inr AwaitCreate, s)
  | AwaitCreate, Resolved (Row newUser) => Some (inr (AwaitFolder newUser), s)
  | AwaitFolder newUser, Resolved Folder =>
      Some (inl (Created newUser), RequestLock.release userid s)
  | AwaitFolder newUser, Rejected _ =>
      Some (inl (Created newUser), RequestLock.release userid s)
  | AwaitLookup, Rejected error | AwaitCreate, Rejected error =>
      Some (inl (on_error error), RequestLock.release userid s)
  | _, _ => None
  end.

(** The server: the lock, the requests in flight and the answers sent. *)
Record Flight := mkFlight {
  key : string;
  stage : Stage
}.

Record Server := mkServer {
  lock : RequestLock.Loop;
  flights : gmap nat Flight;
  answers : gmap nat Answer;
  next_request : nat
}.

Definition boot (t0 : Z) : Server :=
  {| lock := RequestLock.create t0; flights := ∅; answers := ∅; next_request := 0 |}.

Inductive Event :=
| Arrive (f : Form)                (* POST /register; it gets the next number *)
| Settle (id : nat) (r : Reply)    (* the promise request [id] awaits settles *)
| Tick (t : Z)                     (* the clock reaches [t]; due timers run *)
| Sweep.                           (* the interval timer runs [cleanup] *)

Definition step (e : Event) (sv : Server) : Server :=
  match e with
  | Arrive f =>
      let id := next_request sv in
      match begin f (lock sv) with
      | (inl a, s') =>
          {| lock := s'; flights := flights sv;
             answers := <[id := a]> (answers sv); next_request := S id |}
      | (inr userid, s') =>
          {| lock := s';
             flights := <[id := {| key := userid; stage := AwaitLookup |}]> (flights sv);
             answers := answers sv; next_request := S id |}
      end
  | Settle id r =>
      match flights sv !! id with
      | Some fl =>
          match resume (key fl) (stage fl) r (lock sv) with
          | Some (inl a, s') =>
              {| lock := s'; flights := delete id (flights sv);
                 answers := <[id := a]> (answers sv); next_request := next_request sv |}
          | Some (inr st, s') =>
              {| lock := s';
                 flights := <[id := {| key := key fl; stage := st |}]> (flights sv);
                 answers := answers sv; next_request := next_request sv |}
          | None => sv
          end
      | None => sv
      end
  | Tick t =>
      {| lock := RequestLock.advance t (lock sv); flights := flights sv;
         answers := answers sv; next_request := next_request sv |}
  | Sweep =>
      {| lock := RequestLock.cleanup (lock sv); flights := flights sv;
         answers := answers sv; next_request := next_request sv |}
  end.

Definition run (events : list Event) (sv : Server) : Server :=
  foldl (λ acc e, step e acc) sv events.

(** An event that takes no lock away from a request in flight: a tick
    with no timer due, a sweep that finds nothing. *)
Definition gentle (e : Event) (sv : Server) : bool :=
  match e with
  | Tick t => bool_decide (RequestLock.due_timers t (lock sv) = [])
  | Sweep => bool_decide (RequestLock.expired_keys (lock sv) = [])
  | _ => true
  end.

(** No request of the run outlives the window of the lock. *)
Fixpoint prompt (events : list Event) (sv : Server) : bool :=
  match events with
  | [] => true
  | e :: rest => gentle e sv && prompt rest (step e sv)
  end.

Definition in_flight (userid : string) (sv : Server) : Prop :=
  ∃ id fl, flights sv !! id = Some fl ∧ key fl = userid.

(** The lock and the requests in flight agree: a userid is locked when
    a request for it is in flight, no two requests in flight have the
    same userid, and the numbers handed out so far are below the next. *)
Record consistent (sv : Server) : Prop := mkConsistent {
  c_held : ∀ k, RequestLock.held k (lock sv) = true ↔ in_flight k sv;
  c_unique : ∀ id1 id2 fl1 fl2,
    flights sv !! id1 = Some fl1 → flights sv !! id2 = Some fl2 →
    key fl1 = key fl2 → id1 = id2;
  c_fresh : ∀ id fl, flights sv !! id = Some fl → (id < next_request sv)%nat
}.

(** A form that passes every check. *)
Definition sample_form (userid : string) : Form :=
  {| f_userid := Some userid; f_password := Some "pass1234"%string;
     f_name := Some "Alice Kim"%string; f_age := Some 30;
     f_gender := Some "F"%string; f_phone := Some "010-1234-5678"%string;
     f_email := None |}.

End register.

(* ===================================================================== *)
(** * Part II: properties *)
(* ===================================================================== *)

(** ** The registration lock *)

Section LockFacts.
Import RequestLock.
Implicit Types (s : Loop) (key k : string).

Lemma held_true key s : held key s = true ↔ is_Some (locks s !! key).
Proof. unfold held. apply bool_decide_eq_true. Qed.

Lemma held_false key s : held key s = false ↔ locks s !! key = None.
Proof.
  unfold held. rewrite bool_decide_eq_false, <- eq_None_not_Some. done.
Qed.

Lemma acquire_held key s : held key s = true → acquire key s = (false, s).
Proof. intros Hh. unfold acquire. by rewrite Hh. Qed.

Lemma acquire_free key s :
  held key s = false →
  ∃ s', acquire key s = (true, s') ∧
        locks s' = <[key := {| timestamp := clock s; timer := next_timer s |}]> (locks s).
Proof. intros Hf. unfold acquire. rewrite Hf. eauto. Qed.

Lemma acquire_keeps_held key k s :
  held key s = true → held key (acquire k s).2 = true.
Proof.
  intros Hh. unfold acquire. destruct (held k s) eqn:Hk; simpl; [done|].
  apply held_true. apply held_true in Hh. apply held_false in Hk. simpl.
  rewrite lookup_insert_ne; [done|]. intros ->. rewrite Hk in Hh. by destruct Hh.
Qed.

Lemma release_other key k s :
  k ≠ key → locks (release k s) !! key = locks s !! key.
Proof.
  intros Hne. unfold release. destruct (locks s !! k); simpl; [|done].
  by rewrite lookup_delete_ne.
Qed.

Lemma release_unheld key s : held key s = false → release key s = s.
Proof. intros Hf. apply held_false in Hf. unfold release. by rewrite Hf. Qed.

Lemma release_frees key s : held key (release key s) = false.
Proof.
  apply held_false. unfold release.
  destruct (locks s !! key) eqn:E; simpl; [apply lookup_delete_eq | done].
Qed.

Lemma release_idempotent key s : release key (release key s) = release key s.
Proof. apply release_unheld, release_frees. Qed.

(** While [key] stays held, every further [acquire key] is refused. *)
Lemma run_while_held key ops s :
  held key s = true →
  forallb (λ o, negb (touches_lock_of key o)) ops = true →
  (run key ops s).1 = replicate (length (filter (λ o, is_acquire_of key o = true) ops)) false
  ∧ held key (run key ops s).2 = true.
Proof.
  revert s. induction ops as [|o ops IH]; intros s Hh Hall; [done|].
  simpl in Hall. apply andb_true_iff in Hall as [Ho Hall].
  destruct o as [k|k| |t]; simpl in Ho; try done.
  - cbn [run exec]. destruct (acquire k s) as [b s1] eqn:Ha.
    assert (Hh1 : held key s1 = true).
    { pose proof (acquire_keeps_held key k s Hh) as H1. by rewrite Ha in H1. }
    destruct (IH s1 Hh1 Hall) as [IH1 IH2].
    destruct (run key ops s1) as [rs s2] eqn:Hr. simpl in *.
    destruct (decide (k = key)) as [->|Hne].
    + rewrite (acquire_held key s Hh) in Ha. injection Ha as <- <-.
      rewrite filter_cons_True by (simpl; by apply bool_decide_eq_true).
      rewrite bool_decide_eq_true_2 by done. simpl. by rewrite IH1.
    + rewrite filter_cons_False
        by (simpl; rewrite bool_decide_eq_false_2 by done; done).
      rewrite bool_decide_eq_false_2 by done. done.
  - cbn [run exec].
    apply negb_true_iff, bool_decide_eq_false in Ho.
    assert (Hh1 : held key (release k s) = true).
    { apply held_true. rewrite release_other by done. by apply held_true. }
    destruct (IH _ Hh1 Hall) as [IH1 IH2].
    destruct (run key ops (release k s)) as [rs s2] eqn:Hr. simpl in *.
    rewrite filter_cons_False by (simpl; done). done.
Qed.

End LockFacts.

(** C7.  [acquire key] answers [false] and changes nothing when [key] is
    held; otherwise it records [key] and answers [true].  Hence, from a
    state where [key] is free, in any run of calls to [acquire] (of any
    key) and of [release] of other keys, with no timer and no sweep in
    between, the first [acquire key] answers [true] and every later one
    [false].  [release] is idempotent, and releasing a key that is not held
    changes nothing. *)
Theorem lock_exclusivity (key : string) (s : RequestLock.Loop) :
  (RequestLock.held key s = true → RequestLock.acquire key s = (false, s)) ∧
  (RequestLock.held key s = false →
     ∃ s', RequestLock.acquire key s = (true, s') ∧
           RequestLock.locks s' !! key =
             Some {| RequestLock.timestamp := RequestLock.clock s;
                     RequestLock.timer := RequestLock.next_timer s |} ∧
           ∀ ops,
             forallb (λ o, negb (RequestLock.touches_lock_of key o)) ops = true →
             (RequestLock.run key (RequestLock.OAcquire key :: ops) s).1 =
               true :: replicate
                         (length (filter (λ o, RequestLock.is_acquire_of key o = true) ops))
                         false) ∧
  RequestLock.release key (RequestLock.release key s) = RequestLock.release key s ∧
  (RequestLock.held key s = false → RequestLock.release key s = s).
Proof.
  split; [apply acquire_held|]. split; [|split; [apply release_idempotent | apply release_unheld]].
  intros Hf. destruct (acquire_free key s Hf) as (s' & Ha & Hl).
  exists s'. split; [done|]. split; [rewrite Hl; apply lookup_insert_eq|].
  intros ops Hall. cbn [RequestLock.run RequestLock.exec]. rewrite Ha.
  assert (Hh : RequestLock.held key s' = true).
  { apply held_true. rewrite Hl, lookup_insert_eq. eauto. }
  destruct (run_while_held key ops s' Hh Hall) as [H1 _].
  destruct (RequestLock.run key ops s') as [rs s2]. simpl in *.
  rewrite bool_decide_eq_true_2 by done. by rewrite H1.
Qed.

Lemma lock_exclusivity_witness :
  RequestLock.held "alice" (RequestLock.create 0) = false ∧
  (RequestLock.run "alice"
     [RequestLock.OAcquire "alice"; RequestLock.OAcquire "bob";
      RequestLock.OAcquire "alice"; RequestLock.ORelease "bob";
      RequestLock.OAcquire "alice"] (RequestLock.create 0)).1 = [true; false; false].
Proof.
  split; [vm_compute; reflexivity|].
  destruct (lock_exclusivity "alice" (RequestLock.create 0)) as (_ & H & _).
  destruct H as (s' & _ & _ & Hrun); [vm_compute; reflexivity|].
  apply (Hrun [RequestLock.OAcquire "bob"; RequestLock.OAcquire "alice";
               RequestLock.ORelease "bob"; RequestLock.OAcquire "alice"]).
  vm_compute; reflexivity.
Defined.

(** ** The lock and the timers: what every reachable state satisfies *)

Section LockInvariant.
Import RequestLock.
Implicit Types (s : Loop) (key k : string).

Lemma wf_create t0 : wf (create t0).
Proof. split; simpl; try done; intros ? ?; rewrite lookup_empty; done. Qed.

Lemma wf_acquire k s : wf s → wf (acquire k s).2.
Proof.
  intros [Ht Ha Ho Hf Hd]. unfold acquire.
  destruct (held k s) eqn:Hk; simpl; [by split|].
  apply held_false in Hk.
  assert (Hnew : timers s !! next_timer s = None).
  { destruct (timers s !! next_timer s) eqn:E; [|done].
    apply Hf in E. lia. }
  split; simpl; [done| | | |].
  - intros k' li. rewrite lookup_insert. case_decide as Hkk.
    + intros [= <-]. subst k'. simpl. by rewrite lookup_insert_eq.
    + intros Hl. pose proof (Ha _ _ Hl) as Hal.
      rewrite lookup_insert_ne; [done|]. intros Heq. rewrite Heq in Hnew. congruence.
  - intros i p. rewrite lookup_insert. case_decide as Hi.
    + intros [= <-]. simpl. rewrite lookup_insert_eq. eauto.
    + intros Hp. destruct (Ho _ _ Hp) as (li & Hl & Hti).
      exists li. split; [|done]. rewrite lookup_insert_ne; [done|].
      intros Heq. rewrite <- Heq in Hl. congruence.
  - intros i p. rewrite lookup_insert. case_decide as Hi.
    + intros _. lia.
    + intros Hp. apply Hf in Hp. lia.
  - intros i p. rewrite lookup_insert. case_decide as Hi.
    + intros [= <-]. simpl. lia.
    + apply Hd.
Qed.

Lemma wf_release k s : wf s → wf (release k s).
Proof.
  intros [Ht Ha Ho Hf Hd]. unfold release.
  destruct (locks s !! k) as [li0|] eqn:Hk; [|by split].
  split; simpl; [done| | | |].
  - intros k' li. rewrite lookup_delete. case_decide as Hkk; [done|].
    intros Hl. pose proof (Ha _ _ Hl) as Hal.
    rewrite lookup_delete_ne; [done|].
    intros Heq. pose proof (Ha _ _ Hk) as Hak. rewrite Heq in Hak.
    rewrite Hal in Hak. congruence.
  - intros i p. rewrite lookup_delete. case_decide as Hi; [done|].
    intros Hp. destruct (Ho _ _ Hp) as (li & Hl & Hti).
    exists li. split; [|done]. rewrite lookup_delete_ne; [done|].
    intros Heq. rewrite <- Heq in Hl. congruence.
  - intros i p. rewrite lookup_delete. case_decide; [done|]. apply Hf.
  - intros i p. rewrite lookup_delete. case_decide; [done|]. apply Hd.
Qed.

Lemma wf_cleanup s : wf s → wf (cleanup s).
Proof.
  intros Hw. unfold cleanup. induction (expired_keys s) as [|k l IH]; simpl; [done|].
  by apply wf_release.
Qed.

(** With the invariant, a timer that runs does what [release] does. *)
Lemma fire_release i p s :
  wf s → timers s !! i = Some p → fire i s = release (target p) s.
Proof.
  intros Hw Hp. unfold fire. rewrite Hp. unfold release. simpl.
  destruct (wf_owner s Hw _ _ Hp) as (li & Hl & Hti). rewrite Hl. subst i.
  f_equal. apply map_eq. intros j. rewrite !lookup_delete.
  repeat case_decide; done.
Qed.

Lemma wf_fire i s : wf s → wf (fire i s).
Proof.
  intros Hw. destruct (timers s !! i) as [p|] eqn:Hp.
  - rewrite (fire_release i p s Hw Hp). by apply wf_release.
  - unfold fire. by rewrite Hp.
Qed.

(** Releasing only removes: an entry or a timer present afterwards was
    there before, and nothing else changes. *)
Lemma release_shrinks k s :
  (∀ k' li, locks (release k s) !! k' = Some li → locks s !! k' = Some li) ∧
  (∀ i p, timers (release k s) !! i = Some p → timers s !! i = Some p) ∧
  clock (release k s) = clock s ∧ timeout (release k s) = timeout s.
Proof.
  unfold release. destruct (locks s !! k) as [li0|]; simpl; [|done].
  split; [|split; [|done]].
  - intros k' li. rewrite lookup_delete. by case_decide.
  - intros i p. rewrite lookup_delete. by case_decide.
Qed.

Lemma fire_shrinks i s :
  (∀ k' li, locks (fire i s) !! k' = Some li → locks s !! k' = Some li) ∧
  (∀ j p, timers (fire i s) !! j = Some p → timers s !! j = Some p) ∧
  clock (fire i s) = clock s ∧ timeout (fire i s) = timeout s ∧
  timers (fire i s) !! i = None.
Proof.
  unfold fire. destruct (timers s !! i) as [p|] eqn:Hp; [|done].
  match goal with |- context [release _ ?x] => set (s1 := x) end.
  destruct (release_shrinks (target p) s1) as (Hl & Ht & Hc & Hto).
  split; [exact Hl|]. split; [|split; [exact Hc|split; [exact Hto|]]].
  - intros j q Hq. apply Ht in Hq. simpl in Hq.
    rewrite lookup_delete in Hq. by case_decide.
  - destruct (timers (release (target p) s1) !! i) as [q|] eqn:Hq; [|done].
    apply Ht in Hq. simpl in Hq. by rewrite lookup_delete_eq in Hq.
Qed.

Lemma fire_all l s :
  wf s →
  let s' := foldl (λ acc i, fire i acc) s l in
  wf s' ∧
  (∀ k' li, locks s' !! k' = Some li → locks s !! k' = Some li) ∧
  (∀ j p, timers s' !! j = Some p → timers s !! j = Some p) ∧
  clock s' = clock s ∧ timeout s' = timeout s ∧
  (∀ i, i ∈ l → timers s' !! i = None).
Proof.
  revert s. induction l as [|i l IH]; intros s Hw; simpl.
  { do 5 (split; [done|]). intros i Hi. by apply elem_of_nil in Hi. }
  destruct (IH (fire i s) (wf_fire i s Hw)) as (Hw' & Hl & Ht & Hc & Hto & Hgone).
  destruct (fire_shrinks i s) as (Hl1 & Ht1 & Hc1 & Hto1 & Hi1).
  split; [exact Hw'|].
  split; [intros k' li H0; by apply Hl1, Hl|].
  split; [intros j p H0; by apply Ht1, Ht|].
  split; [congruence|]. split; [congruence|].
  intros j Hj. apply elem_of_cons in Hj as [->|Hj]; [|by apply Hgone].
  destruct (timers (foldl (λ acc i0, fire i0 acc) (fire i s) l) !! i) as [q|] eqn:Hq; [|done].
  apply Ht in Hq. congruence.
Qed.

Lemma due_timers_spec t s i p :
  timers s !! i = Some p → due p ≤ t → i ∈ due_timers t s.
Proof.
  intros Hp Hd. unfold due_timers. apply list_elem_of_fmap.
  exists (i, p). split; [done|]. rewrite merge_sort_Permutation.
  apply elem_of_map_to_list. apply map_lookup_filter_Some. split; [done|].
  simpl. by apply Is_true_true_2, Z.leb_le.
Qed.

Lemma advance_spec t s :
  wf s →
  wf (advance t s) ∧
  (∀ k' li, locks (advance t s) !! k' = Some li → locks s !! k' = Some li) ∧
  clock (advance t s) = Z.max (clock s) t ∧
  timeout (advance t s) = timeout s.
Proof.
  intros Hw. unfold advance.
  destruct (fire_all (due_timers t s) s Hw) as (Hw' & Hl & Ht & Hc & Hto & Hgone).
  set (s' := foldl _ s _) in *.
  split; [|split; [exact Hl|split; simpl; congruence]].
  destruct Hw' as [H1 H2 H3 H4 H5]. split; simpl; try done.
  intros i p Hp. pose proof (H5 _ _ Hp) as Hfut.
  destruct (decide (due p ≤ t)) as [Hle|Hgt]; [|lia].
  pose proof (Ht _ _ Hp) as Hp0.
  pose proof (Hgone i (due_timers_spec t s i p Hp0 Hle)). congruence.
Qed.

Lemma wf_exec o s : wf s → wf (exec o s).2.
Proof.
  intros Hw. destruct o as [k|k| |t]; simpl.
  - pose proof (wf_acquire k s Hw). by destruct (acquire k s).
  - by apply wf_release.
  - by apply wf_cleanup.
  - by apply advance_spec.
Qed.

Lemma wf_run key ops s : wf s → wf (run key ops s).2.
Proof.
  revert s. induction ops as [|o ops IH]; intros s Hw; [done|].
  cbn [run]. pose proof (wf_exec o s Hw) as Hw1.
  destruct (exec o s) as [r s1]. simpl in Hw1.
  pose proof (IH s1 Hw1) as Hw2. by destruct (run key ops s1).
Qed.

(** An entry is never as old as the window. *)
Lemma wf_young s k li :
  wf s → locks s !! k = Some li → clock s - timestamp li < timeout s.
Proof.
  intros Hw Hl. pose proof (wf_armed s Hw _ _ Hl) as Ht.
  pose proof (wf_future s Hw _ _ Ht) as Hf. simpl in Hf. lia.
Qed.

Lemma cleanup_shrinks s :
  (∀ k' li, locks (cleanup s) !! k' = Some li → locks s !! k' = Some li) ∧
  clock (cleanup s) = clock s ∧ timeout (cleanup s) = timeout s.
Proof.
  unfold cleanup. induction (expired_keys s) as [|k l IH]; simpl; [done|].
  destruct IH as (IH1 & IH2 & IH3).
  destruct (release_shrinks k (foldr release s l)) as (H1 & _ & H2 & H3).
  split; [intros k' li H0; by apply IH1, H1|]. split; congruence.
Qed.

(** Without a successful [acquire key], the entry of [key] is the one
    it was, or it is gone; the clock does not go back and the window
    stays what it is. *)
Lemma run_no_reacquire key ops s :
  wf s →
  forallb (λ o, negb (is_acquire_of key o)) ops = true →
  let s' := (run key ops s).2 in
  (∀ li, locks s' !! key = Some li → locks s !! key = Some li) ∧
  clock s ≤ clock s' ∧ timeout s' = timeout s.
Proof.
  revert s. induction ops as [|o ops IH]; intros s Hw Hall; simpl; [done|].
  simpl in Hall. apply andb_true_iff in Hall as [Ho Hall].
  pose proof (wf_exec o s Hw) as Hw1.
  assert (Hstep : (∀ li, locks (exec o s).2 !! key = Some li → locks s !! key = Some li)
                  ∧ clock s ≤ clock (exec o s).2 ∧ timeout (exec o s).2 = timeout s).
  { destruct o as [k|k| |t]; cbn [exec snd].
    - simpl in Ho. apply negb_true_iff, bool_decide_eq_false in Ho.
      unfold acquire. destruct (held k s); simpl; [done|].
      split; [|split; [lia|done]]. intros li. by rewrite lookup_insert_ne.
    - destruct (release_shrinks k s) as (H1 & _ & H2 & H3).
      split; [apply H1|]. split; [lia|done].
    - destruct (cleanup_shrinks s) as (H1 & H2 & H3).
      split; [apply H1|]. split; [lia|done].
    - destruct (advance_spec t s Hw) as (_ & H1 & H2 & H3).
      split; [apply H1|]. split; [rewrite H2; lia|done]. }
  destruct (exec o s) as [r s1]. simpl in *.
  specialize (IH s1 Hw1 Hall). simpl in IH.
  destruct (run key ops s1) as [rs s2]. simpl in *.
  destruct Hstep as (S1 & S2 & S3). destruct IH as (I1 & I2 & I3).
  split; [intros li H0; by apply S1, I1|]. split; [lia|congruence].
Qed.

(** The sweep alone frees an entry older than the window, also in a
    state where its timer has been lost. *)
Lemma cleanup_sweeps k li s :
  locks s !! k = Some li → timeout s < clock s - timestamp li →
  locks (cleanup s) !! k = None.
Proof.
  intros Hl Hold. unfold cleanup.
  assert (Hk : k ∈ expired_keys s).
  { unfold expired_keys. apply list_elem_of_fmap. exists (k, li). split; [done|].
    apply elem_of_map_to_list, map_lookup_filter_Some. split; [done|].
    simpl. by apply Is_true_true_2, Z.ltb_lt. }
  induction (expired_keys s) as [|k' l IH]; [by apply elem_of_nil in Hk|].
  simpl. apply elem_of_cons in Hk as [<-|Hk].
  - apply held_false, release_frees.
  - destruct (decide (k' = k)) as [->|Hne]; [apply held_false, release_frees|].
    rewrite release_other by done. by apply IH.
Qed.

Lemma timeout_exec o s : timeout (exec o s).2 = timeout s.
Proof.
  destruct o as [k|k| |t]; cbn [exec snd].
  - unfold acquire. by destruct (held k s).
  - by destruct (release_shrinks k s) as (_ & _ & _ & ->).
  - by destruct (cleanup_shrinks s) as (_ & _ & ->).
  - unfold advance. simpl. generalize (due_timers t s). intros l. revert s.
    induction l as [|i l IHl]; intros s; simpl; [done|].
    rewrite IHl. by destruct (fire_shrinks i s) as (_ & _ & _ & -> & _).
Qed.

Lemma timeout_run key ops s : timeout (run key ops s).2 = timeout s.
Proof.
  revert s. induction ops as [|o ops IH]; intros s; [done|].
  cbn [run]. pose proof (timeout_exec o s) as H1.
  destruct (exec o s) as [r s1]. simpl in H1.
  specialize (IH s1). destruct (run key ops s1). simpl in *. congruence.
Qed.

End LockInvariant.

(** C8.  In every state the lock reaches from its creation (by calls to
    [acquire], [release] and [cleanup] and by the passing of time, the
    timers due at a time running before anything else is handled at that
    time) the window is 5000 ms and no entry is as old as the window.  And
    once [acquire key] has succeeded at time [clock s], whatever happens
    next short of another [acquire key] (in particular with no [release]
    at all), [acquire key] succeeds at any time [t] at or after the end of
    the window. *)
Theorem lock_auto_release (t0 : Z) (history : list RequestLock.Op) (key : string) :
  let s := (RequestLock.run key history (RequestLock.create t0)).2 in
  RequestLock.timeout s = 5000 ∧
  (∀ k li, RequestLock.locks s !! k = Some li →
     RequestLock.clock s - RequestLock.timestamp li < RequestLock.timeout s) ∧
  (∀ s1 ops t,
     RequestLock.acquire key s = (true, s1) →
     forallb (λ o, negb (RequestLock.is_acquire_of key o)) ops = true →
     RequestLock.clock s + RequestLock.timeout s ≤ t →
     (RequestLock.acquire key
        (RequestLock.advance t (RequestLock.run key ops s1).2)).1 = true).
Proof.
  intros s.
  assert (Hw : RequestLock.wf s) by apply wf_run, wf_create.
  assert (Hto : RequestLock.timeout s = 5000)
    by (subst s; by rewrite timeout_run).
  split; [done|]. split; [intros k li; by apply wf_young|].
  intros s1 ops t Hacq Hops Ht.
  assert (Hw1 : RequestLock.wf s1).
  { pose proof (wf_acquire key s Hw) as H. by rewrite Hacq in H. }
  assert (Hentry : RequestLock.locks s1 !! key =
                     Some {| RequestLock.timestamp := RequestLock.clock s;
                             RequestLock.timer := RequestLock.next_timer s |}
                   ∧ RequestLock.clock s1 = RequestLock.clock s
                   ∧ RequestLock.timeout s1 = RequestLock.timeout s).
  { unfold RequestLock.acquire in Hacq.
    destruct (RequestLock.held key s); [done|]. injection Hacq as <-.
    simpl. by rewrite lookup_insert_eq. }
  destruct Hentry as (He & Hc1 & Hto1).
  destruct (run_no_reacquire key ops s1 Hw1 Hops) as (Hsame & Hclk & Hto2).
  pose proof (wf_run key ops s1 Hw1) as Hw2.
  set (s2 := (RequestLock.run key ops s1).2) in *.
  destruct (advance_spec t s2 Hw2) as (Hw3 & Hsub & Hc3 & Hto3).
  set (s3 := RequestLock.advance t s2) in *.
  assert (Hfree : RequestLock.locks s3 !! key = None).
  { destruct (RequestLock.locks s3 !! key) as [li|] eqn:Hl; [|done].
    pose proof (wf_young s3 key li Hw3 Hl) as Hy.
    apply Hsub, Hsame in Hl. rewrite He in Hl. injection Hl as <-.
    cbn [RequestLock.timestamp] in Hy.
    rewrite Hc3, Hto3, Hto2, Hto1 in Hy. lia. }
  apply held_false in Hfree. unfold RequestLock.acquire. by rewrite Hfree.
Qed.

Lemma lock_auto_release_witness :
  RequestLock.acquire "alice" (RequestLock.create 0) =
    (true, (RequestLock.acquire "alice" (RequestLock.create 0)).2) ∧
  (RequestLock.acquire "alice"
     (RequestLock.advance 5000
        (RequestLock.run "alice" [RequestLock.OAcquire "bob"; RequestLock.OAdvance 3000;
                                  RequestLock.OCleanup]
           (RequestLock.acquire "alice" (RequestLock.create 0)).2).2)).1 = true.
Proof.
  split; [vm_compute; reflexivity|].
  destruct (lock_auto_release 0 [] "alice") as (_ & _ & H).
  apply (H _ [RequestLock.OAcquire "bob"; RequestLock.OAdvance 3000; RequestLock.OCleanup] 5000);
    [vm_compute; reflexivity | vm_compute; reflexivity | vm_compute; congruence].
Defined.

(** The scenario of the specification: the first [acquire] succeeds, the
    second is refused, a [release] makes the third succeed; and with no
    [release] at all the key is free again 5 s later. *)
Example lock_scenario :
  let s0 := RequestLock.create 0 in
  let '(b1, s1) := RequestLock.acquire "alice" s0 in
  let '(b2, s2) := RequestLock.acquire "alice" s1 in
  let '(b3, s3) := RequestLock.acquire "alice" (RequestLock.release "alice" s2) in
  let '(b4, s4) := RequestLock.acquire "alice" (RequestLock.advance 5000 s3) in
  (b1, b2, b3, b4) = (true, false, true, true).
Proof. vm_compute. reflexivity. Qed.

(** ** The refresh-token store *)

Section StoreFacts.
Context `{Bcrypt}.

Lemma keeps_ret {A} (a : A) : keeps_one_row (ret a).
Proof. by intros w. Qed.

Lemma keeps_throw {A} e : keeps_one_row (@throw A e).
Proof. by intros w. Qed.

Lemma keeps_get {A} (f : World → A) : keeps_one_row (get f).
Proof. by intros w. Qed.

Lemma keeps_storage_call : keeps_one_row storage_call.
Proof. intros w Hw. unfold storage_call. destruct (faults w) as [|[] ?]; done. Qed.

Lemma keeps_fresh_salt : keeps_one_row fresh_salt.
Proof. by intros w. Qed.

Lemma keeps_bind {A B} (m : M A) (k : A → M B) :
  keeps_one_row m → (∀ a, keeps_one_row (k a)) → keeps_one_row (bind m k).
Proof.
  intros Hm Hk w Hw. unfold bind. specialize (Hm w Hw).
  destruct (m w) as [[a|e] w1]; simpl in *; [by apply Hk | done].
Qed.

Lemma keeps_try_catch {A} (m : M A) (h : Exn → M A) :
  keeps_one_row m → (∀ e, keeps_one_row (h e)) → keeps_one_row (try_catch m h).
Proof.
  intros Hm Hh w Hw. unfold try_catch. specialize (Hm w Hw).
  destruct (m w) as [[a|e] w1]; simpl in *; [done | by apply Hh].
Qed.

Lemma filter_filter_length (P Q : Row → Prop)
    `{∀ r, Decision (P r)} `{∀ r, Decision (Q r)} (rs : list Row) :
  (length (filter Q (filter P rs)) ≤ length (filter Q rs))%nat.
Proof.
  induction rs as [|r rs IH]; [done|].
  rewrite (filter_cons P). destruct (decide (P r)).
  - rewrite !(filter_cons Q). destruct (decide (Q r)); simpl; lia.
  - rewrite (filter_cons Q). destruct (decide (Q r)); simpl; lia.
Qed.

Lemma one_row_filter (P : Row → Prop) `{∀ r, Decision (P r)} rs :
  one_row_per_user rs → one_row_per_user (filter P rs).
Proof.
  intros Hrs u. specialize (Hrs u).
  pose proof (filter_filter_length P (λ r, user_id r = u) rs). lia.
Qed.

Lemma keeps_delete_where drop : keeps_one_row (Token.delete_where drop).
Proof. intros w Hw. simpl. by apply one_row_filter. Qed.

(** The rows of [u] are gone after the delete that [save] starts with. *)
Lemma filter_user_deleted u rs :
  filter (λ r, user_id r = u) (filter (λ r, negb (user_id r =? u)) rs) = [].
Proof.
  induction rs as [|r rs IH]; [done|].
  rewrite (filter_cons (λ r, negb (user_id r =? u))).
  destruct (decide _) as [Hd|Hd]; [|done].
  rewrite filter_cons. destruct (decide (user_id r = u)) as [Heq|]; [|done].
  rewrite Heq, Z.eqb_refl in Hd. done.
Qed.

Lemma one_row_replace u rs r :
  one_row_per_user rs → user_id r = u →
  one_row_per_user (filter (λ r, negb (user_id r =? u)) rs ++ [r]).
Proof.
  intros Hrs Hr u'. rewrite filter_app, length_app.
  destruct (decide (u' = u)) as [->|Hne].
  - rewrite filter_user_deleted. rewrite filter_cons, decide_True by done. simpl. lia.
  - rewrite (filter_cons _ r), decide_False by congruence. simpl.
    pose proof (one_row_filter (λ r, negb (user_id r =? u)) rs Hrs u'). lia.
Qed.

Lemma keeps_Token_save u h e : keeps_one_row (Token.saveRefreshToken u h e).
Proof.
  intros w Hw. unfold Token.saveRefreshToken, Token.deleteRefreshToken.
  unfold try_catch, bind, throw, ret.
  destruct (u =? 0) eqn:Hu; [done|].
  destruct h as [h|]; [|done]. destruct e as [e|]; [|done].
  unfold storage_call. destruct w as [rs nid us fs t sl cf]. simpl in *.
  destruct fs as [|[] fs]; simpl; try done.
  - by apply one_row_replace.
  - destruct fs as [|[] fs]; simpl;
      [by apply one_row_replace | by apply one_row_filter | by apply one_row_replace].
Qed.

End StoreFacts.

(** Goes through a computation built from the steps above. *)
Ltac keeps_step :=
  first
    [ apply keeps_ret | apply keeps_throw | apply keeps_get
    | apply keeps_storage_call | apply keeps_fresh_salt
    | apply keeps_delete_where | apply keeps_Token_save
    | apply keeps_bind; [|intros ?]
    | apply keeps_try_catch; [|intros ?]
    | match goal with
      | |- keeps_one_row (match ?x with _ => _ end) => destruct x
      | |- keeps_one_row (if ?b then _ else _) => destruct b
      end ].

Ltac keeps := repeat keeps_step.

Section StoreOperations.
Context `{Bcrypt}.

Lemma keeps_deleteRefreshToken u : keeps_one_row (Token.deleteRefreshToken u).
Proof. unfold Token.deleteRefreshToken. keeps. Qed.

Lemma keeps_findRefreshToken tok : keeps_one_row (Token.findRefreshToken tok).
Proof. unfold Token.findRefreshToken. keeps. Qed.

Lemma keeps_deleteRefreshTokenByToken tok :
  keeps_one_row (Token.deleteRefreshTokenByToken tok).
Proof.
  unfold Token.deleteRefreshTokenByToken.
  apply keeps_try_catch; [|intros; keeps].
  apply keeps_bind; [apply keeps_findRefreshToken|]. intros ?. keeps.
Qed.

Lemma keeps_deleteExpiredTokens : keeps_one_row Token.deleteExpiredTokens.
Proof. unfold Token.deleteExpiredTokens. keeps. Qed.

Lemma keeps_sign c k ttl : keeps_one_row (jwt.sign c k ttl).
Proof. unfold jwt.sign. keeps. Qed.

Lemma keeps_verify tok k : keeps_one_row (jwt.verify tok k).
Proof. unfold jwt.verify. keeps. Qed.

Lemma keeps_util_save u tok : keeps_one_row (tokenUtil.saveRefreshToken u tok).
Proof. unfold tokenUtil.saveRefreshToken. keeps. Qed.

Lemma keeps_verifyRefreshToken tok : keeps_one_row (tokenUtil.verifyRefreshToken tok).
Proof.
  unfold tokenUtil.verifyRefreshToken.
  apply keeps_try_catch; [|intros; keeps].
  apply keeps_bind; [keeps|]. intros cfg.
  apply keeps_bind; [apply keeps_verify|]. intros d.
  apply keeps_bind; [apply keeps_findRefreshToken|]. intros [r|]; [|keeps].
  apply keeps_bind; [keeps|]. intros t. destruct (expires_at r <? t); [|keeps].
  apply keeps_bind; [apply keeps_deleteRefreshTokenByToken|]. intros; keeps.
Qed.

Lemma keeps_findByUserid u : keeps_one_row (User.findByUserid u).
Proof. unfold User.findByUserid. keeps. Qed.

Lemma keeps_authenticate u p : keeps_one_row (User.authenticate u p).
Proof.
  unfold User.authenticate.
  apply keeps_try_catch; [|intros; keeps].
  apply keeps_bind; [apply keeps_findByUserid|]. intros ?. keeps.
Qed.

Lemma keeps_generateAccessToken c : keeps_one_row (tokenUtil.generateAccessToken c).
Proof.
  unfold tokenUtil.generateAccessToken.
  apply keeps_try_catch; [|intros; keeps].
  apply keeps_bind; [keeps|]. intros ?. apply keeps_sign.
Qed.

Lemma keeps_generateRefreshToken c : keeps_one_row (tokenUtil.generateRefreshToken c).
Proof.
  unfold tokenUtil.generateRefreshToken.
  apply keeps_try_catch; [|intros; keeps].
  apply keeps_bind; [keeps|]. intros ?. apply keeps_sign.
Qed.

Lemma keeps_setTokenCookies res a r b :
  keeps_one_row (tokenUtil.setTokenCookies res a r b).
Proof. unfold tokenUtil.setTokenCookies. keeps. Qed.

Lemma keeps_refreshToken req : keeps_one_row (authController.refreshToken req).
Proof.
  unfold authController.refreshToken.
  apply keeps_try_catch; [|intros; keeps].
  destruct (tokenUtil.if_truthy _) as [tok|]; [|keeps].
  apply keeps_bind; [apply keeps_verifyRefreshToken|]. intros [d|]; [|keeps].
  apply keeps_bind; [apply keeps_findByUserid|]. intros [u|]; [|keeps].
  apply keeps_bind; [apply keeps_generateAccessToken|]. intros ?. keeps.
Qed.

Lemma keeps_logout req : keeps_one_row (authController.logout req).
Proof.
  unfold authController.logout.
  apply keeps_try_catch; [|intros; keeps].
  apply keeps_bind; [|intros; keeps].
  destruct (tokenUtil.if_truthy _) as [tok|].
  - apply keeps_bind; [apply keeps_deleteRefreshTokenByToken|]. intros; keeps.
  - destruct (user req ≫= _) as [u|]; [|keeps].
    destruct (u =? 0); [keeps|].
    apply keeps_bind; [apply keeps_deleteRefreshToken|]. intros; keeps.
Qed.

Lemma keeps_post_logout req : keeps_one_row (authRoutes.post_logout req).
Proof.
  unfold authRoutes.post_logout.
  apply keeps_bind; [|intros; apply keeps_logout].
  unfold authRoutes.optional_user.
  destruct (tokenUtil.bearer_token _) as [tok|]; [|keeps].
  apply keeps_try_catch; [|intros; keeps].
  apply keeps_bind; [keeps|]. intros cfg.
  apply keeps_bind; [apply keeps_verify|]. intros; keeps.
Qed.

Lemma keeps_login req : keeps_one_row (userController.login req).
Proof.
  unfold userController.login.
  apply keeps_try_catch; [|intros; keeps].
  destruct (body req) as [b|]; [|keeps].
  destruct (_ || _); [keeps|].
  destruct (negb _); [keeps|]. destruct (negb _); [keeps|].
  apply keeps_bind; [apply keeps_authenticate|]. intros [u|]; [|keeps].
  destruct (userindex u) as [index|]; [|keeps].
  apply keeps_bind; [apply keeps_generateAccessToken|]. intros a.
  apply keeps_bind; [apply keeps_generateRefreshToken|]. intros r.
  apply keeps_bind; [|intros [?|?]; keeps].
  apply keeps_try_catch; [|intros; keeps].
  apply keeps_bind; [apply keeps_util_save|]. intros _.
  apply keeps_bind; [apply keeps_setTokenCookies|]. intros; keeps.
Qed.

End StoreOperations.

Section TwoLogins.
Context `{Bcrypt}.

(** When storage answers, [saveRefreshToken] deletes the rows of the
    user and appends the new one. *)
Lemma util_save_ok userId tok w :
  userId ≠ 0 → faults w = [] →
  tokenUtil.saveRefreshToken userId tok w =
    (let row := {| id := next_id w; user_id := userId;
                   token := bcrypt_hash tok (salts w);
                   expires_at := now w + 7 * 24 * 60 * 60 * 1000 |} in
     (Ok row,
      {| rows := filter (λ r, negb (user_id r =? userId)) (rows w) ++ [row];
         next_id := next_id w + 1; users := users w; faults := [];
         now := now w; salts := salts w + 1; env := env w |})).
Proof.
  intros Hu Hf. apply Z.eqb_neq in Hu.
  destruct w as [rs nid us fs t sl cf]. simpl in Hf. subst fs.
  unfold tokenUtil.saveRefreshToken, Token.saveRefreshToken,
    Token.deleteRefreshToken, try_catch, bind. simpl. rewrite Hu. simpl.
  reflexivity.
Qed.

Lemma find_none {A} (p : A → bool) l :
  (∀ x, x ∈ l → p x = false) → List.find p l = None.
Proof.
  induction l as [|x l IH]; intros Hl; [done|]. simpl.
  rewrite (Hl x) by apply list_elem_of_here.
  apply IH. intros y Hy. apply Hl. by apply list_elem_of_further.
Qed.

Lemma find_last {A} (p : A → bool) l x :
  (∀ y, y ∈ l → p y = false) → p x = true → List.find p (l ++ [x]) = Some x.
Proof.
  induction l as [|y l IH]; intros Hl Hx; simpl; [by rewrite Hx|].
  rewrite (Hl y) by apply list_elem_of_here.
  apply IH; [|done]. intros z Hz. apply Hl. by apply list_elem_of_further.
Qed.

Lemma find_ok tok w :
  faults w = [] →
  Token.findRefreshToken tok w =
    (Ok (List.find (λ row, bcrypt_compare tok (token row)) (rows w)), w).
Proof.
  intros Hf. unfold Token.findRefreshToken, try_catch, bind, storage_call.
  rewrite Hf. reflexivity.
Qed.

Lemma bcrypt_compare_hash tok salt : bcrypt_compare tok (bcrypt_hash tok salt) = true.
Proof. unfold bcrypt_compare, bcrypt_hash. simpl. apply Z.eqb_refl. Qed.

Lemma other_users_rows userId (rs : list Row) r :
  r ∈ filter (λ r, negb (user_id r =? userId)) rs → r ∈ rs ∧ user_id r ≠ userId.
Proof.
  intros Hr. apply list_elem_of_filter in Hr as [Hn Hr]. split; [done|].
  intros Heq. rewrite Heq, Z.eqb_refl in Hn. done.
Qed.

End TwoLogins.

Section TokenHead.

Import encoding.

(** Whole groups of three bytes are encoded on their own. *)
Lemma base64url_groups k l1 l2 :
  length l1 = (3 * k)%nat →
  base64url (l1 ++ l2) = base64url l1 ++ base64url l2
  ∧ length (base64url l1) = (4 * k)%nat.
Proof.
  revert l1. induction k as [|k IH]; intros l1 Hl.
  - destruct l1; [done | simpl in Hl; lia].
  - destruct l1 as [|a [|b [|c l1]]]; simpl in Hl; try lia.
    destruct (IH l1) as [E L]; [lia|].
    change ((a :: b :: c :: l1) ++ l2) with (a :: b :: c :: (l1 ++ l2)).
    cbn [base64url]. rewrite E. split; [done|].
    cbn [length]. rewrite L. lia.
Qed.

(** The payload up to the value of [iat] fills 27 bytes and more. *)
Lemma payload_head_length c :
  (27 ≤ length ("{"%char :: members c ++ key "iat"))%nat.
Proof.
  unfold members, key, json_string. cbn [length].
  repeat rewrite ?length_app, ?length_cons. cbn [length list_ascii_of_string].
  lia.
Qed.

(** What bcrypt reads of a token: the header, the dot and 35 characters
    that encode the start of the payload.  Neither the key nor [iat] nor
    [exp] reaches into it. *)
Lemma bcrypt_input_signed key' c iat exp :
  bcrypt_input (Signed key' c iat exp)
  = base64url header_json
      ++ "."%char :: take 35 (base64url (take 27 ("{"%char :: members c ++ key "iat"))).
Proof.
  unfold bcrypt_input, signing_input.
  rewrite take_app_ge by (vm_compute; lia).
  f_equal. change (72 - length (base64url header_json))%nat with 36%nat.
  cbn [take]. f_equal.
  unfold payload_json.
  set (hd := "{"%char :: members c ++ key "iat").
  set (tl := json_number iat ++ ","%char :: key "exp" ++ json_number exp ++ ["}"%char]).
  replace ("{"%char :: members c ++ key "iat" ++ tl) with (hd ++ tl)
    by (subst hd; cbn [app]; by rewrite <- app_assoc).
  pose proof (payload_head_length c) as Hlen. fold hd in Hlen.
  rewrite <- (take_drop 27 hd) at 1. rewrite <- app_assoc.
  destruct (base64url_groups 9 (take 27 hd) (drop 27 hd ++ tl)) as [-> L].
  { rewrite length_take. lia. }
  rewrite take_app_le by lia. done.
Qed.

(** Two tokens signed for the same claims are the same to bcrypt,
    whatever their keys, issue times and expiry times. *)
Lemma bcrypt_input_same_claims keyA keyB c iatA expA iatB expB :
  bcrypt_input (Signed keyA c iatA expA) = bcrypt_input (Signed keyB c iatB expB).
Proof. by rewrite !bcrypt_input_signed. Qed.

End TokenHead.

(** C1.  Two saves for the same user (the second at any time [t]) leave
    exactly one row of that user, the one of the second save.  But when
    the two tokens were signed for the same claims, as the refresh tokens
    of two logins of one account are, the first token is still found:
    bcrypt reads the first 72 bytes of a token, and these are the same for
    both, so the first token matches the row of the second.  It is that
    row [findRefreshToken] returns for either token when no row of another
    user matches. *)
Theorem stale_token_still_found `{Bcrypt} (w : World) (userId : Z) (claims : Claims)
    (keyA keyB : string) (iatA expA iatB expB t : Z) :
  userId ≠ 0 → faults w = [] →
  let tokA := Signed keyA claims iatA expA in
  let tokB := Signed keyB claims iatB expB in
  let w1 := (tokenUtil.saveRefreshToken userId tokA w).2 in
  ∃ row w2,
    tokenUtil.saveRefreshToken userId tokB (at_time t w1) = (Ok row, w2) ∧
    filter (λ r, user_id r = userId) (rows w2) = [row] ∧
    token row = bcrypt_hash tokB (salts w1) ∧
    bcrypt_compare tokA (token row) = true ∧
    (∃ found, (Token.findRefreshToken tokA w2).1 = Ok (Some found) ∧ found ∈ rows w2) ∧
    ((∀ r, r ∈ rows w → user_id r ≠ userId → bcrypt_compare tokA (token r) = false) →
     (Token.findRefreshToken tokA w2).1 = Ok (Some row) ∧
     (Token.findRefreshToken tokB w2).1 = Ok (Some row)).
Proof.
  intros Hu Hf tokA tokB w1. subst w1.
  rewrite (util_save_ok userId tokA w Hu Hf). cbn [snd].
  match goal with |- context [at_time t ?x] => set (w1 := x) end.
  rewrite (util_save_ok userId tokB (at_time t w1) Hu eq_refl).
  set (row := {| id := next_id (at_time t w1) |}).
  eexists row, _. split; [reflexivity|]. cbn [rows].
  assert (Hsame : ∀ h, bcrypt_compare tokA h = bcrypt_compare tokB h).
  { intros h. unfold bcrypt_compare. subst tokA tokB.
    by rewrite (bcrypt_input_same_claims keyA keyB claims iatA expA iatB expB). }
  assert (Hrow : bcrypt_compare tokA (token row) = true).
  { rewrite Hsame. apply bcrypt_compare_hash. }
  split.
  { rewrite filter_app, filter_user_deleted. simpl.
    rewrite filter_cons, decide_True by done. done. }
  split; [done|]. split; [exact Hrow|].
  rewrite !find_ok by done. cbn [fst rows]. split.
  - destruct (List.find (λ r, bcrypt_compare tokA (token r))
                (filter (λ r, negb (user_id r =? userId)) (rows (at_time t w1)) ++ [row]))
      as [found|] eqn:Hfind.
    + exists found. split; [done|]. apply find_some in Hfind as [Hin _].
      by apply list_elem_of_In.
    + exfalso.
      assert (Hno : bcrypt_compare tokA (token row) = false).
      { apply (List.find_none _ _ Hfind row). apply in_or_app. right. by left. }
      congruence.
  - intros Hothers.
    assert (Hrest : ∀ r, r ∈ filter (λ r, negb (user_id r =? userId)) (rows (at_time t w1)) →
              bcrypt_compare tokA (token r) = false).
    { intros r Hr. apply other_users_rows in Hr as [Hr Hne].
      simpl in Hr. apply elem_of_app in Hr as [Hr|Hr].
      - apply other_users_rows in Hr as [Hr _]. by apply Hothers.
      - apply list_elem_of_singleton in Hr. subst r. simpl in Hne. done. }
    split; f_equal.
    + apply find_last; [exact Hrest | exact Hrow].
    + apply find_last; [|apply bcrypt_compare_hash].
      intros r Hr. rewrite <- Hsame. by apply Hrest.
Qed.

Lemma stale_token_still_found_witness :
  let w := {| rows := [{| id := 1; user_id := 2;
                          token := {| h_salt := 0; h_digest := 0 |};
                          expires_at := 900000 |}];
              next_id := 2; users := []; faults := []; now := 1000000;
              salts := 5; env := default_config "a" "r" |} in
  let claims := {| c_id := Some 1; c_userid := "alice"; c_name := "Alice";
                   c_rememberMe := Some false |} in
  let tokA := Signed "r" claims 1000 605800 in
  let tokB := Signed "r" claims 2000 606800 in
  let w2 := (@tokenUtil.saveRefreshToken sample_bcrypt 1 tokB
               (at_time 2000000 (@tokenUtil.saveRefreshToken sample_bcrypt 1 tokA w).2)).2 in
  length (filter (λ r, user_id r = 1) (rows w2)) = 1%nat ∧
  ∃ row, (@Token.findRefreshToken sample_bcrypt tokA w2).1 = Ok (Some row) ∧
         user_id row = 1 ∧ token row = @bcrypt_hash sample_bcrypt tokB 6.
Proof.
  intros w claims tokA tokB w2.
  destruct (@stale_token_still_found sample_bcrypt w 1 claims "r" "r"
              1000 605800 2000 606800 2000000)
    as (row & w2' & Hsave & Hone & Htok & _ & _ & Hfind); [lia | reflexivity |].
  destruct Hfind as [HA _].
  { intros r Hr _. apply list_elem_of_singleton in Hr. subst r. vm_compute. done. }
  subst w2. fold tokA tokB in Hsave. rewrite Hsave. cbn [snd]. rewrite Hone.
  split; [done|]. exists row. split; [exact HA|]. split; [|exact Htok].
  assert (Hin : row ∈ filter (λ r, user_id r = 1) (rows w2')).
  { rewrite Hone. apply list_elem_of_here. }
  by apply list_elem_of_filter in Hin as [Hu _].
Defined.

(** Two logins of [alice], one second apart, through the handlers: one
    row is left, and the refresh token of the first login is still found
    and still refreshed. *)
Example two_logins_scenario :
  let w1 := Scenario.logged_in false in
  let w2 := (@userController.login sample_bcrypt (Scenario.login_request false)
               (at_time 1001000 w1)).2 in
  let first := Scenario.refresh_token false in
  let second := Signed "refresh-key"
                  {| c_id := Some 1; c_userid := "alice"; c_name := "Alice";
                     c_rememberMe := Some false |} 1001 605801 in
  length (rows w1) = 1%nat ∧ length (rows w2) = 1%nat ∧
  (@Token.findRefreshToken sample_bcrypt first w1).1 = Ok (hd_error (rows w1)) ∧
  (@Token.findRefreshToken sample_bcrypt second w2).1 = Ok (hd_error (rows w2)) ∧
  (@Token.findRefreshToken sample_bcrypt first w2).1 = Ok (hd_error (rows w2)) ∧
  match (@authController.refreshToken sample_bcrypt (Scenario.with_cookie first) w2).1 with
  | Ok res => status res = 200
  | Throw _ => False
  end.
Proof. vm_compute. repeat split; reflexivity. Qed.

(** ** The token codec and the access-token guard *)

Section CodecFacts.

Lemma verify_ok key c iat exp secret w :
  valid_signature (Signed key c iat exp) secret = true →
  token_expired (Signed key c iat exp) (now w) = false →
  jwt.verify (Signed key c iat exp) secret w =
    (Ok {| d_claims := c; d_iat := iat; d_exp := exp |}, w).
Proof.
  unfold valid_signature, token_expired, jwt.verify. intros Hs He.
  destruct (jwt.usable secret) as [k|]; [|done].
  rewrite Hs. simpl. unfold bind, get. by rewrite He.
Qed.

Lemma verify_expired tok secret w :
  valid_signature tok secret = true →
  token_expired tok (now w) = true →
  jwt.verify tok secret w = (Throw (JwtError TokenExpiredError), w).
Proof.
  unfold valid_signature, token_expired, jwt.verify. intros Hs He.
  destruct tok as [s|key c iat exp]; [done|].
  destruct (jwt.usable secret) as [k|]; [|done].
  rewrite Hs. simpl. unfold bind, get. by rewrite He.
Qed.

Lemma verify_invalid tok secret w :
  valid_signature tok secret = false →
  jwt.verify tok secret w = (Throw (JwtError JsonWebTokenError), w).
Proof.
  unfold valid_signature, jwt.verify. intros Hs.
  destruct tok as [s|key c iat exp]; [done|].
  destruct (jwt.usable secret) as [k|]; [|done]. by rewrite Hs.
Qed.

(** [jwt.verify] reads the clock and the key, and changes nothing. *)
Lemma verify_pure tok secret w : (jwt.verify tok secret w).2 = w.
Proof.
  unfold jwt.verify. destruct tok as [s|key c iat exp]; [done|].
  destruct (jwt.usable secret) as [k|]; [|done].
  destruct (negb _); [done|]. unfold bind, get. by destruct (_ <=? _).
Qed.

Lemma sign_ok c secret k ttl w :
  jwt.usable secret = Some k →
  jwt.sign c secret ttl w = (Ok (Signed k c (now w / 1000) (now w / 1000 + ttl)), w).
Proof. intros Hk. unfold jwt.sign. by rewrite Hk. Qed.

Lemma sign_inv c secret ttl w tok w' :
  jwt.sign c secret ttl w = (Ok tok, w') →
  w' = w ∧ ∃ k, jwt.usable secret = Some k ∧
                tok = Signed k c (now w / 1000) (now w / 1000 + ttl).
Proof.
  unfold jwt.sign. destruct (jwt.usable secret) as [k|]; [|done].
  intros [= <- <-]. eauto.
Qed.

End CodecFacts.

(** C4.  The access-token guard answers 401 without an [expired] flag when
    no token is presented, 401 with [expired: true] when the presented
    token carries a valid signature and its time has passed, and 403 for
    every other token that does not verify; these three answers differ
    from one another, and a token that verifies lets the request through
    with the decoded identity. *)
Theorem access_guard_failures (req : Request) (w : World) :
  (tokenUtil.if_truthy (tokenUtil.extractToken req AccessToken) = None →
     authMiddleware.verifyToken req w = (Ok (Responded refused_no_token), w)) ∧
  (∀ tok, tokenUtil.if_truthy (tokenUtil.extractToken req AccessToken) = Some tok →
     valid_signature tok (ACCESS_TOKEN_SECRET (env w)) = true →
     token_expired tok (now w) = true →
     authMiddleware.verifyToken req w = (Ok (Responded refused_expired), w)) ∧
  (∀ tok, tokenUtil.if_truthy (tokenUtil.extractToken req AccessToken) = Some tok →
     valid_signature tok (ACCESS_TOKEN_SECRET (env w)) = false →
     authMiddleware.verifyToken req w = (Ok (Responded refused_invalid), w)) ∧
  (∀ tok, tokenUtil.if_truthy (tokenUtil.extractToken req AccessToken) = Some tok →
     valid_signature tok (ACCESS_TOKEN_SECRET (env w)) = true →
     token_expired tok (now w) = false →
     ∃ d, authMiddleware.verifyToken req w = (Ok (Next (set_user d req)), w)) ∧
  (status refused_no_token = 401 ∧ expired (json refused_no_token) = None) ∧
  (status refused_expired = 401 ∧ expired (json refused_expired) = Some true) ∧
  (status refused_invalid = 403 ∧ expired (json refused_invalid) = None).
Proof.
  unfold authMiddleware.verifyToken.
  split; [by intros ->|].
  split.
  { intros tok -> Hs He. unfold try_catch, bind, get.
    by rewrite (verify_expired _ _ _ Hs He). }
  split.
  { intros tok -> Hs. unfold try_catch, bind, get.
    by rewrite (verify_invalid _ _ _ Hs). }
  split; [|done].
  intros tok -> Hs He. destruct tok as [s|key c iat exp]; [done|].
  eexists. unfold try_catch, bind, get.
  by rewrite (verify_ok _ _ _ _ _ _ Hs He).
Qed.

Lemma access_guard_failures_witness :
  let w := {| rows := []; next_id := 1; users := []; faults := []; now := 5000000;
              salts := 0; env := default_config "a" "r" |} in
  let c := {| c_id := Some 1; c_userid := "alice"; c_name := "Alice";
              c_rememberMe := Some false |} in
  authMiddleware.verifyToken
    {| authorization := None; body := None; cookies := None; user := None |} w
    = (Ok (Responded refused_no_token), w) ∧
  authMiddleware.verifyToken (bearer (Signed "a" c 1000 4600)) w
    = (Ok (Responded refused_expired), w) ∧
  authMiddleware.verifyToken (bearer (Signed "forged" c 1000 9000)) w
    = (Ok (Responded refused_invalid), w) ∧
  ∃ d, authMiddleware.verifyToken (bearer (Signed "a" c 4000 7600)) w
    = (Ok (Next (set_user d (bearer (Signed "a" c 4000 7600)))), w).
Proof.
  intros w c.
  pose (guard := λ req, access_guard_failures req w).
  split; [by apply (guard (mkRequest None None None None))|].
  split.
  { destruct (guard (bearer (Signed "a" c 1000 4600))) as (_ & Hexp & _).
    by apply (Hexp (Signed "a" c 1000 4600)). }
  split.
  { destruct (guard (bearer (Signed "forged" c 1000 9000))) as (_ & _ & Hinv & _).
    by apply (Hinv (Signed "forged" c 1000 9000)). }
  destruct (guard (bearer (Signed "a" c 4000 7600))) as (_ & _ & _ & Hok & _).
  by apply (Hok (Signed "a" c 4000 7600)).
Defined.

(** C9.  With the access secret configured, issuing an access token for
    any claims succeeds, and as long as the clock (in seconds) is before
    the issue time plus the configured lifetime, the guard accepts a
    request presenting that token and hands on exactly the claims that
    were signed, with the issue and expiry times next to them. *)
Theorem access_round_trip (claims : Claims) (w : World) (k : string) :
  jwt.usable (ACCESS_TOKEN_SECRET (env w)) = Some k →
  ∃ tok,
    tokenUtil.generateAccessToken claims w = (Ok tok, w) ∧
    ∀ req w',
      env w' = env w →
      now w' / 1000 < now w / 1000 + ACCESS_TOKEN_EXPIRES_IN (env w) →
      tokenUtil.if_truthy (tokenUtil.extractToken req AccessToken) = Some tok →
      ∃ d, jwt.verify tok (ACCESS_TOKEN_SECRET (env w')) w' = (Ok d, w') ∧
           d_claims d = claims ∧
           authMiddleware.verifyToken req w' = (Ok (Next (set_user d req)), w').
Proof.
  intros Hk. eexists. split.
  { unfold tokenUtil.generateAccessToken, try_catch, bind, get.
    by rewrite (sign_ok _ _ _ _ _ Hk). }
  intros req w' Henv Hnow Htok.
  assert (Hs : valid_signature (Signed k claims (now w / 1000)
                  (now w / 1000 + ACCESS_TOKEN_EXPIRES_IN (env w)))
                 (ACCESS_TOKEN_SECRET (env w')) = true).
  { unfold valid_signature. rewrite Henv, Hk. apply String.eqb_refl. }
  assert (He : token_expired (Signed k claims (now w / 1000)
                  (now w / 1000 + ACCESS_TOKEN_EXPIRES_IN (env w))) (now w') = false).
  { unfold token_expired. apply Z.leb_gt. lia. }
  eexists. split; [by apply verify_ok|]. split; [done|].
  unfold authMiddleware.verifyToken. rewrite Htok.
  unfold try_catch, bind, get. by rewrite (verify_ok _ _ _ _ _ _ Hs He).
Qed.

Lemma access_round_trip_witness :
  let w := {| rows := []; next_id := 1; users := []; faults := []; now := 1000000;
              salts := 0; env := default_config "a" "r" |} in
  let c := {| c_id := Some 1; c_userid := "alice"; c_name := "Alice";
              c_rememberMe := Some true |} in
  ∃ tok d,
    tokenUtil.generateAccessToken c w = (Ok tok, w) ∧
    authMiddleware.verifyToken (bearer tok) (at_time 4599999 w)
      = (Ok (Next (set_user d (bearer tok))), at_time 4599999 w) ∧
    d_claims d = c.
Proof.
  intros w c.
  destruct (access_round_trip c w "a") as (tok & Hgen & Hver); [reflexivity|].
  destruct (Hver (bearer tok) (at_time 4599999 w)) as (d & _ & Hd & Hguard).
  - reflexivity.
  - vm_compute. reflexivity.
  - vm_compute in Hgen. injection Hgen as <-. reflexivity.
  - exists tok, d. done.
Defined.

(** ** Refresh *)

Section RefreshFacts.
Context `{Bcrypt}.

Lemma storage_call_ok w : faults w = [] → storage_call w = (Ok (), w).
Proof. intros Hf. unfold storage_call. by rewrite Hf. Qed.

Lemma deleteByToken_ok tok w :
  faults w = [] →
  Token.deleteRefreshTokenByToken tok w =
    match List.find (λ row, bcrypt_compare tok (token row)) (rows w) with
    | Some record =>
        (Ok true, set_rows (filter (λ r, negb (id r =? id record))) w)
    | None => (Ok false, w)
    end.
Proof.
  intros Hf. unfold Token.deleteRefreshTokenByToken, try_catch, bind.
  rewrite (find_ok tok w Hf).
  destruct (List.find _ _) as [record|]; [|done].
  by rewrite (storage_call_ok w Hf).
Qed.

(** [verifyRefreshToken] catches everything. *)
Lemma verifyRefreshToken_total tok w :
  ∃ r w', tokenUtil.verifyRefreshToken tok w = (Ok r, w').
Proof.
  unfold tokenUtil.verifyRefreshToken, try_catch.
  destruct (bind _ _ w) as [[r|e] w']; eauto.
Qed.

(** The five ways [verifyRefreshToken] answers [null], and the only way
    it answers a payload. *)
Lemma verifyRefreshToken_result tok w :
  (tokenUtil.verifyRefreshToken tok w).1 =
    Ok (if negb (valid_signature tok (REFRESH_TOKEN_SECRET (env w))) then None
        else if token_expired tok (now w) then None
        else if next_call_fails w then None
        else match matching_row tok w with
             | None => None
             | Some row => if expires_at row <? now w then None else decode tok
             end).
Proof.
  unfold tokenUtil.verifyRefreshToken, matching_row.
  destruct (valid_signature tok _) eqn:Hs; simpl.
  2:{ unfold try_catch, bind, get. by rewrite (verify_invalid _ _ _ Hs). }
  destruct (token_expired tok (now w)) eqn:He.
  { unfold try_catch, bind, get. by rewrite (verify_expired _ _ _ Hs He). }
  destruct tok as [s|key c iat exp]; [done|].
  unfold try_catch, bind at 1 2, get.
  rewrite (verify_ok _ _ _ _ _ _ Hs He).
  unfold Token.findRefreshToken, try_catch, bind, get, storage_call, next_call_fails.
  destruct w as [rs nid us fs t sl cf]. simpl.
  destruct fs as [|[] fs]; simpl; [|done|].
  - destruct (List.find _ rs) as [row|]; [|done]. simpl.
    destruct (expires_at row <? t); [|done].
    by destruct (Token.deleteRefreshTokenByToken _ _) as [[?|?] ?].
  - destruct (List.find _ rs) as [row|]; [|done]. simpl.
    destruct (expires_at row <? t); [|done].
    by destruct (Token.deleteRefreshTokenByToken _ _) as [[?|?] ?].
Qed.

End RefreshFacts.

Ltac split_ifs :=
  repeat match goal with
         | |- context [if ?b then _ else _] => destruct b
         end.

(** C10.  [verifyRefreshToken] never throws, and it answers [null] for
    each of: a signature that does not verify, a token whose own expiry
    has passed, a storage error during the lookup, no matching row, and a
    matching row that has expired.  It answers a payload only when none of
    these holds.  For every such [null] the refresh endpoint gives the same
    401 response, so the causes cannot be told apart. *)
Theorem refresh_failures_collapse `{Bcrypt} (tok : Wire) (w : World) :
  (∃ r w', tokenUtil.verifyRefreshToken tok w = (Ok r, w')) ∧
  (valid_signature tok (REFRESH_TOKEN_SECRET (env w)) = false →
     (tokenUtil.verifyRefreshToken tok w).1 = Ok None) ∧
  (token_expired tok (now w) = true →
     (tokenUtil.verifyRefreshToken tok w).1 = Ok None) ∧
  (next_call_fails w = true →
     (tokenUtil.verifyRefreshToken tok w).1 = Ok None) ∧
  (matching_row tok w = None →
     (tokenUtil.verifyRefreshToken tok w).1 = Ok None) ∧
  (∀ row, matching_row tok w = Some row → expires_at row < now w →
     (tokenUtil.verifyRefreshToken tok w).1 = Ok None) ∧
  (∀ d, (tokenUtil.verifyRefreshToken tok w).1 = Ok (Some d) →
     valid_signature tok (REFRESH_TOKEN_SECRET (env w)) = true ∧
     token_expired tok (now w) = false ∧
     next_call_fails w = false ∧
     decode tok = Some d ∧
     ∃ row, matching_row tok w = Some row ∧ now w ≤ expires_at row) ∧
  (∀ req,
     tokenUtil.if_truthy (tokenUtil.extractToken req RefreshToken) = Some tok →
     (tokenUtil.verifyRefreshToken tok w).1 = Ok None →
     ∃ w', authController.refreshToken req w = (Ok refresh_rejected, w')).
Proof.
  pose proof (verifyRefreshToken_result tok w) as Hres.
  split; [apply verifyRefreshToken_total|].
  split; [intros Hs; rewrite Hres, Hs; done|].
  split; [intros He; rewrite Hres, He; by split_ifs|].
  split; [intros Hf; rewrite Hres, Hf; by split_ifs|].
  split; [intros Hm; rewrite Hres, Hm; by split_ifs|].
  split.
  { intros row Hm Hexp. rewrite Hres, Hm. apply Z.ltb_lt in Hexp. rewrite Hexp.
    by split_ifs. }
  split.
  { intros d. rewrite Hres.
    destruct (valid_signature _ _); simpl; [|done].
    destruct (token_expired _ _); [done|].
    destruct (next_call_fails _); [done|].
    destruct (matching_row tok w) as [row|]; [|done].
    destruct (expires_at row <? now w) eqn:Hexp; [done|].
    apply Z.ltb_ge in Hexp. intros [= Hd]. eauto 10. }
  intros req Htok Hnone.
  unfold authController.refreshToken. rewrite Htok.
  destruct (tokenUtil.verifyRefreshToken tok w) as [r w'] eqn:Hv.
  simpl in Hnone. subst r. exists w'.
  unfold try_catch, bind. by rewrite Hv.
Qed.

Lemma refresh_failures_collapse_witness :
  let c := {| c_id := Some 1; c_userid := "alice"; c_name := "Alice";
              c_rememberMe := Some false |} in
  let w := {| rows := []; next_id := 1; users := []; faults := [true];
              now := 5000000; salts := 0; env := default_config "a" "r" |} in
  (∃ w', @authController.refreshToken sample_bcrypt (bearer (Signed "x" c 1000 9000)) w
         = (Ok refresh_rejected, w')) ∧
  (∃ w', @authController.refreshToken sample_bcrypt (bearer (Signed "r" c 1000 4000)) w
         = (Ok refresh_rejected, w')) ∧
  (∃ w', @authController.refreshToken sample_bcrypt (bearer (Signed "r" c 1000 9000)) w
         = (Ok refresh_rejected, w')) ∧
  (∃ w', @authController.refreshToken sample_bcrypt (bearer (Signed "r" c 1000 9000))
           (with_faults [] w)
         = (Ok refresh_rejected, w')).
Proof.
  intros c w.
  pose (collapse := @refresh_failures_collapse sample_bcrypt).
  split.
  { destruct (collapse (Signed "x" c 1000 9000) w) as (_ & Hsig & _ & _ & _ & _ & _ & Hend).
    apply Hend; [reflexivity|]. by apply Hsig. }
  split.
  { destruct (collapse (Signed "r" c 1000 4000) w) as (_ & _ & Hexp & _ & _ & _ & _ & Hend).
    apply Hend; [reflexivity|]. by apply Hexp. }
  split.
  { destruct (collapse (Signed "r" c 1000 9000) w) as (_ & _ & _ & Hfail & _ & _ & _ & Hend).
    apply Hend; [reflexivity|]. by apply Hfail. }
  destruct (collapse (Signed "r" c 1000 9000) (with_faults [] w))
    as (_ & _ & _ & _ & Hrow & _ & _ & Hend).
  apply Hend; [reflexivity|]. by apply Hrow.
Defined.

Section RefreshOutcome.
Context `{Bcrypt}.

(** A refresh token that is accepted: the store is as it was. *)
Lemma verifyRefreshToken_accepts tok w d w' :
  tokenUtil.verifyRefreshToken tok w = (Ok (Some d), w') →
  rows w' = rows w ∧ next_id w' = next_id w ∧ env w' = env w ∧ now w' = now w.
Proof.
  unfold tokenUtil.verifyRefreshToken, try_catch, bind at 1 2, get.
  pose proof (verify_pure tok (REFRESH_TOKEN_SECRET (env w)) w) as Hp.
  destruct (jwt.verify _ _ w) as [[d0|e] w0]; simpl in Hp; subst w0; [|done].
  unfold Token.findRefreshToken, try_catch, bind, get, storage_call.
  destruct w as [rs nid us fs t sl cf]. simpl.
  destruct fs as [|[] fs]; simpl; [|done|].
  - destruct (List.find _ rs) as [row|]; [|done]. simpl.
    destruct (expires_at row <? t).
    + by destruct (Token.deleteRefreshTokenByToken _ _) as [[?|?] ?].
    + by intros [= <- <-].
  - destruct (List.find _ rs) as [row|]; [|done]. simpl.
    destruct (expires_at row <? t).
    + by destruct (Token.deleteRefreshTokenByToken _ _) as [[?|?] ?].
    + by intros [= <- <-].
Qed.

Lemma findByUserid_frame u w :
  rows (User.findByUserid u w).2 = rows w ∧
  next_id (User.findByUserid u w).2 = next_id w ∧
  env (User.findByUserid u w).2 = env w ∧
  now (User.findByUserid u w).2 = now w ∧
  salts (User.findByUserid u w).2 = salts w.
Proof.
  unfold User.findByUserid, try_catch, bind, get, storage_call.
  destruct w as [rs nid us fs t sl cf]. simpl.
  destruct fs as [|[] fs]; simpl; try done.
  - by destruct (filter _ us) as [|? [|? ?]].
  - by destruct (filter _ us) as [|? [|? ?]].
Qed.

Lemma generateAccessToken_inv c w tok w' :
  tokenUtil.generateAccessToken c w = (Ok tok, w') →
  w' = w ∧ ∃ k, tok = Signed k c (now w / 1000)
                        (now w / 1000 + ACCESS_TOKEN_EXPIRES_IN (env w)).
Proof.
  unfold tokenUtil.generateAccessToken, try_catch, bind, get.
  destruct (jwt.sign _ _ _ w) as [[t|e] w0] eqn:Hs; [|done].
  intros [= <- <-]. apply sign_inv in Hs as (-> & k & _ & ->). eauto.
Qed.

Lemma generateRefreshToken_inv c w tok w' :
  tokenUtil.generateRefreshToken c w = (Ok tok, w') →
  w' = w ∧ ∃ k, tok = Signed k c (now w / 1000)
                        (now w / 1000 + REFRESH_TOKEN_EXPIRES_IN (env w)).
Proof.
  unfold tokenUtil.generateRefreshToken, try_catch, bind, get.
  destruct (jwt.sign _ _ _ w) as [[t|e] w0] eqn:Hs; [|done].
  intros [= <- <-]. apply sign_inv in Hs as (-> & k & _ & ->). eauto.
Qed.

End RefreshOutcome.

(** C6.  A refresh that succeeds (status 200) leaves table
    [refresh_token] and its key counter exactly as they were; its body
    carries a new access token and no token pair, and its only cookie
    instruction sets the [accessToken] cookie to that same token. *)
Theorem refresh_issues_access_only `{Bcrypt} (req : Request) (w w' : World)
    (res : Response) :
  authController.refreshToken req w = (Ok res, w') →
  status res = 200 →
  rows w' = rows w ∧ next_id w' = next_id w ∧
  j_tokens (json res) = None ∧
  ∃ key claims options,
    let access := Signed key claims (now w / 1000)
                    (now w / 1000 + ACCESS_TOKEN_EXPIRES_IN (env w)) in
    j_accessToken (json res) = Some access ∧
    cookie_ops res = [SetCookie "accessToken" (TokenValue access) options].
Proof.
  unfold authController.refreshToken, try_catch.
  destruct (tokenUtil.if_truthy _) as [tok|].
  2:{ simpl. intros [= <- <-]. done. }
  unfold bind at 1.
  destruct (tokenUtil.verifyRefreshToken tok w) as [[[d|]|e] w1] eqn:Hv;
    [|by intros [= <- <-]..].
  apply verifyRefreshToken_accepts in Hv as (Hr1 & Hn1 & He1 & Ht1).
  unfold bind at 1.
  pose proof (findByUserid_frame (c_userid (d_claims d)) w1) as (Hr2 & Hn2 & He2 & Ht2 & _).
  destruct (User.findByUserid _ w1) as [[[u|]|e] w2]; simpl in Hr2, Hn2, He2, Ht2;
    [|by intros [= <- <-]..].
  unfold bind at 1.
  destruct (tokenUtil.generateAccessToken _ w2) as [[acc|e] w3] eqn:Hg;
    [|by intros [= <- <-]].
  apply generateAccessToken_inv in Hg as (-> & k & ->).
  unfold bind, get, ret. intros [= <- <-] _. simpl.
  split; [congruence|]. split; [congruence|]. split; [done|].
  rewrite Ht2, Ht1, He2, He1. eauto.
Qed.

Lemma refresh_issues_access_only_witness :
  let w := Scenario.logged_in false in
  let req := Scenario.with_cookie (Scenario.refresh_token false) in
  ∃ res w',
    @authController.refreshToken sample_bcrypt req (at_time 2000000 w) = (Ok res, w') ∧
    status res = 200 ∧
    rows w' = rows w ∧ j_tokens (json res) = None.
Proof.
  intros w req. eexists _, _. split; [vm_compute; reflexivity|].
  split; [reflexivity|].
  match goal with
  | |- rows ?w' = _ ∧ j_tokens (json ?res) = _ =>
      destruct (@refresh_issues_access_only sample_bcrypt req (at_time 2000000 w) w' res)
        as (Hrows & _ & Hpair & _)
  end; [vm_compute; reflexivity | reflexivity |].
  split; [exact Hrows | exact Hpair].
Defined.

(** ** Refresh against an expired row *)

(** C3, as the code has it.  A refresh request presents a token whose
    signature verifies.  When the token's own expiry has not passed, the
    row found for it has expired and the storage calls succeed, the
    refresh removes that row and answers 401.  When the token's own expiry
    has passed, the refresh answers the same 401 and nothing has changed:
    [jwt.verify] throws before the store is asked, so no storage call is
    made and the row, expired or not, stays. *)
Theorem refresh_expired_row `{Bcrypt} (req : Request) (tok : Wire) (w : World) :
  tokenUtil.if_truthy (tokenUtil.extractToken req RefreshToken) = Some tok →
  valid_signature tok (REFRESH_TOKEN_SECRET (env w)) = true →
  (token_expired tok (now w) = false →
   faults w = [] →
   ∀ row, matching_row tok w = Some row →
          expires_at row < now w →
          authController.refreshToken req w =
            (Ok refresh_rejected, set_rows (filter (λ r, negb (id r =? id row))) w) ∧
          (row ∉ rows (authController.refreshToken req w).2)) ∧
  (token_expired tok (now w) = true →
   authController.refreshToken req w = (Ok refresh_rejected, w)) ∧
  status refresh_rejected = 401.
Proof.
  intros Htok Hs. split; [|split; [|done]].
  - intros He Hf row Hm Hexp. unfold matching_row in Hm.
    assert (Hrun : authController.refreshToken req w =
              (Ok refresh_rejected, set_rows (filter (λ r, negb (id r =? id row))) w)).
    { unfold authController.refreshToken. rewrite Htok.
      unfold tokenUtil.verifyRefreshToken.
      destruct tok as [s|key c iat exp]; [done|].
      unfold try_catch, bind at 1 2 3, get.
      rewrite (verify_ok _ _ _ _ _ _ Hs He).
      unfold bind at 1. rewrite (find_ok _ w Hf), Hm.
      unfold bind at 1, get. apply Z.ltb_lt in Hexp. rewrite Hexp.
      unfold bind. rewrite (deleteByToken_ok _ w Hf), Hm. reflexivity. }
    split; [exact Hrun|].
    rewrite Hrun. simpl. intros Hin. apply list_elem_of_filter in Hin as [Hid _].
    rewrite Z.eqb_refl in Hid. done.
  - intros He. unfold authController.refreshToken. rewrite Htok.
    unfold tokenUtil.verifyRefreshToken.
    unfold try_catch, bind at 1 2 3, get.
    rewrite (verify_expired _ _ _ Hs He). reflexivity.
Qed.

Lemma refresh_expired_row_witness :
  let tok := Signed "refresh-key"
               {| c_id := Some 1; c_userid := "alice"; c_name := "Alice";
                  c_rememberMe := Some false |} 1000 9000000 in
  let row := {| id := 1; user_id := 1;
                token := @bcrypt_hash sample_bcrypt tok 0;
                expires_at := 605800000 |} in
  let w := {| rows := [row]; next_id := 2; users := [Scenario.alice]; faults := [];
              now := 605800001; salts := 1;
              env := default_config "access-key" "refresh-key" |} in
  @authController.refreshToken sample_bcrypt (Scenario.with_cookie tok) w =
    (Ok refresh_rejected, set_rows (λ _, []) w) ∧
  @authController.refreshToken sample_bcrypt (Scenario.with_cookie tok)
    (with_faults [true] (at_time 9000000000 w)) =
    (Ok refresh_rejected, with_faults [true] (at_time 9000000000 w)).
Proof.
  intros tok row w. split.
  - destruct (@refresh_expired_row sample_bcrypt (Scenario.with_cookie tok) tok w)
      as (Hrow & _ & _); [vm_compute; reflexivity..|].
    destruct (Hrow eq_refl eq_refl row) as (Hrun & _); [vm_compute; reflexivity..|].
    exact Hrun.
  - destruct (@refresh_expired_row sample_bcrypt (Scenario.with_cookie tok) tok
                (with_faults [true] (at_time 9000000000 w)))
      as (_ & Hlate & _); [vm_compute; reflexivity..|].
    apply Hlate. reflexivity.
Defined.

(** With the lifetimes the code falls back on (a refresh token of 7 days,
    a row of 7 days), a row written at the time its token was signed has
    not expired as long as the token has not: the token runs out first. *)
Lemma default_row_outlives_token (t0 t : Z) (key : string) (c : Claims) :
  t0 + 7 * 24 * 60 * 60 * 1000 < t →
  token_expired (Signed key c (t0 / 1000) (t0 / 1000 + 7 * 24 * 3600)) t = true.
Proof.
  intros Hlt. unfold token_expired. apply Z.leb_le.
  assert (Hd : (t0 + 7 * 24 * 3600 * 1000) / 1000 = t0 / 1000 + 7 * 24 * 3600).
  { rewrite Z.div_add by lia. done. }
  rewrite <- Hd. apply Z.div_le_mono; lia.
Qed.

(** C3 does not hold for every token whose signature verifies.  Here
    [alice] has logged in with the default lifetimes and
    7 days and 1 ms have passed: the signature of her refresh token
    verifies, her row has expired, and the refresh answers 401 but leaves
    the row in the table, because the token's own expiry has passed too
    and [jwt.verify] throws before the table is read. *)
Lemma refresh_expired_token_keeps_row :
  let w := at_time 605800001 (Scenario.logged_in false) in
  let tok := Scenario.refresh_token false in
  valid_signature tok (REFRESH_TOKEN_SECRET (env w)) = true ∧
  ∃ row,
    @matching_row sample_bcrypt tok w = Some row ∧
    expires_at row < now w ∧
    (@authController.refreshToken sample_bcrypt (Scenario.with_cookie tok) w).1 =
      Ok refresh_rejected ∧
    row ∈ rows (@authController.refreshToken sample_bcrypt (Scenario.with_cookie tok) w).2.
Proof.
  intros w tok. split; [vm_compute; reflexivity|].
  eexists. split; [vm_compute; reflexivity|].
  split; [vm_compute; reflexivity|]. split; [vm_compute; reflexivity|].
  vm_compute. apply list_elem_of_here.
Qed.

(** ** Logout *)

Section LogoutFacts.
Context `{Bcrypt}.

Lemma deleteRefreshToken_ok u w :
  u ≠ 0 → faults w = [] →
  Token.deleteRefreshToken u w =
    (Ok true, set_rows (filter (λ r, negb (user_id r =? u))) w).
Proof.
  intros Hu Hf. apply Z.eqb_neq in Hu.
  unfold Token.deleteRefreshToken, try_catch, bind. rewrite Hu.
  by rewrite (storage_call_ok w Hf).
Qed.

(** When storage answers, [logout] succeeds whatever the request holds. *)
Lemma logout_ok req w :
  faults w = [] →
  ∃ w1, authController.logout req w = (Ok (logged_out (production (env w))), w1)
        ∧ faults w1 = [] ∧ env w1 = env w.
Proof.
  intros Hf. unfold authController.logout.
  destruct (tokenUtil.if_truthy _) as [tok|].
  - unfold try_catch, bind at 1 2. rewrite (deleteByToken_ok tok w Hf).
    destruct (List.find _ _) as [record|]; eexists; (split; [reflexivity|done]).
  - destruct (user req ≫= _) as [u|]; [|by exists w].
    destruct (u =? 0) eqn:Hu; [by exists w|]. apply Z.eqb_neq in Hu.
    unfold try_catch, bind at 1 2. rewrite (deleteRefreshToken_ok u w Hu Hf).
    eexists; (split; [reflexivity|done]).
Qed.

(** [logout] catches everything: it answers, with success or with 500. *)
Lemma logout_answers req w :
  ∃ res w', authController.logout req w = (Ok res, w') ∧
    (res = logged_out (production (env w')) ∨ res = authController.server_error).
Proof.
  unfold authController.logout, try_catch.
  match goal with |- context [bind ?m ?k w] => destruct (bind m k w) as [[r|e] w'] eqn:Hb end.
  - eexists _, _. split; [reflexivity|]. left.
    unfold bind in Hb.
    match type of Hb with context [match ?m w with _ => _ end] =>
      destruct (m w) as [[?|?] w1] end; [|done].
    unfold get, ret in Hb. by injection Hb as <- <-.
  - eexists _, _. split; [reflexivity|]. by right.
Qed.

(** A storage error during the lookup of the presented token. *)
Lemma logout_lookup_fails req tok w :
  tokenUtil.if_truthy (tokenUtil.extractToken req RefreshToken) = Some tok →
  next_call_fails w = true →
  (authController.logout req w).1 = Ok authController.server_error.
Proof.
  intros Htok Hf. unfold authController.logout. rewrite Htok.
  unfold try_catch, bind, Token.deleteRefreshTokenByToken, Token.findRefreshToken,
    try_catch, bind, storage_call.
  unfold next_call_fails in Hf. by destruct (faults w) as [|[] fs].
Qed.

(** One storage call, by what the world says of it. *)
Lemma storage_call_step w :
  storage_call w =
    (if call_fails 0 w then Throw StorageError else Ok (), after_calls 1 w).
Proof.
  destruct w as [rs nid us fs t sl cf]. unfold storage_call, call_fails, after_calls.
  simpl. destruct fs as [|[] fs]; reflexivity.
Qed.

Lemma call_fails_after n m w : call_fails n (after_calls m w) = call_fails (m + n) w.
Proof.
  unfold call_fails, after_calls. simpl. revert m.
  generalize (faults w). intros l m. revert l.
  induction m as [|m IH]; intros l; [by rewrite drop_0|].
  destruct l as [|x l]; [by destruct n|]. simpl. apply IH.
Qed.

Lemma after_calls_after n m w : after_calls n (after_calls m w) = after_calls (m + n) w.
Proof.
  unfold after_calls. simpl. f_equal. rewrite drop_drop. done.
Qed.

(** [logout] when a token is presented. *)
Lemma logout_with_token req tok w :
  tokenUtil.if_truthy (tokenUtil.extractToken req RefreshToken) = Some tok →
  authController.logout req w =
    if call_fails 0 w then (Ok authController.server_error, after_calls 1 w)
    else
      match matching_row tok w with
      | None => (Ok (logged_out (production (env w))), after_calls 1 w)
      | Some row =>
          if call_fails 1 w then (Ok authController.server_error, after_calls 2 w)
          else (Ok (logged_out (production (env w))),
                set_rows (filter (λ r, negb (id r =? id row))) (after_calls 2 w))
      end.
Proof.
  intros Htok. unfold authController.logout. rewrite Htok.
  unfold Token.deleteRefreshTokenByToken, Token.findRefreshToken.
  unfold try_catch, bind at 1 2 3 4 5 6. rewrite storage_call_step.
  destruct (call_fails 0 w) eqn:H0; [reflexivity|].
  unfold get, ret, matching_row. cbn [rows after_calls].
  destruct (List.find _ (rows w)) as [row|]; [|reflexivity].
  unfold bind at 1 2. rewrite storage_call_step, call_fails_after, after_calls_after.
  cbn [Nat.add]. destruct (call_fails 1 w); reflexivity.
Qed.

(** [logout] when no token is presented and the user id is known. *)
Lemma logout_with_user req u w :
  tokenUtil.if_truthy (tokenUtil.extractToken req RefreshToken) = None →
  user req ≫= (λ d, c_id (d_claims d)) = Some u →
  u ≠ 0 →
  authController.logout req w =
    if call_fails 0 w then (Ok authController.server_error, after_calls 1 w)
    else (Ok (logged_out (production (env w))),
          set_rows (filter (λ r, negb (user_id r =? u))) (after_calls 1 w)).
Proof.
  intros Htok Hu Hne. apply Z.eqb_neq in Hne.
  unfold authController.logout. rewrite Htok, Hu, Hne.
  unfold Token.deleteRefreshToken. rewrite Hne.
  unfold try_catch, bind at 1 2 3 4. rewrite storage_call_step.
  destruct (call_fails 0 w); reflexivity.
Qed.

(** [logout] when there is neither: the store is not asked. *)
Lemma logout_without req w :
  tokenUtil.if_truthy (tokenUtil.extractToken req RefreshToken) = None →
  user req ≫= (λ d, c_id (d_claims d)) = None
  ∨ user req ≫= (λ d, c_id (d_claims d)) = Some 0 →
  authController.logout req w = (Ok (logged_out (production (env w))), w).
Proof.
  intros Htok [Hu|Hu]; unfold authController.logout; rewrite Htok, Hu; reflexivity.
Qed.

End LogoutFacts.

(** C5, as the code has it.  [logout] always answers, never throws, and
    its answer is either the success response with the three cookies
    cleared or the 500 response, which clears none.  When the storage
    calls succeed it is the success response, whether or not a row
    matched, and a second logout with the same request succeeds as well.
    A storage call that fails makes it the 500 response and leaves the
    rows as they were: with a token presented, the lookup or, when a row
    matched, the delete of that row; with no token and a known user id,
    the delete of the rows of that user.  With neither, the store is not
    asked and the answer is the success response. *)
Theorem logout_best_effort `{Bcrypt} (req : Request) (w : World) :
  (∃ res w', authController.logout req w = (Ok res, w') ∧
     (res = logged_out (production (env w')) ∨ res = authController.server_error)) ∧
  (faults w = [] →
     ∃ w1 w2,
       authController.logout req w = (Ok (logged_out (production (env w))), w1) ∧
       authController.logout req w1 = (Ok (logged_out (production (env w))), w2)) ∧
  (∀ tok,
     tokenUtil.if_truthy (tokenUtil.extractToken req RefreshToken) = Some tok →
     (call_fails 0 w = true →
        authController.logout req w = (Ok authController.server_error, after_calls 1 w)) ∧
     (call_fails 0 w = false → matching_row tok w = None →
        authController.logout req w =
          (Ok (logged_out (production (env w))), after_calls 1 w)) ∧
     (∀ row, call_fails 0 w = false → matching_row tok w = Some row →
        (call_fails 1 w = true →
           authController.logout req w =
             (Ok authController.server_error, after_calls 2 w)) ∧
        (call_fails 1 w = false →
           authController.logout req w =
             (Ok (logged_out (production (env w))),
              set_rows (filter (λ r, negb (id r =? id row))) (after_calls 2 w))))) ∧
  (∀ u,
     tokenUtil.if_truthy (tokenUtil.extractToken req RefreshToken) = None →
     user req ≫= (λ d, c_id (d_claims d)) = Some u →
     u ≠ 0 →
     (call_fails 0 w = true →
        authController.logout req w = (Ok authController.server_error, after_calls 1 w)) ∧
     (call_fails 0 w = false →
        authController.logout req w =
          (Ok (logged_out (production (env w))),
           set_rows (filter (λ r, negb (user_id r =? u))) (after_calls 1 w)))) ∧
  (tokenUtil.if_truthy (tokenUtil.extractToken req RefreshToken) = None →
   user req ≫= (λ d, c_id (d_claims d)) = None
   ∨ user req ≫= (λ d, c_id (d_claims d)) = Some 0 →
   authController.logout req w = (Ok (logged_out (production (env w))), w)) ∧
  rows (after_calls 1 w) = rows w ∧ rows (after_calls 2 w) = rows w ∧
  status (logged_out (production (env w))) = 200 ∧
  status authController.server_error = 500 ∧
  cookie_ops authController.server_error = [].
Proof.
  split; [apply logout_answers|]. split.
  { intros Hf. destruct (logout_ok req w Hf) as (w1 & H1 & Hf1 & He1).
    destruct (logout_ok req w1 Hf1) as (w2 & H2 & _ & _).
    exists w1, w2. split; [done|]. by rewrite <- He1. }
  split.
  { intros tok Htok. rewrite (logout_with_token req tok w Htok).
    split; [by intros ->|]. split; [by intros -> ->|].
    intros row -> ->. split; by intros ->. }
  split.
  { intros u Htok Hu Hne. rewrite (logout_with_user req u w Htok Hu Hne).
    split; by intros ->. }
  split; [apply logout_without|]. done.
Qed.

Lemma logout_best_effort_witness :
  let w := Scenario.logged_in false in
  let req := Scenario.with_cookie (Scenario.refresh_token false) in
  (∃ w1 w2,
     @authController.logout sample_bcrypt req w = (Ok (logged_out false), w1) ∧
     rows w1 = [] ∧
     @authController.logout sample_bcrypt req w1 = (Ok (logged_out false), w2)) ∧
  (@authController.logout sample_bcrypt req (with_faults [true] w)).1
    = Ok authController.server_error ∧
  (∃ w', @authController.logout sample_bcrypt req (with_faults [false; true] w)
         = (Ok authController.server_error, w') ∧ rows w' = rows w).
Proof.
  intros w req.
  destruct (@logout_best_effort sample_bcrypt req w) as (_ & Hok & _).
  destruct (@logout_best_effort sample_bcrypt req (with_faults [true] w))
    as (_ & _ & Hlookup & _).
  destruct (@logout_best_effort sample_bcrypt req (with_faults [false; true] w))
    as (_ & _ & Hdelete & _).
  split; [|split].
  - destruct Hok as (w1 & w2 & H1 & H2); [reflexivity|].
    exists w1, w2. split; [exact H1|]. split; [|exact H2].
    vm_compute in H1. injection H1 as <-. reflexivity.
  - destruct (Hlookup (Scenario.refresh_token false)) as (Hfail & _); [reflexivity|].
    rewrite Hfail; reflexivity.
  - destruct (Hdelete (Scenario.refresh_token false)) as (_ & _ & Hrow); [reflexivity|].
    destruct (Hrow (hd {| id := 0; user_id := 0; token := {| h_salt := 0; h_digest := 0 |};
                          expires_at := 0 |} (rows w))) as (Hfail & _);
      [reflexivity | vm_compute; reflexivity |].
    eexists. split; [apply Hfail; reflexivity|]. reflexivity.
Defined.

(** C5 does not hold when the store fails: such a logout answers 500 with
    [success: false], clears no cookie and leaves the row in place. *)
Lemma logout_storage_failure :
  let w := with_faults [true] (Scenario.logged_in false) in
  let req := Scenario.with_cookie (Scenario.refresh_token false) in
  ∃ res w',
    @authController.logout sample_bcrypt req w = (Ok res, w') ∧
    status res = 500 ∧ success (json res) = false ∧ cookie_ops res = [] ∧
    rows w' = rows w.
Proof.
  intros w req. eexists _, _. split; [vm_compute; reflexivity|]. done.
Qed.

(** ** Login and [rememberMe] *)

Section LoginFacts.
Context `{Bcrypt}.

Lemma authenticate_frame u p w :
  env (User.authenticate u p w).2 = env w ∧
  now (User.authenticate u p w).2 = now w.
Proof.
  unfold User.authenticate, try_catch, bind.
  pose proof (findByUserid_frame u w) as (_ & _ & He & Hn & _).
  destruct (User.findByUserid u w) as [[[user|]|e] w1]; simpl in *; try done.
  by destruct (negb _).
Qed.

(** What a successful [saveRefreshToken] wrote: a row that expires 7
    days after the clock, at the end of the table; the clock and the
    configuration are untouched. *)
Lemma util_save_inv userId tok w row w' :
  tokenUtil.saveRefreshToken userId tok w = (Ok row, w') →
  user_id row = userId ∧
  token row = bcrypt_hash tok (salts w) ∧
  expires_at row = now w + 7 * 24 * 60 * 60 * 1000 ∧
  last (rows w') = Some row ∧
  env w' = env w ∧ now w' = now w.
Proof.
  unfold tokenUtil.saveRefreshToken, Token.saveRefreshToken,
    Token.deleteRefreshToken, try_catch, bind, fresh_salt, get, storage_call.
  destruct w as [rs nid us fs t sl cf]. simpl.
  destruct (userId =? 0); [done|]. simpl.
  destruct fs as [|[] [|[] fs]]; simpl; try done.
  all: intros [= <- <-]; simpl; by rewrite last_snoc.
Qed.

End LoginFacts.

(** C2, as the code has it.  In every login that succeeds the access
    token and the refresh token are signed with the configured lifetimes
    (1 hour and 7 days unless configured otherwise) and the persisted row
    expires 7 days after the login, whatever [rememberMe] is; [rememberMe]
    decides only the lifetime of the [refreshToken] and [rememberMe]
    cookies, 30 days when it is set and 7 days when it is not.  The
    [accessToken] cookie lasts 1 hour in both cases. *)
Theorem login_lifetimes `{Bcrypt} (req : Request) (w w' : World) (res : Response) :
  userController.login req w = (Ok res, w') →
  status res = 200 →
  ∃ access_key refresh_key claims row,
    let rememberMe := default false (body req ≫= b_rememberMe) in
    let issued := now w / 1000 in
    let access :=
      Signed access_key claims issued (issued + ACCESS_TOKEN_EXPIRES_IN (env w)) in
    let refresh :=
      Signed refresh_key claims issued (issued + REFRESH_TOKEN_EXPIRES_IN (env w)) in
    let cookie_age :=
      if rememberMe then 30 * 24 * 60 * 60 * 1000 else 7 * 24 * 60 * 60 * 1000 in
    c_rememberMe claims = Some rememberMe ∧
    j_tokens (json res) = Some (access, refresh) ∧
    last (rows w') = Some row ∧
    bcrypt_compare refresh (token row) = true ∧
    expires_at row = now w + 7 * 24 * 60 * 60 * 1000 ∧
    cookie_ops res =
      [ SetCookie "accessToken" (TokenValue access)
          (tokenUtil.token_cookie (production (env w)) (60 * 60 * 1000) false);
        SetCookie "refreshToken" (TokenValue refresh)
          (tokenUtil.token_cookie (production (env w)) cookie_age false);
        SetCookie "rememberMe" (FlagValue rememberMe)
          (tokenUtil.token_cookie (production (env w)) cookie_age true) ].
Proof.
  unfold userController.login, try_catch.
  destruct (body req) as [b|] eqn:Hb; [|by intros [= <- <-]].
  simpl.
  destruct (_ || _); [by intros [= <- <-]|].
  destruct (negb _); [by intros [= <- <-]|].
  destruct (negb _); [by intros [= <- <-]|].
  unfold bind at 1.
  pose proof (authenticate_frame (default EmptyString (b_userid b))
                (default EmptyString (b_password b)) w) as (He1 & Hn1).
  destruct (User.authenticate _ _ w) as [[[user|]|e] w1];
    simpl in He1, Hn1; [|by intros [= <- <-]..].
  destruct (userindex user) as [index|] eqn:Hi; [|by intros [= <- <-]].
  unfold bind at 1.
  destruct (tokenUtil.generateAccessToken _ w1) as [[acc|e] w2] eqn:Hga;
    [|by intros [= <- <-]].
  apply generateAccessToken_inv in Hga as (-> & ka & ->).
  unfold bind at 1.
  destruct (tokenUtil.generateRefreshToken _ w1) as [[ref|e] w3] eqn:Hgr;
    [|by intros [= <- <-]].
  apply generateRefreshToken_inv in Hgr as (-> & kr & ->).
  unfold bind.
  destruct (tokenUtil.saveRefreshToken _ _ w1) as [[row|e] w4] eqn:Hsave;
    [|by intros [= <- <-]].
  apply util_save_inv in Hsave as (Hu & Htok & Hexp & Hlast & He4 & Hn4).
  unfold tokenUtil.setTokenCookies, bind, get, ret.
  intros [= <- <-] _. simpl.
  exists ka, kr, {| c_id := Some index; c_userid := userid user; c_name := name user;
                    c_rememberMe := Some (default false (b_rememberMe b)) |}, row.
  rewrite Hn1, He1 in *. rewrite He4.
  split; [done|]. split; [done|]. split; [done|].
  split; [rewrite Htok; apply bcrypt_compare_hash|]. split; [done|]. done.
Qed.

Lemma login_lifetimes_witness :
  ∃ res w' access refresh row,
    @userController.login sample_bcrypt (Scenario.login_request true) Scenario.start
      = (Ok res, w') ∧
    status res = 200 ∧
    j_tokens (json res) = Some (access, refresh) ∧
    refresh = Scenario.refresh_token true ∧
    last (rows w') = Some row ∧
    expires_at row = now Scenario.start + 7 * 24 * 60 * 60 * 1000.
Proof.
  eexists _, _. 
  match goal with
  | |- ∃ a r row, ?run = (Ok ?res, ?w') ∧ _ =>
      assert (Hrun : run = (Ok res, w')) by (vm_compute; reflexivity);
      destruct (@login_lifetimes sample_bcrypt _ _ _ _ Hrun eq_refl)
        as (ka & kr & claims & row & _ & Hpair & Hlast & _ & Hexp & _)
  end.
  eexists _, _, row. split; [exact Hrun|]. split; [reflexivity|].
  split; [exact Hpair|]. split; [|split; [exact Hlast | exact Hexp]].
  vm_compute in Hpair |- *. congruence.
Defined.

(** C2 does not hold for the refresh token and its row.  [alice] logs in
    with [rememberMe] set: the [refreshToken] cookie lasts 30 days, but
    the refresh token inside it is signed for 7 days and its row expires
    after 7 days, exactly as when [rememberMe] is not set. *)
Lemma login_remember_me_keeps_7_days :
  let w := Scenario.start in
  let thirty_days := 30 * 24 * 60 * 60 * 1000 in
  let seven_days := 7 * 24 * 60 * 60 * 1000 in
  ∃ res w' access claims iat exp row options,
    @userController.login sample_bcrypt (Scenario.login_request true) w = (Ok res, w') ∧
    status res = 200 ∧
    j_tokens (json res) = Some (access, Signed "refresh-key" claims iat exp) ∧
    c_rememberMe claims = Some true ∧
    (exp - iat) * 1000 = seven_days ∧
    rows w' = [row] ∧
    expires_at row - now w = seven_days ∧
    expires_at row - now w ≠ thirty_days ∧
    cookie_ops res !! 1%nat =
      Some (SetCookie "refreshToken" (TokenValue (Signed "refresh-key" claims iat exp))
              options) ∧
    maxAge options = Some thirty_days ∧
    rows (@userController.login sample_bcrypt (Scenario.login_request false) w).2
      = [row].
Proof.
  intros w thirty seven. eexists _, _, _, _, _, _, _, _.
  split; [vm_compute; reflexivity|].
  do 3 (split; [reflexivity|]). split; [reflexivity|]. split; [reflexivity|].
  split; [reflexivity|]. split; [vm_compute; congruence|].
  split; [reflexivity|]. split; reflexivity.
Qed.

(* ===================================================================== *)
(** * Part III: further properties of the code *)
(* ===================================================================== *)

(** ** The registration lock: timers, sweep, keys *)

Section LockExtras.
Import RequestLock.
Implicit Types (s : Loop) (key k : string).

Lemma release_lookup k k' s :
  locks (release k s) !! k' = if decide (k = k') then None else locks s !! k'.
Proof.
  case_decide as Hk.
  - subst k'. apply held_false, release_frees.
  - by apply release_other.
Qed.

Lemma release_all_lookup (l : list string) k s :
  locks (foldr release s l) !! k = if decide (k ∈ l) then None else locks s !! k.
Proof.
  induction l as [|k' l IH]; simpl.
  - destruct (decide (k ∈ [])) as [Hin|_]; [by apply elem_of_nil in Hin|done].
  - rewrite release_lookup, IH.
    destruct (decide (k' = k)) as [->|Hne].
    + rewrite decide_True; [done|]. apply list_elem_of_here.
    + destruct (decide (k ∈ l)) as [Hin|Hnin].
      * rewrite decide_True; [done|]. by apply list_elem_of_further.
      * rewrite decide_False; [done|].
        intros [->|Hin]%elem_of_cons; done.
Qed.

Lemma expired_keys_spec k s :
  k ∈ expired_keys s ↔
  ∃ li, locks s !! k = Some li ∧ timeout s < clock s - timestamp li.
Proof.
  unfold expired_keys. rewrite list_elem_of_fmap. split.
  - intros ([k0 li] & -> & Hin). apply elem_of_map_to_list in Hin.
    apply map_lookup_filter_Some in Hin as [Hl Hold]. simpl in *.
    exists li. split; [done|]. by apply Z.ltb_lt, Is_true_true_1.
  - intros (li & Hl & Hold). exists (k, li). split; [done|].
    apply elem_of_map_to_list, map_lookup_filter_Some. split; [done|].
    simpl. by apply Is_true_true_2, Z.ltb_lt.
Qed.

Lemma release_all_frame (l : list string) s :
  clock (foldr release s l) = clock s ∧ timeout (foldr release s l) = timeout s.
Proof.
  induction l as [|k l [IH1 IH2]]; simpl; [done|].
  destruct (release_shrinks k (foldr release s l)) as (_ & _ & -> & ->). done.
Qed.

Lemma acquire_answer k s : (acquire k s).1 = negb (held k s).
Proof. unfold acquire. by destruct (held k s). Qed.

End LockExtras.

(** X1.  In every state the lock reaches from its creation, each held key
    has its own timer armed for 5000 ms after its timestamp, and every
    armed timer belongs to a held key whose entry names that timer: no
    timer is leaked and none is stale. *)
Theorem lock_timers_match (t0 : Z) (history : list RequestLock.Op) (key : string) :
  let s := (RequestLock.run key history (RequestLock.create t0)).2 in
  (∀ k li, RequestLock.locks s !! k = Some li →
     RequestLock.timers s !! RequestLock.timer li =
       Some {| RequestLock.due := RequestLock.timestamp li + 5000;
               RequestLock.target := k |}) ∧
  (∀ i p, RequestLock.timers s !! i = Some p →
     ∃ li, RequestLock.locks s !! RequestLock.target p = Some li ∧
           RequestLock.timer li = i ∧
           RequestLock.due p = RequestLock.timestamp li + 5000 ∧
           RequestLock.clock s < RequestLock.due p).
Proof.
  intros s.
  assert (Hw : RequestLock.wf s) by apply wf_run, wf_create.
  assert (Hto : RequestLock.timeout s = 5000) by (subst s; by rewrite timeout_run).
  split.
  - intros k li Hl. rewrite (RequestLock.wf_armed s Hw _ _ Hl). by rewrite Hto.
  - intros i p Hp. destruct (RequestLock.wf_owner s Hw _ _ Hp) as (li & Hl & Hi).
    exists li. split; [done|]. split; [done|].
    pose proof (RequestLock.wf_armed s Hw _ _ Hl) as Ha. rewrite Hi, Hp in Ha.
    pose proof (RequestLock.wf_future s Hw _ _ Hp) as Hf.
    injection Ha as Heq. rewrite Heq in Hf |- *. simpl in Hf |- *.
    split; [by rewrite Hto | exact Hf].
Qed.

(** X2.  [cleanup], in any state of the map: an entry strictly older than
    the window is removed, every other entry stays as it is, and the clock
    and the window are not touched. *)
Theorem cleanup_removes_old_entries (s : RequestLock.Loop) (k : string) :
  RequestLock.locks (RequestLock.cleanup s) !! k =
    match RequestLock.locks s !! k with
    | Some li =>
        if RequestLock.timeout s <? RequestLock.clock s - RequestLock.timestamp li
        then None else Some li
    | None => None
    end ∧
  RequestLock.clock (RequestLock.cleanup s) = RequestLock.clock s ∧
  RequestLock.timeout (RequestLock.cleanup s) = RequestLock.timeout s.
Proof.
  split; [|apply release_all_frame].
  unfold RequestLock.cleanup. rewrite release_all_lookup.
  destruct (RequestLock.locks s !! k) as [li|] eqn:Hl.
  - destruct (_ <? _) eqn:Hold.
    + apply Z.ltb_lt in Hold. rewrite decide_True; [done|].
      apply expired_keys_spec. eauto.
    + apply Z.ltb_ge in Hold. rewrite decide_False; [done|].
      intros (li' & Hl' & Hold')%expired_keys_spec. rewrite Hl in Hl'.
      injection Hl' as <-. lia.
  - by case_decide.
Qed.

(** X3.  In every state the lock reaches from its creation the sweep has
    nothing to do: the timers have released every entry before it is as
    old as the window, so [cleanup] returns the state unchanged. *)
Theorem cleanup_finds_nothing (t0 : Z) (history : list RequestLock.Op) (key : string) :
  let s := (RequestLock.run key history (RequestLock.create t0)).2 in
  RequestLock.cleanup s = s.
Proof.
  intros s.
  assert (Hw : RequestLock.wf s) by apply wf_run, wf_create.
  unfold RequestLock.cleanup.
  assert (He : RequestLock.expired_keys s = []).
  { destruct (RequestLock.expired_keys s) as [|k l] eqn:E; [done|].
    assert (Hk : k ∈ RequestLock.expired_keys s) by (rewrite E; apply list_elem_of_here).
    apply expired_keys_spec in Hk as (li & Hl & Hold).
    pose proof (wf_young s k li Hw Hl). lia. }
  by rewrite He.
Qed.

(** X4.  Keys do not interfere: acquiring or releasing [k] leaves the
    entry of every other key [k'] as it is, so the answer of a later
    [acquire k'] is the same with or without it. *)
Theorem lock_keys_independent (k k' : string) (s : RequestLock.Loop) :
  k ≠ k' →
  RequestLock.locks (RequestLock.acquire k s).2 !! k' = RequestLock.locks s !! k' ∧
  RequestLock.locks (RequestLock.release k s) !! k' = RequestLock.locks s !! k' ∧
  (RequestLock.acquire k' (RequestLock.acquire k s).2).1 = (RequestLock.acquire k' s).1 ∧
  (RequestLock.acquire k' (RequestLock.release k s)).1 = (RequestLock.acquire k' s).1.
Proof.
  intros Hne.
  assert (Ha : RequestLock.locks (RequestLock.acquire k s).2 !! k'
               = RequestLock.locks s !! k').
  { unfold RequestLock.acquire. destruct (RequestLock.held k s); simpl; [done|].
    by rewrite lookup_insert_ne. }
  assert (Hr : RequestLock.locks (RequestLock.release k s) !! k'
               = RequestLock.locks s !! k') by by apply release_other.
  split; [done|]. split; [done|].
  rewrite !acquire_answer. unfold RequestLock.held. by rewrite Ha, Hr.
Qed.

Lemma lock_keys_independent_witness :
  (RequestLock.acquire "bob"
     (RequestLock.acquire "alice" (RequestLock.create 0)).2).1 = true.
Proof.
  destruct (lock_keys_independent "alice" "bob" (RequestLock.create 0))
    as (_ & _ & H & _); [done|].
  rewrite H. reflexivity.
Defined.

(** X5.  In a state the lock reaches from its creation, acquiring a free
    key and releasing it at once gives back the map of entries and the
    table of timers as they were: the timer armed by [acquire] is cleared
    by [release]. *)
Theorem acquire_then_release (t0 : Z) (history : list RequestLock.Op) (key : string) :
  let s := (RequestLock.run key history (RequestLock.create t0)).2 in
  RequestLock.held key s = false →
  let s' := RequestLock.release key (RequestLock.acquire key s).2 in
  (RequestLock.acquire key s).1 = true ∧
  RequestLock.locks s' = RequestLock.locks s ∧
  RequestLock.timers s' = RequestLock.timers s ∧
  RequestLock.clock s' = RequestLock.clock s.
Proof.
  intros s Hfree s'. subst s'.
  assert (Hw : RequestLock.wf s) by apply wf_run, wf_create.
  assert (Hnew : RequestLock.timers s !! RequestLock.next_timer s = None).
  { destruct (RequestLock.timers s !! RequestLock.next_timer s) eqn:E; [|done].
    apply (RequestLock.wf_fresh s Hw) in E. lia. }
  unfold RequestLock.acquire. rewrite Hfree. cbn [fst snd].
  unfold RequestLock.release. cbn [RequestLock.locks]. rewrite lookup_insert_eq.
  cbn. apply held_false in Hfree.
  split; [done|]. split; [by apply delete_insert_id|].
  split; [by apply delete_insert_id|done].
Qed.

Lemma acquire_then_release_witness :
  let s := (RequestLock.run "alice" [RequestLock.OAcquire "bob"] (RequestLock.create 0)).2 in
  RequestLock.locks (RequestLock.release "alice" (RequestLock.acquire "alice" s).2)
    = RequestLock.locks s.
Proof.
  intros s.
  destruct (acquire_then_release 0 [RequestLock.OAcquire "bob"] "alice") as (_ & H & _);
    [vm_compute; reflexivity|].
  exact H.
Defined.

(** ** The refresh-token store: sweep, lookup, delete *)

Section StoreExtras.
Context `{Bcrypt}.

Lemma storage_call_cases w :
  storage_call w =
    (if next_call_fails w then Throw StorageError else Ok (),
     with_faults (tail (faults w)) w).
Proof.
  unfold storage_call, next_call_fails, with_faults.
  destruct w as [rs nid us fs t sl cf]. simpl. by destruct fs as [|[] fs].
Qed.

Lemma length_filter_split (P : Row → bool) (rs : list Row) :
  (length (filter (λ r, negb (P r)) rs) + length (filter (λ r, P r) rs)
   = length rs)%nat.
Proof.
  induction rs as [|r rs IH]; [done|].
  rewrite !filter_cons. destruct (P r); simpl; lia.
Qed.

Lemma filter_nothing (P : Row → Prop) `{∀ r, Decision (P r)} (rs : list Row) :
  (∀ r, r ∈ rs → ¬ P r) → filter P rs = [].
Proof.
  induction rs as [|r rs IH]; intros Hn; [done|].
  rewrite filter_cons, decide_False by (apply Hn, list_elem_of_here).
  apply IH. intros r' Hr'. by apply Hn, list_elem_of_further.
Qed.

Lemma find_cases tok w :
  Token.findRefreshToken tok w =
    (if next_call_fails w then Throw StorageError
     else Ok (List.find (λ row, bcrypt_compare tok (token row)) (rows w)),
     with_faults (tail (faults w)) w).
Proof.
  unfold Token.findRefreshToken, try_catch, bind, storage_call, next_call_fails,
    with_faults, get, ret, throw.
  destruct w as [rs nid us fs t sl cf]. simpl. by destruct fs as [|[] fs].
Qed.

End StoreExtras.

(** X6.  [deleteExpiredTokens], when its storage call succeeds, removes
    exactly the rows whose [expires_at] lies before the clock, keeps the
    others in their order, and returns how many it removed; run again at
    once it removes nothing and returns 0.  When the storage call fails it
    throws and the table is as it was. *)
Theorem delete_expired_sweep (w : World) :
  (next_call_fails w = false →
     ∃ n w',
       Token.deleteExpiredTokens w = (Ok n, w') ∧
       rows w' = filter (λ r, negb (expires_at r <? now w)) (rows w) ∧
       n = Z.of_nat (length (filter (λ r, expires_at r <? now w) (rows w))) ∧
       (∀ r, r ∈ rows w' → now w ≤ expires_at r) ∧
       (next_call_fails w' = false →
          ∃ w'', Token.deleteExpiredTokens w' = (Ok 0, w'') ∧ rows w'' = rows w')) ∧
  (next_call_fails w = true →
     ∃ w', Token.deleteExpiredTokens w = (Throw StorageError, w') ∧ rows w' = rows w).
Proof.
  assert (Hrun : ∀ v, next_call_fails v = false →
            Token.deleteExpiredTokens v =
              (Ok (Z.of_nat (length (rows v)) -
                   Z.of_nat (length (filter (λ r, negb (expires_at r <? now v)) (rows v)))),
               set_rows (filter (λ r, negb (expires_at r <? now v)))
                 (with_faults (tail (faults v)) v))).
  { intros v Hv. unfold Token.deleteExpiredTokens, try_catch, bind at 1.
    rewrite storage_call_cases, Hv. reflexivity. }
  split.
  - intros Hok. rewrite (Hrun w Hok). eexists _, _. split; [reflexivity|].
    split; [reflexivity|]. split.
    { pose proof (length_filter_split (λ r, expires_at r <? now w) (rows w)). lia. }
    split.
    { intros r Hr. simpl in Hr. apply list_elem_of_filter in Hr as [Hr _].
      apply Is_true_true_1, negb_true_iff, Z.ltb_ge in Hr. done. }
    intros Hok'. rewrite (Hrun _ Hok'). simpl.
    assert (Hidem : ∀ l : list Row,
              filter (λ r, negb (expires_at r <? now w))
                (filter (λ r, negb (expires_at r <? now w)) l)
              = filter (λ r, negb (expires_at r <? now w)) l).
    { intros l. rewrite (list_filter_filter _ _). apply list_filter_iff. intros r. tauto. }
    eexists. split.
    { unfold set_rows. simpl. rewrite Hidem, Z.sub_diag. reflexivity. }
    reflexivity.
  - intros Hfail. unfold Token.deleteExpiredTokens, try_catch, bind at 1.
    rewrite storage_call_cases, Hfail. eexists. split; [reflexivity|done].
Qed.

Lemma delete_expired_sweep_witness :
  let row (i e : Z) := {| id := i; user_id := i;
                          token := {| h_salt := 0; h_digest := 0 |}; expires_at := e |} in
  let w := {| rows := [row 1 10; row 2 50; row 3 20; row 4 60]; next_id := 5;
              users := []; faults := []; now := 30; salts := 0;
              env := default_config "a" "r" |} in
  ∃ w', Token.deleteExpiredTokens w = (Ok 2, w') ∧ rows w' = [row 2 50; row 4 60].
Proof.
  intros row w.
  destruct (delete_expired_sweep w) as [Hok _].
  destruct Hok as (n & w' & Hrun & Hrows & Hn & _); [reflexivity|].
  exists w'. rewrite Hrun, Hrows, Hn. split; reflexivity.
Defined.

(** X7.  [Token.saveRefreshToken] is a delete followed by an insert, not
    one step: when the delete succeeds and the insert fails, the call
    throws and the user is left with no row at all, the previous one
    included; when the delete itself fails nothing has changed.  In both
    cases the rows of other users are untouched. *)
Theorem save_is_not_atomic (userId : Z) (hashed : Hash) (expires : Z) (w : World)
    (rest : list bool) :
  userId ≠ 0 →
  (faults w = false :: true :: rest →
     ∃ w', Token.saveRefreshToken userId (Some hashed) (Some expires) w
             = (Throw StorageError, w') ∧
           rows w' = filter (λ r, negb (user_id r =? userId)) (rows w) ∧
           filter (λ r, user_id r = userId) (rows w') = []) ∧
  (faults w = true :: rest →
     ∃ w', Token.saveRefreshToken userId (Some hashed) (Some expires) w
             = (Throw StorageError, w') ∧
           rows w' = rows w).
Proof.
  intros Hu. apply Z.eqb_neq in Hu.
  unfold Token.saveRefreshToken, Token.deleteRefreshToken, try_catch, bind, storage_call.
  rewrite Hu. destruct w as [rs nid us fs t sl cf]. simpl.
  split; intros ->; simpl; eexists; (split; [reflexivity|]); simpl; [|done].
  split; [done|]. apply filter_user_deleted.
Qed.

Lemma save_is_not_atomic_witness :
  let old := {| id := 1; user_id := 1; token := {| h_salt := 0; h_digest := 0 |};
                expires_at := 900 |} in
  let w := {| rows := [old]; next_id := 2; users := []; faults := [false; true];
              now := 30; salts := 0; env := default_config "a" "r" |} in
  ∃ w', Token.saveRefreshToken 1 (Some {| h_salt := 1; h_digest := 1 |}) (Some 950) w
          = (Throw StorageError, w') ∧ rows w' = [].
Proof.
  intros old w.
  destruct (save_is_not_atomic 1 {| h_salt := 1; h_digest := 1 |} 950 w []) as [Hmid _];
    [lia|].
  destruct Hmid as (w' & Hrun & Hrows & _); [reflexivity|].
  exists w'. split; [exact Hrun|]. rewrite Hrows. reflexivity.
Defined.

(** X8.  [findRefreshToken] reads and does not write.  When its storage
    call succeeds, a row it returns is in the table, its hash matches the
    token and no row before it in the table does; it returns [null] exactly
    when no row of the table matches.  When the storage call fails it
    throws. *)
Theorem find_refresh_token_sound `{Bcrypt} (tok : Wire) (w : World) :
  rows (Token.findRefreshToken tok w).2 = rows w ∧
  (next_call_fails w = true → (Token.findRefreshToken tok w).1 = Throw StorageError) ∧
  (next_call_fails w = false →
     ∃ found,
       (Token.findRefreshToken tok w).1 = Ok found ∧
       match found with
       | Some row =>
           ∃ before after,
             rows w = before ++ row :: after ∧
             bcrypt_compare tok (token row) = true ∧
             ∀ r, r ∈ before → bcrypt_compare tok (token r) = false
       | None => ∀ r, r ∈ rows w → bcrypt_compare tok (token r) = false
       end).
Proof.
  rewrite find_cases. destruct (next_call_fails w); simpl.
  { split; [done|]. split; [done | intros [=]]. }
  split; [done|]. split; [intros [=]|]. intros _. eexists. split; [reflexivity|].
  induction (rows w) as [|r rs IH]; simpl.
  - intros r Hr. by apply elem_of_nil in Hr.
  - destruct (bcrypt_compare tok (token r)) eqn:Hc.
    + exists [], rs. split; [done|]. split; [done|].
      intros r' Hr'. by apply elem_of_nil in Hr'.
    + destruct (List.find _ rs) as [row|].
      * destruct IH as (before & after & -> & Hm & Hb).
        exists (r :: before), after. split; [done|]. split; [done|].
        intros r' [->|Hr']%elem_of_cons; [done | by apply Hb].
      * intros r' [->|Hr']%elem_of_cons; [done | by apply IH].
Qed.

(** X9.  [deleteRefreshTokenByToken], when storage answers: if no row
    matches the token it returns [false] and nothing changes; if a row
    matches it returns [true], the rows carrying the id of the first
    matching row are gone and every other row stays in place. *)
Theorem delete_by_token `{Bcrypt} (tok : Wire) (w : World) :
  faults w = [] →
  (matching_row tok w = None →
     Token.deleteRefreshTokenByToken tok w = (Ok false, w)) ∧
  (∀ row, matching_row tok w = Some row →
     ∃ w', Token.deleteRefreshTokenByToken tok w = (Ok true, w') ∧
           (row ∉ rows w') ∧
           (∀ r, r ∈ rows w' ↔ r ∈ rows w ∧ id r ≠ id row) ∧
           users w' = users w ∧ next_id w' = next_id w).
Proof.
  intros Hf. unfold matching_row. rewrite (deleteByToken_ok tok w Hf).
  split; [by intros ->|]. intros row ->. eexists. split; [reflexivity|].
  assert (Hiff : ∀ r, r ∈ rows (set_rows (filter (λ r, negb (id r =? id row))) w)
                      ↔ r ∈ rows w ∧ id r ≠ id row).
  { intros r. simpl. rewrite list_elem_of_filter. split.
    - intros [Hn Hr]. split; [done|].
      apply Is_true_true_1, negb_true_iff, Z.eqb_neq in Hn. done.
    - intros [Hr Hn]. split; [|done].
      by apply Is_true_true_2, negb_true_iff, Z.eqb_neq. }
  split; [|done]. intros Hin%Hiff. by destruct Hin.
Qed.

Lemma delete_by_token_witness :
  let tok := Scenario.refresh_token false in
  let w := Scenario.logged_in false in
  ∃ w', @Token.deleteRefreshTokenByToken sample_bcrypt tok w = (Ok true, w') ∧
        rows w' = [] ∧
        @Token.deleteRefreshTokenByToken sample_bcrypt tok w' = (Ok false, w').
Proof.
  intros tok w.
  destruct (@delete_by_token sample_bcrypt tok w eq_refl) as [_ Hsome].
  destruct (Hsome (mkRow 1 1 (@bcrypt_hash sample_bcrypt tok 0) 605800000) eq_refl)
    as (w' & Hrun & _).
  exists w'. split; [exact Hrun|].
  vm_compute in Hrun. injection Hrun as <-. split; [reflexivity|].
  by apply (@delete_by_token sample_bcrypt tok).
Defined.

(** X10.  Save, delete, look up.  When storage answers and the token
    matches no row of another user, a token saved for a user is found
    again, with the row just written; after [deleteRefreshTokenByToken]
    for that token it is no longer found and the user has no row. *)
Theorem save_delete_find `{Bcrypt} (userId : Z) (tok : Wire) (w : World) :
  userId ≠ 0 →
  faults w = [] →
  (∀ r, r ∈ rows w → user_id r ≠ userId → bcrypt_compare tok (token r) = false) →
  ∃ row w1 w2,
    tokenUtil.saveRefreshToken userId tok w = (Ok row, w1) ∧
    (Token.findRefreshToken tok w1).1 = Ok (Some row) ∧
    Token.deleteRefreshTokenByToken tok w1 = (Ok true, w2) ∧
    (Token.findRefreshToken tok w2).1 = Ok None ∧
    filter (λ r, user_id r = userId) (rows w2) = [].
Proof.
  intros Hu Hf Hothers.
  rewrite (util_save_ok userId tok w Hu Hf). cbv zeta.
  set (row := {| id := next_id w |}).
  set (w1 := {| rows := _ ++ [row] |}).
  assert (Hrest : ∀ r, r ∈ filter (λ r, negb (user_id r =? userId)) (rows w) →
                       bcrypt_compare tok (token r) = false).
  { intros r Hr. apply other_users_rows in Hr as [Hr Hne]. by apply Hothers. }
  assert (Hfind : List.find (λ r, bcrypt_compare tok (token r)) (rows w1) = Some row).
  { simpl. apply find_last; [exact Hrest | apply bcrypt_compare_hash]. }
  exists row, w1. eexists. split; [reflexivity|].
  split; [by rewrite (find_ok tok w1 eq_refl), Hfind|].
  rewrite (deleteByToken_ok tok w1 eq_refl), Hfind. split; [reflexivity|].
  rewrite find_ok by done. cbn [fst rows set_rows w1].
  split.
  - f_equal. apply find_none. intros r Hr.
    apply list_elem_of_filter in Hr as [Hid Hr].
    apply elem_of_app in Hr as [Hr|Hr]; [by apply Hrest|].
    apply list_elem_of_singleton in Hr. subst r. simpl in Hid.
    rewrite Z.eqb_refl in Hid. done.
  - rewrite (list_filter_filter _ _).
    apply filter_nothing. intros r Hr [Hur Hid].
    apply elem_of_app in Hr as [Hr|Hr].
    + apply other_users_rows in Hr as [_ Hne]. done.
    + apply list_elem_of_singleton in Hr. subst r. simpl in Hid.
      rewrite Z.eqb_refl in Hid. done.
Qed.

Lemma save_delete_find_witness :
  ∃ row w1 w2,
    @tokenUtil.saveRefreshToken sample_bcrypt 1 (Scenario.refresh_token true)
      Scenario.start = (Ok row, w1) ∧
    (@Token.findRefreshToken sample_bcrypt (Scenario.refresh_token true) w1).1
      = Ok (Some row) ∧
    @Token.deleteRefreshTokenByToken sample_bcrypt (Scenario.refresh_token true) w1
      = (Ok true, w2) ∧
    (@Token.findRefreshToken sample_bcrypt (Scenario.refresh_token true) w2).1 = Ok None.
Proof.
  destruct (@save_delete_find sample_bcrypt 1 (Scenario.refresh_token true) Scenario.start)
    as (row & w1 & w2 & H1 & H2 & H3 & H4 & _).
  - lia.
  - reflexivity.
  - intros r Hr. by apply elem_of_nil in Hr.
  - exists row, w1, w2. done.
Defined.

(** X11.  [Token.deleteRefreshToken] for a user id other than 0, when its
    storage call succeeds, removes every row of that user and no other
    row; deleting again changes nothing more. *)
Theorem delete_user_rows (userId : Z) (w : World) :
  userId ≠ 0 →
  faults w = [] →
  ∃ w1,
    Token.deleteRefreshToken userId w = (Ok true, w1) ∧
    filter (λ r, user_id r = userId) (rows w1) = [] ∧
    filter (λ r, user_id r ≠ userId) (rows w1) = filter (λ r, user_id r ≠ userId) (rows w) ∧
    ∃ w2, Token.deleteRefreshToken userId w1 = (Ok true, w2) ∧ rows w2 = rows w1.
Proof.
  intros Hu Hf. rewrite (deleteRefreshToken_ok userId w Hu Hf).
  eexists. split; [reflexivity|]. simpl.
  split; [apply filter_user_deleted|].
  assert (Hkeep : ∀ l : list Row,
            filter (λ r, negb (user_id r =? userId)) l = filter (λ r, user_id r ≠ userId) l).
  { intros l. apply list_filter_iff. intros r.
    rewrite <- Z.eqb_neq. destruct (user_id r =? userId); simpl; split; done. }
  split.
  - rewrite Hkeep, (list_filter_filter _ _). apply list_filter_iff. intros r. tauto.
  - pose proof (deleteRefreshToken_ok userId
        (set_rows (filter (λ r, negb (user_id r =? userId))) w) Hu Hf) as H2.
    eexists. split; [exact H2|]. simpl.
    rewrite !Hkeep, (list_filter_filter _ _). apply list_filter_iff. intros r. tauto.
Qed.

Lemma delete_user_rows_witness :
  ∃ w1, Token.deleteRefreshToken 1 (Scenario.logged_in false) = (Ok true, w1) ∧
        rows w1 = [].
Proof.
  destruct (delete_user_rows 1 (Scenario.logged_in false)) as (w1 & Hrun & _);
    [lia | reflexivity |].
  exists w1. split; [exact Hrun|]. vm_compute in Hrun. injection Hrun as <-. reflexivity.
Defined.

(** ** Tokens of the two kinds, and the pieces of a request *)

(** X12.  The two kinds of token are not interchangeable when the two
    secrets differ: the access-token guard answers 403 to a refresh token,
    and the refresh endpoint answers its 401 to an access token, without a
    single storage call. *)
Theorem token_kinds_not_interchangeable `{Bcrypt} (claims : Claims) (w : World)
    (access_key refresh_key : string) :
  configured w access_key refresh_key →
  access_key ≠ refresh_key →
  ∃ access refresh,
    tokenUtil.generateAccessToken claims w = (Ok access, w) ∧
    tokenUtil.generateRefreshToken claims w = (Ok refresh, w) ∧
    (∀ req w', env w' = env w →
       tokenUtil.if_truthy (tokenUtil.extractToken req AccessToken) = Some refresh →
       authMiddleware.verifyToken req w' = (Ok (Responded refused_invalid), w')) ∧
    (∀ req w', env w' = env w →
       tokenUtil.if_truthy (tokenUtil.extractToken req RefreshToken) = Some access →
       authController.refreshToken req w' = (Ok refresh_rejected, w')).
Proof.
  intros [Ha Hr] Hne. eexists _, _.
  split.
  { unfold tokenUtil.generateAccessToken, try_catch, bind, get.
    by rewrite (sign_ok _ _ _ _ _ Ha). }
  split.
  { unfold tokenUtil.generateRefreshToken, try_catch, bind, get.
    by rewrite (sign_ok _ _ _ _ _ Hr). }
  split.
  - intros req w' He Htok. unfold authMiddleware.verifyToken. rewrite Htok.
    unfold try_catch, bind, get. rewrite verify_invalid; [done|].
    unfold valid_signature. rewrite He, Ha. apply String.eqb_neq. congruence.
  - intros req w' He Htok. unfold authController.refreshToken. rewrite Htok.
    unfold tokenUtil.verifyRefreshToken, try_catch, bind, get.
    rewrite verify_invalid; [done|].
    unfold valid_signature. rewrite He, Hr. by apply String.eqb_neq.
Qed.

Lemma token_kinds_not_interchangeable_witness :
  let c := {| c_id := Some 1; c_userid := "alice"; c_name := "Alice";
              c_rememberMe := None |} in
  let w := Scenario.start in
  authMiddleware.verifyToken (bearer (Signed "refresh-key" c 1000 605800)) w
    = (Ok (Responded refused_invalid), w) ∧
  @authController.refreshToken sample_bcrypt
    (Scenario.with_cookie (Signed "access-key" c 1000 4600)) w
    = (Ok refresh_rejected, w).
Proof.
  intros c w.
  destruct (@token_kinds_not_interchangeable sample_bcrypt c w "access-key" "refresh-key")
    as (access & refresh & Hga & Hgr & Hguard & Hrefresh); [by split | done |].
  vm_compute in Hga. injection Hga as <-. vm_compute in Hgr. injection Hgr as <-.
  split; [by apply Hguard | by apply Hrefresh].
Defined.

Lemma generateAccessToken_key (c : Claims) (w w' : World) (tok : Wire) :
  tokenUtil.generateAccessToken c w = (Ok tok, w') →
  w' = w ∧
  ∃ k, jwt.usable (ACCESS_TOKEN_SECRET (env w)) = Some k ∧
       tok = Signed k c (now w / 1000) (now w / 1000 + ACCESS_TOKEN_EXPIRES_IN (env w)).
Proof.
  unfold tokenUtil.generateAccessToken, try_catch, bind, get.
  destruct (jwt.sign _ _ _ w) as [[t|e] w0] eqn:Hs; [|done].
  intros [= <- <-]. by apply sign_inv in Hs.
Qed.

(** X13.  An access token runs out exactly at its expiry: from the second
    [iat + lifetime] on, the guard answers a request presenting it with
    401 and [expired: true], and before that second it lets the request
    through with [req.user] set to the claims the token was signed for,
    its [iat] and its [exp]. *)
Theorem access_token_expires_on_time (claims : Claims) (w w' : World) (tok : Wire)
    (req : Request) :
  tokenUtil.generateAccessToken claims w = (Ok tok, w) →
  env w' = env w →
  tokenUtil.if_truthy (tokenUtil.extractToken req AccessToken) = Some tok →
  (now w / 1000 + ACCESS_TOKEN_EXPIRES_IN (env w) ≤ now w' / 1000 →
     authMiddleware.verifyToken req w' = (Ok (Responded refused_expired), w')) ∧
  (now w' / 1000 < now w / 1000 + ACCESS_TOKEN_EXPIRES_IN (env w) →
     authMiddleware.verifyToken req w' =
       (Ok (Next (set_user
                    {| d_claims := claims; d_iat := now w / 1000;
                       d_exp := now w / 1000 + ACCESS_TOKEN_EXPIRES_IN (env w) |}
                    req)), w')).
Proof.
  intros Hgen He Htok.
  apply generateAccessToken_key in Hgen as (_ & k & Hk & ->).
  assert (Hs : valid_signature
                 (Signed k claims (now w / 1000)
                    (now w / 1000 + ACCESS_TOKEN_EXPIRES_IN (env w)))
                 (ACCESS_TOKEN_SECRET (env w')) = true).
  { unfold valid_signature. rewrite He, Hk. apply String.eqb_refl. }
  unfold authMiddleware.verifyToken. rewrite Htok. unfold try_catch, bind, get.
  split.
  - intros Hlate. rewrite verify_expired; [done | done |].
    unfold token_expired. by apply Z.leb_le.
  - intros Hearly. rewrite verify_ok; [done | done |].
    unfold token_expired. by apply Z.leb_gt.
Qed.

Lemma access_token_expires_on_time_witness :
  let c := {| c_id := Some 1; c_userid := "alice"; c_name := "Alice";
              c_rememberMe := None |} in
  let tok := Signed "access-key" c 1000 4600 in
  authMiddleware.verifyToken (bearer tok) (at_time 4600000 Scenario.start)
    = (Ok (Responded refused_expired), at_time 4600000 Scenario.start) ∧
  authMiddleware.verifyToken (bearer tok) (at_time 4599999 Scenario.start)
    = (Ok (Next (set_user {| d_claims := c; d_iat := 1000; d_exp := 4600 |} (bearer tok))),
       at_time 4599999 Scenario.start).
Proof.
  intros c tok.
  pose (at_t := λ t, access_token_expires_on_time c Scenario.start
                       (at_time t Scenario.start) tok (bearer tok)
                       eq_refl eq_refl eq_refl).
  split.
  - apply (at_t 4600000). vm_compute. congruence.
  - apply (at_t 4599999). vm_compute. reflexivity.
Defined.

(** X14.  A bearer header wins over the body and the cookies even when
    its token is empty: such a request counts as carrying no token, so the
    guard answers 401 and the refresh endpoint answers 400 without touching
    anything, whatever tokens the body and the cookies hold. *)
Theorem empty_bearer_hides_other_tokens `{Bcrypt} (req : Request) (w : World)
    (more : list Wire) :
  authorization req = Some (Opaque "Bearer" :: Opaque EmptyString :: more) →
  (∀ kind, tokenUtil.extractToken req kind = Some (Opaque EmptyString)) ∧
  authMiddleware.verifyToken req w = (Ok (Responded refused_no_token), w) ∧
  authController.refreshToken req w =
    (Ok {| status := 400; json := plain false MsgRefreshTokenMissing; cookie_ops := [] |},
     w).
Proof.
  intros Hh.
  assert (Hx : ∀ kind, tokenUtil.extractToken req kind = Some (Opaque EmptyString)).
  { intros kind. unfold tokenUtil.extractToken. by rewrite Hh. }
  split; [exact Hx|]. split.
  - unfold authMiddleware.verifyToken. by rewrite Hx.
  - unfold authController.refreshToken. by rewrite Hx.
Qed.

Lemma empty_bearer_hides_other_tokens_witness :
  let req := {| authorization := Some [Opaque "Bearer"; Opaque EmptyString];
                body := None;
                cookies := Some {| k_accessToken := Some (Signed "access-key"
                                     (mkClaims (Some 1) "alice" "Alice" None) 1000 4600);
                                   k_refreshToken := Some (Scenario.refresh_token false) |};
                user := None |} in
  authMiddleware.verifyToken req Scenario.start
    = (Ok (Responded refused_no_token), Scenario.start).
Proof.
  intros req.
  by apply (@empty_bearer_hides_other_tokens sample_bcrypt req Scenario.start []).
Defined.

(** ** Sessions: login, verify, refresh, logout *)

Section SessionExtras.
Context `{Bcrypt}.

Lemma findByUserid_ok uid account w :
  faults w = [] →
  filter (λ u, userid u = uid) (users w) = [account] →
  User.findByUserid uid w = (Ok (Some account), w).
Proof.
  intros Hf Hu. unfold User.findByUserid, try_catch, bind, get.
  rewrite (storage_call_ok w Hf). by rewrite Hu.
Qed.

(** A login that goes through, spelled out. *)
Lemma login_ok req account index ka kr w :
  valid_credentials req account w →
  userindex account = Some index → index ≠ 0 →
  configured w ka kr →
  faults w = [] →
  let claims := login_claims account (remember_me req) in
  let access := Signed ka claims (now w / 1000)
                  (now w / 1000 + ACCESS_TOKEN_EXPIRES_IN (env w)) in
  let refresh := Signed kr claims (now w / 1000)
                   (now w / 1000 + REFRESH_TOKEN_EXPIRES_IN (env w)) in
  let row := {| id := next_id w; user_id := index;
                token := bcrypt_hash refresh (salts w);
                expires_at := now w + 7 * 24 * 60 * 60 * 1000 |} in
  ∃ res,
    userController.login req w =
      (Ok res,
       {| rows := filter (λ r, negb (user_id r =? index)) (rows w) ++ [row];
          next_id := next_id w + 1; users := users w; faults := [];
          now := now w; salts := salts w + 1; env := env w |}) ∧
    status res = 200 ∧
    j_tokens (json res) = Some (access, refresh) ∧
    j_rememberMe (json res) = Some (remember_me req) ∧
    cookie_ops res !! 0%nat =
      Some (SetCookie "accessToken" (TokenValue access)
              (tokenUtil.token_cookie (production (env w)) (60 * 60 * 1000) false)) ∧
    cookie_ops res !! 1%nat =
      Some (SetCookie "refreshToken" (TokenValue refresh)
              (tokenUtil.token_cookie (production (env w))
                 (if remember_me req then 30 * 24 * 60 * 60 * 1000
                  else 7 * 24 * 60 * 60 * 1000) false)).
Proof.
  intros (b & pw & Hb & Hu & Hp & Hpw & Hsafe & Hvalid & Hrow & Hcmp) Hi Hi0 [Hka Hkr] Hf.
  intros claims access refresh row.
  assert (Hne : String.eqb (userid account) EmptyString = false).
  { unfold validation.isValidUserid in Hvalid.
    by destruct (String.eqb (userid account) EmptyString). }
  apply String.eqb_neq in Hpw.
  subst claims access refresh row. unfold login_claims, remember_me.
  rewrite Hb, Hi. cbn [mbind option_bind].
  unfold userController.login. rewrite Hb. cbv beta iota zeta.
  rewrite Hu, Hp. unfold userController.empty. cbn [default]. unfold Datatypes.id.
  rewrite Hne, Hpw, Hsafe, Hvalid. cbn [orb negb].
  unfold try_catch at 1, bind at 1.
  unfold User.authenticate, try_catch at 1, bind at 1.
  rewrite (findByUserid_ok _ account w Hf Hrow). rewrite Hcmp. simpl.
  rewrite Hi.
  unfold bind at 1, tokenUtil.generateAccessToken, try_catch at 1, bind at 1, get.
  rewrite (sign_ok _ _ _ _ _ Hka).
  unfold bind at 1, tokenUtil.generateRefreshToken, try_catch at 1, bind at 1, get.
  rewrite (sign_ok _ _ _ _ _ Hkr).
  unfold bind at 1, try_catch at 1, bind at 1.
  rewrite (util_save_ok index _ w Hi0 Hf). cbv zeta.
  unfold tokenUtil.setTokenCookies, bind, get, ret. simpl.
  eexists. split; [reflexivity|]. done.
Qed.

End SessionExtras.

(** X15.  [login] always answers and never throws; an answer other than
    200 is a failure body with status 400, 401 or 500 that carries no
    token and sets no cookie. *)
Theorem login_failure_sets_nothing `{Bcrypt} (req : Request) (w : World) :
  ∃ res w',
    userController.login req w = (Ok res, w') ∧
    (status res = 200 ∨
     ((status res = 400 ∨ status res = 401 ∨ status res = 500) ∧
      success (json res) = false ∧
      j_tokens (json res) = None ∧
      j_accessToken (json res) = None ∧
      cookie_ops res = [])).
Proof.
  unfold userController.login, try_catch at 1.
  match goal with |- context [let (_, _) := ?m w in _] =>
    destruct (m w) as [[res|e] w'] eqn:Hrun end.
  2:{ eexists _, _. split; [reflexivity|]. right. simpl. tauto. }
  exists res, w'. split; [reflexivity|].
  revert Hrun.
  destruct (body req) as [b|]; [|done]. cbv zeta.
  destruct (_ || _); [intros [= <- <-]; right; simpl; tauto|].
  destruct (negb _); [intros [= <- <-]; right; simpl; tauto|].
  destruct (negb _); [intros [= <- <-]; right; simpl; tauto|].
  unfold bind at 1.
  destruct (User.authenticate _ _ w) as [[[account|]|e] w1];
    [|intros [= <- <-]; right; simpl; tauto|done].
  destruct (userindex account) as [index|];
    [|intros [= <- <-]; right; simpl; tauto].
  unfold bind at 1.
  destruct (tokenUtil.generateAccessToken _ w1) as [[acc|e] w2]; [|done].
  unfold bind at 1.
  destruct (tokenUtil.generateRefreshToken _ w2) as [[ref|e] w3]; [|done].
  unfold bind at 1, try_catch.
  match goal with |- context [let (_, _) := ?m w3 in _] =>
    destruct (m w3) as [[[cookies|failure]|e] w4] eqn:Hsave end.
  - intros [= <- <-]. by left.
  - unfold bind in Hsave.
    destruct (tokenUtil.saveRefreshToken _ _ w3) as [[?|?] w5]; [|done].
    unfold tokenUtil.setTokenCookies, bind, get, ret in Hsave. done.
  - intros [= <- <-]. right; simpl; tauto.
Qed.

(** X16.  [login] turns a request down before it asks the store when the
    id or the password is missing or empty, when the id does not pass
    [isSafeSqlInput], or when it does not pass [isValidUserid]: the answer
    is 400 and nothing has changed, not even the list of coming storage
    calls. *)
Theorem login_rejects_before_storage `{Bcrypt} (req : Request) (b : Body) (w : World) :
  body req = Some b →
  (userController.empty (b_userid b) || userController.empty (b_password b)
   || negb (validation.isSafeSqlInput (default EmptyString (b_userid b)))
   || negb (validation.isValidUserid (default EmptyString (b_userid b)))) = true →
  ∃ m, userController.login req w = (Ok (userController.bad_request m), w) ∧
       status (userController.bad_request m) = 400.
Proof.
  intros Hb Hbad. unfold userController.login, try_catch. rewrite Hb. cbv zeta.
  destruct (userController.empty (b_userid b) || userController.empty (b_password b));
    [by eexists|].
  destruct (negb (validation.isSafeSqlInput _)); [by eexists|].
  destruct (negb (validation.isValidUserid _)); [by eexists|].
  done.
Qed.

Lemma login_rejects_before_storage_witness :
  let b := {| b_accessToken := None; b_refreshToken := None;
              b_userid := Some "select"%string; b_password := Some "pass1234"%string;
              b_rememberMe := None |} in
  let req := {| authorization := None; body := Some b; cookies := None; user := None |} in
  let w := with_faults [true] Scenario.start in
  @userController.login sample_bcrypt req w
    = (Ok (userController.bad_request MsgUnsafeInput), w).
Proof.
  intros b req w.
  destruct (@login_rejects_before_storage sample_bcrypt req b w eq_refl) as (m & Hrun & _);
    [vm_compute; reflexivity|].
  rewrite Hrun. vm_compute in Hrun. injection Hrun as <-. reflexivity.
Defined.

(** X17.  Login, then verify.  The access token a successful login hands
    out is accepted by [GET /verify] for as long as it has not expired,
    from the header, the body or the cookie, and the answer names the
    account that logged in, with the [rememberMe] of the login request. *)
Theorem login_then_verify `{Bcrypt} (req : Request) (account : UserRow) (index : Z)
    (ka kr : string) (w : World) :
  valid_credentials req account w →
  userindex account = Some index → index ≠ 0 →
  configured w ka kr →
  faults w = [] →
  ∃ res w1 access refresh,
    userController.login req w = (Ok res, w1) ∧
    status res = 200 ∧
    j_tokens (json res) = Some (access, refresh) ∧
    ∀ req' t,
      tokenUtil.if_truthy (tokenUtil.extractToken req' AccessToken) = Some access →
      t / 1000 < now w / 1000 + ACCESS_TOKEN_EXPIRES_IN (env w) →
      verifyRoute.get_verify req' (at_time t w1) =
        (Ok (verifyRoute.Valid
               {| verifyRoute.v_id := Some index;
                  verifyRoute.v_userid := userid account;
                  verifyRoute.v_name := name account;
                  verifyRoute.v_rememberMe := remember_me req |}),
         at_time t w1).
Proof.
  intros Hcred Hi Hi0 Hcfg Hf.
  destruct (login_ok req account index ka kr w Hcred Hi Hi0 Hcfg Hf)
    as (res & Hrun & Hst & Htok & _).
  eexists res, _, _, _. split; [exact Hrun|]. split; [exact Hst|].
  split; [exact Htok|].
  intros req' t Hpres Ht. destruct Hcfg as [Hka _].
  unfold verifyRoute.get_verify, bind at 1, authMiddleware.verifyToken.
  rewrite Hpres. unfold try_catch, bind, get. cbn [env at_time].
  rewrite verify_ok.
  - unfold ret. cbn. by rewrite Hi.
  - unfold valid_signature. rewrite Hka. apply String.eqb_refl.
  - unfold token_expired. cbn [now at_time]. by apply Z.leb_gt.
Qed.

Lemma login_then_verify_witness :
  ∃ res w1 access refresh,
    @userController.login sample_bcrypt (Scenario.login_request true) Scenario.start
      = (Ok res, w1) ∧
    j_tokens (json res) = Some (access, refresh) ∧
    verifyRoute.get_verify (bearer access) (at_time 4000000 w1) =
      (Ok (verifyRoute.Valid (verifyRoute.mkVerified (Some 1) "alice" "Alice" true)),
       at_time 4000000 w1).
Proof.
  destruct (@login_then_verify sample_bcrypt (Scenario.login_request true) Scenario.alice 1
              "access-key" "refresh-key" Scenario.start)
    as (res & w1 & access & refresh & Hrun & _ & Htok & Hver).
  - eexists _, "pass1234"%string. repeat split; try reflexivity. discriminate.
  - reflexivity.
  - lia.
  - by split.
  - reflexivity.
  - exists res, w1, access, refresh. split; [exact Hrun|]. split; [exact Htok|].
    apply Hver; [|vm_compute; reflexivity].
    destruct access; [|reflexivity].
    vm_compute in Hrun. injection Hrun as <- _. discriminate Htok.
Defined.

(** X18.  Login, then refresh.  While the refresh token of a successful
    login has not expired and its row has not either, and provided the
    token matches no row of another user, the refresh endpoint accepts it
    and answers 200 with a fresh access token for the same account; that
    token carries the id, the login name and the name of the account's row
    and no [rememberMe]. *)
Theorem login_then_refresh `{Bcrypt} (req : Request) (account : UserRow) (index : Z)
    (ka kr : string) (w : World) :
  let refresh := Signed kr (login_claims account (remember_me req)) (now w / 1000)
                   (now w / 1000 + REFRESH_TOKEN_EXPIRES_IN (env w)) in
  valid_credentials req account w →
  userindex account = Some index → index ≠ 0 →
  configured w ka kr →
  faults w = [] →
  (∀ r, r ∈ rows w → user_id r ≠ index → bcrypt_compare refresh (token r) = false) →
  ∃ res w1 access,
    userController.login req w = (Ok res, w1) ∧
    j_tokens (json res) = Some (access, refresh) ∧
    ∀ req' t,
      tokenUtil.if_truthy (tokenUtil.extractToken req' RefreshToken) = Some refresh →
      t / 1000 < now w / 1000 + REFRESH_TOKEN_EXPIRES_IN (env w) →
      t ≤ now w + 7 * 24 * 60 * 60 * 1000 →
      ∃ res',
        authController.refreshToken req' (at_time t w1) = (Ok res', at_time t w1) ∧
        status res' = 200 ∧
        j_accessToken (json res') =
          Some (Signed ka
                  {| c_id := Some index; c_userid := userid account;
                     c_name := name account; c_rememberMe := None |}
                  (t / 1000) (t / 1000 + ACCESS_TOKEN_EXPIRES_IN (env w))).
Proof.
  intros refresh Hcred Hi Hi0 Hcfg Hf Hothers.
  destruct (login_ok req account index ka kr w Hcred Hi Hi0 Hcfg Hf)
    as (res & Hrun & Hst & Htok & _).
  eexists res, _, _. split; [exact Hrun|]. split; [exact Htok|].
  intros req' t Hpres Ht Hrow. destruct Hcfg as [Hka Hkr].
  destruct Hcred as (b & pw & _ & _ & _ & _ & _ & _ & Husers & _).
  match goal with |- context [at_time t ?x] => set (w1 := x) end.
  set (row := {| id := next_id w; user_id := index;
                 token := bcrypt_hash refresh (salts w);
                 expires_at := now w + 7 * 24 * 60 * 60 * 1000 |}).
  assert (Hfind : List.find (λ r, bcrypt_compare refresh (token r)) (rows (at_time t w1))
                  = Some row).
  { simpl. apply find_last; [|apply bcrypt_compare_hash].
    intros r Hr. apply other_users_rows in Hr as [Hr Hne]. by apply Hothers. }
  unfold authController.refreshToken. rewrite Hpres.
  unfold try_catch at 1, bind at 1.
  unfold tokenUtil.verifyRefreshToken, try_catch at 1, bind at 1 2, get.
  unfold refresh at 1. rewrite verify_ok.
  2:{ unfold valid_signature. cbn [env at_time w1]. rewrite Hkr. apply String.eqb_refl. }
  2:{ unfold token_expired. cbn [now at_time]. by apply Z.leb_gt. }
  unfold bind at 1. rewrite (find_ok refresh (at_time t w1) eq_refl), Hfind.
  unfold bind at 1, get.
  assert (Hlive : (expires_at row <? now (at_time t w1)) = false).
  { apply Z.ltb_ge. simpl. lia. }
  rewrite Hlive. unfold ret at 1. cbn [d_claims login_claims c_userid].
  unfold bind at 1.
  rewrite (findByUserid_ok (userid account) account (at_time t w1) eq_refl Husers).
  unfold bind at 1, tokenUtil.generateAccessToken, try_catch at 1, bind at 1, get.
  rewrite (sign_ok _ _ ka _ _); [|exact Hka].
  unfold bind, get, ret. rewrite Hi. eexists. split; [reflexivity|]. done.
Qed.

Lemma login_then_refresh_witness :
  ∃ res w1 res',
    @userController.login sample_bcrypt (Scenario.login_request true) Scenario.start
      = (Ok res, w1) ∧
    @authController.refreshToken sample_bcrypt
      (Scenario.with_cookie (Scenario.refresh_token true)) (at_time 9000000 w1)
      = (Ok res', at_time 9000000 w1) ∧
    status res' = 200.
Proof.
  destruct (@login_then_refresh sample_bcrypt (Scenario.login_request true) Scenario.alice 1
              "access-key" "refresh-key" Scenario.start)
    as (res & w1 & access & Hrun & _ & Href).
  - eexists _, "pass1234"%string. repeat split; try reflexivity. discriminate.
  - reflexivity.
  - lia.
  - by split.
  - reflexivity.
  - intros r Hr. by apply elem_of_nil in Hr.
  - destruct (Href (Scenario.with_cookie (Scenario.refresh_token true)) 9000000)
      as (res' & Hrun' & Hst & _); [reflexivity | vm_compute; reflexivity
                                   | vm_compute; congruence |].
    exists res, w1, res'. done.
Defined.

Section RefreshRejection.
Context `{Bcrypt}.


End RefreshRejection.



(** X20.  At [POST /logout] a bearer token in the [Authorization] header
    is taken for the refresh token: when it is not empty and storage
    answers, the logout answers 200, clears the cookies and deletes the
    first row that token matches under bcrypt, if there is one; the
    refresh token in the body or the cookie is not looked at, and the user
    id of a verified bearer token is not used.  An access token matches
    the row of a refresh token signed for the same claims, since bcrypt
    reads the same 72 bytes of both: presenting the access token of a
    login as bearer deletes a row. *)
Theorem logout_bearer_token_decides `{Bcrypt} (req : Request) (tok : Wire) (w : World) :
  tokenUtil.bearer_token (authorization req) = Some tok →
  truthy tok = true →
  faults w = [] →
  authRoutes.post_logout req w =
    (Ok (logged_out (production (env w))),
     match matching_row tok w with
     | Some row => set_rows (filter (λ r, negb (id r =? id row))) w
     | None => w
     end)
  ∧ (∀ key claims iat exp key' iat' exp' salt row,
       tok = Signed key claims iat exp →
       row ∈ rows w →
       token row = bcrypt_hash (Signed key' claims iat' exp') salt →
       ∃ found, matching_row tok w = Some found
                ∧ bcrypt_compare tok (token found) = true
                ∧ found ∈ rows w
                ∧ found ∉ rows (authRoutes.post_logout req w).2).
Proof.
  intros Hb Ht Hf.
  assert (Hlogout : ∀ r, authorization r = authorization req →
            authController.logout r w =
              (Ok (logged_out (production (env w))),
               match matching_row tok w with
               | Some row => set_rows (filter (λ r, negb (id r =? id row))) w
               | None => w
               end)).
  { intros r Hr. unfold authController.logout, tokenUtil.extractToken.
    rewrite Hr, Hb. unfold tokenUtil.if_truthy. rewrite Ht.
    unfold try_catch, bind at 1 2. rewrite (deleteByToken_ok tok w Hf).
    unfold matching_row. by destruct (List.find _ _). }
  assert (Hrun : authRoutes.post_logout req w =
            (Ok (logged_out (production (env w))),
             match matching_row tok w with
             | Some row => set_rows (filter (λ r, negb (id r =? id row))) w
             | None => w
             end)).
  { unfold authRoutes.post_logout, authRoutes.optional_user. rewrite Hb.
    unfold bind at 1, try_catch, bind, get.
    pose proof (verify_pure tok (ACCESS_TOKEN_SECRET (env w)) w) as Hp.
    destruct (jwt.verify tok _ w) as [[d|e] w0]; simpl in Hp; subst w0;
      by apply Hlogout. }
  split; [exact Hrun|].
  intros key claims iat exp key' iat' exp' salt row -> Hrow Htoken.
  assert (Hmatch : bcrypt_compare (Signed key claims iat exp) (token row) = true).
  { rewrite Htoken. unfold bcrypt_compare, bcrypt_hash. cbn [h_salt h_digest].
    rewrite (bcrypt_input_same_claims key key' claims iat exp iat' exp').
    apply Z.eqb_refl. }
  rewrite Hrun. unfold matching_row.
  destruct (List.find (λ r, bcrypt_compare (Signed key claims iat exp) (token r)) (rows w))
    as [found|] eqn:Hfind.
  - exists found. apply find_some in Hfind as [Hin Hc].
    split; [done|]. split; [exact Hc|]. split; [by apply list_elem_of_In|].
    cbn [snd set_rows rows]. intros Hfound.
    apply list_elem_of_filter in Hfound as [Hid _]. by rewrite Z.eqb_refl in Hid.
  - exfalso.
    assert (Hno : bcrypt_compare (Signed key claims iat exp) (token row) = false).
    { apply (List.find_none _ _ Hfind row). by apply list_elem_of_In. }
    congruence.
Qed.

Lemma logout_bearer_token_decides_witness :
  let w := Scenario.logged_in false in
  let access := Signed "access-key"
                  (mkClaims (Some 1) "alice" "Alice" (Some false)) 1000 4600 in
  let req := {| authorization := Some [Opaque "Bearer"; access]; body := None;
                cookies := Some {| k_accessToken := None;
                                   k_refreshToken := Some (Scenario.refresh_token false) |};
                user := None |} in
  length (rows w) = 1%nat ∧
  (∃ res, (@userController.login sample_bcrypt (Scenario.login_request false)
             Scenario.start).1 = Ok res
          ∧ j_tokens (json res) = Some (access, Scenario.refresh_token false)) ∧
  @authRoutes.post_logout sample_bcrypt req w = (Ok (logged_out false), set_rows (λ _, []) w).
Proof.
  intros w access req. split; [reflexivity|]. split.
  { eexists. split; [vm_compute; reflexivity|]. reflexivity. }
  destruct (@logout_bearer_token_decides sample_bcrypt req access w) as [Hrun _];
    [reflexivity..|].
  rewrite Hrun. vm_compute. reflexivity.
Defined.

(** X21.  The refresh endpoint always answers and never throws; an answer
    other than 200 is a failure body with status 400, 401, 404 or 500 that
    carries no access token and sets no cookie (it may clear cookies). *)
Theorem refresh_failure_issues_nothing `{Bcrypt} (req : Request) (w : World) :
  ∃ res w',
    authController.refreshToken req w = (Ok res, w') ∧
    (status res = 200 ∨
     ((status res = 400 ∨ status res = 401 ∨ status res = 404 ∨ status res = 500) ∧
      success (json res) = false ∧
      j_accessToken (json res) = None ∧
      j_tokens (json res) = None ∧
      existsb sets_cookie (cookie_ops res) = false)).
Proof.
  unfold authController.refreshToken, try_catch at 1.
  match goal with |- context [let (_, _) := ?m w in _] =>
    destruct (m w) as [[res|e] w'] eqn:Hrun end.
  2:{ eexists _, _. split; [reflexivity|]. right. simpl. tauto. }
  exists res, w'. split; [reflexivity|].
  revert Hrun.
  destruct (tokenUtil.if_truthy _) as [tok|];
    [|intros [= <- <-]; right; simpl; tauto].
  unfold bind at 1.
  destruct (tokenUtil.verifyRefreshToken tok w) as [[[d|]|e] w1];
    [|intros [= <- <-]; right; simpl; tauto|done].
  unfold bind at 1.
  destruct (User.findByUserid _ w1) as [[[u|]|e] w2];
    [|intros [= <- <-]; right; simpl; tauto|done].
  unfold bind at 1.
  destruct (tokenUtil.generateAccessToken _ w2) as [[acc|e] w3]; [|done].
  unfold bind, get, ret. intros [= <- <-]. by left.
Qed.

(** X22.  A refresh drops [rememberMe].  The access token of a successful
    refresh is signed without the flag, so [GET /verify] on that token
    reports [rememberMe: false] whatever the flag of the login was; the id,
    the login name and the name it reports are those of the body of the
    refresh answer. *)
Theorem refresh_drops_remember_me `{Bcrypt} (req : Request) (w w' : World)
    (res : Response) :
  authController.refreshToken req w = (Ok res, w') →
  status res = 200 →
  ∃ access summary,
    j_accessToken (json res) = Some access ∧
    j_user (json res) = Some summary ∧
    (∃ d, decode access = Some d ∧ c_rememberMe (d_claims d) = None) ∧
    ∀ req' v,
      env v = env w →
      now v / 1000 < now w / 1000 + ACCESS_TOKEN_EXPIRES_IN (env w) →
      tokenUtil.if_truthy (tokenUtil.extractToken req' AccessToken) = Some access →
      verifyRoute.get_verify req' v =
        (Ok (verifyRoute.Valid
               {| verifyRoute.v_id := s_id summary;
                  verifyRoute.v_userid := s_userid summary;
                  verifyRoute.v_name := s_name summary;
                  verifyRoute.v_rememberMe := false |}), v).
Proof.
  unfold authController.refreshToken, try_catch.
  destruct (tokenUtil.if_truthy _) as [tok|].
  2:{ simpl. intros [= <- <-]. done. }
  unfold bind at 1.
  destruct (tokenUtil.verifyRefreshToken tok w) as [[[d|]|e] w1] eqn:Hv;
    [|by intros [= <- <-]..].
  apply verifyRefreshToken_accepts in Hv as (_ & _ & He1 & Ht1).
  unfold bind at 1.
  pose proof (findByUserid_frame (c_userid (d_claims d)) w1) as (_ & _ & He2 & Ht2 & _).
  destruct (User.findByUserid _ w1) as [[[u|]|e] w2]; simpl in He2, Ht2;
    [|by intros [= <- <-]..].
  unfold bind at 1.
  destruct (tokenUtil.generateAccessToken _ w2) as [[acc|e] w3] eqn:Hg;
    [|by intros [= <- <-]].
  apply generateAccessToken_key in Hg as (-> & k & Hk & ->).
  unfold bind, get, ret. intros [= <- <-] _. simpl.
  eexists _, _. split; [reflexivity|]. split; [reflexivity|].
  split; [eexists; split; reflexivity|].
  intros req' v Hev Hnv Hpres.
  unfold verifyRoute.get_verify, bind at 1, authMiddleware.verifyToken.
  rewrite Hpres. unfold try_catch, bind, get.
  rewrite verify_ok; [done | |].
  - unfold valid_signature. rewrite Hev, <- He1, <- He2, Hk. apply String.eqb_refl.
  - unfold token_expired. apply Z.leb_gt. rewrite Ht2, Ht1, He2, He1. done.
Qed.

Lemma refresh_drops_remember_me_witness :
  let w := at_time 2000000 (Scenario.logged_in true) in
  ∃ res w' access,
    @authController.refreshToken sample_bcrypt
      (Scenario.with_cookie (Scenario.refresh_token true)) w = (Ok res, w') ∧
    j_accessToken (json res) = Some access ∧
    verifyRoute.get_verify (bearer access) w =
      (Ok (verifyRoute.Valid (verifyRoute.mkVerified (Some 1) "alice" "Alice" false)), w).
Proof.
  intros w.
  destruct (@authController.refreshToken sample_bcrypt
              (Scenario.with_cookie (Scenario.refresh_token true)) w) as [[res|e] w'] eqn:Hrun;
    [|vm_compute in Hrun; discriminate Hrun].
  assert (Hst : status res = 200).
  { vm_compute in Hrun. injection Hrun as <- _. reflexivity. }
  destruct (@refresh_drops_remember_me sample_bcrypt _ _ _ _ Hrun Hst)
    as (access & summary & Hacc & Hsum & _ & Hver).
  exists res, w', access. split; [reflexivity|]. split; [exact Hacc|].
  rewrite (Hver (bearer access) w eq_refl).
  - vm_compute in Hrun. injection Hrun as <- _. simpl in Hsum.
    injection Hsum as <-. reflexivity.
  - vm_compute. reflexivity.
  - destruct access; [|reflexivity].
    vm_compute in Hrun. injection Hrun as <- _. discriminate Hacc.
Defined.

(** X23.  A login whose insert fails.  With valid credentials, when the
    delete that [saveRefreshToken] starts with succeeds and its insert
    fails, [login] answers 500 with the message that the token could not
    be saved, hands out no token and sets no cookie; the row of the
    previous session of that account is gone all the same. *)
Theorem login_save_failure `{Bcrypt} (req : Request) (account : UserRow) (index : Z)
    (ka kr : string) (w : World) (rest : list bool) :
  valid_credentials req account w →
  userindex account = Some index → index ≠ 0 →
  configured w ka kr →
  faults w = false :: false :: true :: rest →
  ∃ w',
    userController.login req w =
      (Ok {| status := 500; json := plain false MsgTokenSaveFailed; cookie_ops := [] |},
       w') ∧
    rows w' = filter (λ r, negb (user_id r =? index)) (rows w) ∧
    filter (λ r, user_id r = index) (rows w') = [].
Proof.
  intros (b & pw & Hb & Hu & Hp & Hpw & Hsafe & Hvalid & Hrow & Hcmp) Hi Hi0 [Hka Hkr] Hf.
  assert (Hne : String.eqb (userid account) EmptyString = false).
  { unfold validation.isValidUserid in Hvalid.
    by destruct (String.eqb (userid account) EmptyString). }
  apply String.eqb_neq in Hpw. apply Z.eqb_neq in Hi0.
  unfold userController.login. rewrite Hb. cbv beta iota zeta.
  rewrite Hu, Hp. unfold userController.empty. cbn [default]. unfold Datatypes.id.
  rewrite Hne, Hpw, Hsafe, Hvalid. cbn [orb negb].
  unfold try_catch at 1, bind at 1.
  unfold User.authenticate, try_catch at 1, bind at 1.
  unfold User.findByUserid, try_catch at 1, bind at 1, storage_call.
  rewrite Hf. unfold bind at 1, get at 1. cbn [users]. rewrite Hrow.
  unfold ret at 1. rewrite Hcmp. cbn [negb]. unfold ret at 1. rewrite Hi.
  unfold bind at 1, tokenUtil.generateAccessToken, try_catch at 1, bind at 1, get at 1.
  cbn [env]. rewrite (sign_ok _ _ _ _ _ Hka).
  unfold bind at 1, tokenUtil.generateRefreshToken, try_catch at 1, bind at 1, get at 1.
  cbn [env]. rewrite (sign_ok _ _ _ _ _ Hkr).
  unfold tokenUtil.saveRefreshToken, Token.saveRefreshToken, Token.deleteRefreshToken,
    try_catch, bind, fresh_salt, get, storage_call. cbn. rewrite Hi0. cbn.
  eexists. split; [reflexivity|]. cbn. split; [done|]. apply filter_user_deleted.
Qed.

Lemma login_save_failure_witness :
  ∃ w',
    @userController.login sample_bcrypt (Scenario.login_request false)
      (with_faults [false; false; true] (Scenario.logged_in false)) =
      (Ok {| status := 500; json := plain false MsgTokenSaveFailed; cookie_ops := [] |},
       w') ∧
    rows w' = [] ∧ length (rows (Scenario.logged_in false)) = 1%nat.
Proof.
  destruct (@login_save_failure sample_bcrypt (Scenario.login_request false) Scenario.alice 1
              "access-key" "refresh-key"
              (with_faults [false; false; true] (Scenario.logged_in false)) [])
    as (w' & Hrun & Hrows & _).
  - eexists _, "pass1234"%string. repeat split; try reflexivity. discriminate.
  - reflexivity.
  - lia.
  - by split.
  - reflexivity.
  - exists w'. split; [exact Hrun|]. split; [|reflexivity]. rewrite Hrows. reflexivity.
Defined.

(** X24.  [checkUserid] never throws and changes neither table.  When
    storage answers, an id that is given and not empty is reported taken
    (409) exactly when one row of [users] carries it, and free (200)
    otherwise; a missing or empty id is answered 400 before the store is
    asked, and a storage error is answered 500. *)
Theorem check_userid_answers (req : Request) (w : World) :
  (∃ a, (checkUserid.handle req w).1 = Ok a) ∧
  rows (checkUserid.handle req w).2 = rows w ∧
  users (checkUserid.handle req w).2 = users w ∧
  (∀ b, body req = Some b → userController.empty (b_userid b) = true →
     checkUserid.handle req w = (Ok checkUserid.Missing, w)) ∧
  (∀ b uid, body req = Some b → b_userid b = Some uid → uid ≠ EmptyString →
     (next_call_fails w = true →
        (checkUserid.handle req w).1 = Ok checkUserid.Failed) ∧
     (next_call_fails w = false →
        (checkUserid.handle req w).1 =
          Ok (if bool_decide (length (filter (λ u, userid u = uid) (users w)) = 1%nat)
              then checkUserid.Taken else checkUserid.Free))).
Proof.
  assert (Hfind : ∀ uid,
            User.findByUserid uid w =
              (if next_call_fails w then Throw StorageError
               else Ok (match filter (λ u, userid u = uid) (users w) with
                        | [data] => Some data
                        | _ => None
                        end),
               with_faults (tail (faults w)) w)).
  { intros uid. unfold User.findByUserid, try_catch, bind, get, storage_call,
      next_call_fails, with_faults, ret, throw.
    destruct w as [rs nid us fs t sl cf]. simpl.
    destruct fs as [|[] fs]; simpl; try done;
      by destruct (filter _ us) as [|? [|? ?]]. }
  unfold checkUserid.handle, try_catch.
  destruct (body req) as [b|] eqn:Hb.
  2:{ simpl. split; [by eexists|]. split; [done|]. split; [done|]. split; by intros. }
  destruct (userController.empty (b_userid b)) eqn:He.
  { simpl. split; [by eexists|]. split; [done|]. split; [done|].
    split; [by intros ? [= <-] _|].
    intros b' uid [= <-] Hu Hne. rewrite Hu in He. simpl in He.
    apply String.eqb_eq in He. done. }
  unfold bind. rewrite Hfind.
  destruct (next_call_fails w) eqn:Hn; simpl.
  { split; [by eexists|]. split; [done|]. split; [done|].
    split; [intros b' [= <-]; congruence|]. intros b' uid _ _ _. split; [done|done]. }
  split.
  { destruct (filter _ (users w)) as [|? [|? ?]]; by eexists. }
  split; [by destruct (filter _ (users w)) as [|? [|? ?]]|].
  split; [by destruct (filter _ (users w)) as [|? [|? ?]]|].
  split; [intros b' [= <-]; congruence|].
  intros b' uid [= <-] Hu _. split; [done|]. intros _.
  rewrite Hu. cbn [default from_option]. unfold Datatypes.id.
  destruct (filter (λ u, userid u = uid) (users w)) as [|? [|? ?]]; done.
Qed.

(** ** The validators *)

Section ValidationExtras.

Import validation.

Lemma list_ascii_of_string_app (a b : string) :
  list_ascii_of_string (String.append a b)
  = list_ascii_of_string a ++ list_ascii_of_string b.
Proof. induction a as [|c a IH]; simpl; [done|]. by rewrite IH. Qed.

Lemma at_head_app (pat rest : list ascii) : at_head pat (pat ++ rest) = Some rest.
Proof.
  induction pat as [|p pat IH]; simpl; [done|].
  by rewrite Ascii.eqb_refl.
Qed.

Lemma somewhere_app here prev (pre s : list ascii) :
  (∀ p, here p s = true) → somewhere here prev (pre ++ s) = true.
Proof.
  intros Hh. revert prev. induction pre as [|c pre IH]; intros prev.
  - simpl. destruct s; simpl; rewrite Hh; done.
  - simpl. rewrite IH. apply orb_true_r.
Qed.

Lemma replace_all_notin (c c' : ascii) (by_ : string) (l : list ascii) :
  c' ∉ list_ascii_of_string by_ →
  c' = c ∨ c' ∉ l →
  c' ∉ validation_js.replace_all c by_ l.
Proof.
  intros Hby Hl Hin. unfold validation_js.replace_all in Hin.
  apply list_elem_of_In, in_flat_map in Hin. destruct Hin as (x & Hx & Hin).
  apply list_elem_of_In in Hx, Hin.
  destruct (Ascii.eqb x c) eqn:E.
  - by apply Hby.
  - apply list_elem_of_singleton in Hin. subst x.
    destruct Hl as [->|Hl]; [by rewrite Ascii.eqb_refl in E | by apply Hl].
Qed.

Lemma replace_all_id (c : ascii) (by_ : string) (l : list ascii) :
  c ∉ l → validation_js.replace_all c by_ l = l.
Proof.
  induction l as [|x l IH]; intros Hl; [done|].
  unfold validation_js.replace_all in *. simpl.
  destruct (Ascii.eqb x c) eqn:E.
  - apply Ascii.eqb_eq in E. subst x. exfalso. apply Hl. by left.
  - simpl. f_equal. apply IH. intros Hin. apply Hl. by right.
Qed.

End ValidationExtras.

(** X25.  A string that contains [;], [--], [/*], [*/], [xp_], [sp_],
    [1=1] or ['='] anywhere is refused by [isSafeSqlInput], whatever
    stands before and after it. *)
Theorem unsafe_fragments_rejected (fragment before after : string) :
  fragment ∈ validation.fragments ++ ["1=1"; "'='"]%string →
  validation.isSafeSqlInput (String.append before (String.append fragment after)) = false.
Proof.
  intros Hin. unfold validation.isSafeSqlInput.
  rewrite !list_ascii_of_string_app. apply negb_false_iff.
  unfold validation.sqlPatterns. cbn [existsb].
  assert (Hat := at_head_app (list_ascii_of_string fragment) (list_ascii_of_string after)).
  apply elem_of_app in Hin. destruct Hin as [Hin|Hin].
  - apply orb_true_iff. right. apply orb_true_iff. left.
    apply somewhere_app. intros _.
    apply existsb_exists. exists fragment. split; [by apply list_elem_of_In|].
    apply bool_decide_eq_true. rewrite Hat. by eexists.
  - apply orb_true_iff. right. apply orb_true_iff. right. apply orb_true_iff. left.
    apply somewhere_app. intros p.
    apply elem_of_cons in Hin. destruct Hin as [->|Hin].
    + apply orb_true_iff. left. apply orb_true_iff. right.
      apply bool_decide_eq_true. rewrite Hat. by eexists.
    + apply list_elem_of_singleton in Hin. subst fragment.
      apply orb_true_iff. right.
      apply bool_decide_eq_true. rewrite Hat. by eexists.
Qed.

Lemma unsafe_fragments_rejected_witness :
  validation.isSafeSqlInput "jasp_er" = false ∧
  validation.isValidUserid "jasp_er" = true.
Proof.
  split; [|reflexivity].
  apply (unsafe_fragments_rejected "sp_" "ja" "er").
  vm_compute. apply list_elem_of_In. simpl. tauto.
Defined.

(** X26.  [sanitizeInput] leaves none of [<], [>], the double quote,
    the single quote and [/] in its result, and changes nothing when it is
    applied a second time.  The ampersand is not escaped. *)
Theorem sanitize_output_clean (value : string) :
  (∀ c, c ∈ ["<"; ">"; validation_js.quote; "'"; "/"]%char →
        c ∉ list_ascii_of_string (validation_js.sanitizeInput value))
  ∧ validation_js.sanitizeInput (validation_js.sanitizeInput value)
    = validation_js.sanitizeInput value
  ∧ validation_js.sanitizeInput "&lt;" = validation_js.sanitizeInput "<".
Proof.
  assert (Hclean : ∀ c, c ∈ ["<"; ">"; validation_js.quote; "'"; "/"]%char →
        c ∉ list_ascii_of_string (validation_js.sanitizeInput value)).
  { intros c Hc. unfold validation_js.sanitizeInput.
    rewrite list_ascii_of_string_of_list_ascii.
    assert (Hby : ∀ by_, by_ ∈ ["&lt;"; "&gt;"; "&quot;"; "&#x27;"; "&#x2F;"]%string →
                         c ∉ list_ascii_of_string by_).
    { intros by_ Hb Hin.
      repeat (apply elem_of_cons in Hb; destruct Hb as [->|Hb]);
        try (by apply elem_of_nil in Hb);
        repeat (apply elem_of_cons in Hc; destruct Hc as [->|Hc]);
        try (by apply elem_of_nil in Hc);
        vm_compute in Hin;
        repeat (apply elem_of_cons in Hin; destruct Hin as [Hin|Hin]; [discriminate|]);
        by apply elem_of_nil in Hin. }
    repeat (apply elem_of_cons in Hc; destruct Hc as [Hc|Hc]);
      try (by apply elem_of_nil in Hc); subst c.
    all: repeat first
      [ apply replace_all_notin;
        [ apply Hby; apply list_elem_of_In; simpl; tauto
        | first [ left; reflexivity | right ] ] ].
  }
  split; [exact Hclean|]. split; [|reflexivity].
  unfold validation_js.sanitizeInput at 1.
  rewrite (replace_all_id "<") by (apply Hclean; apply list_elem_of_In; simpl; tauto).
  rewrite (replace_all_id ">") by (apply Hclean; apply list_elem_of_In; simpl; tauto).
  rewrite (replace_all_id validation_js.quote)
    by (apply Hclean; apply list_elem_of_In; simpl; tauto).
  rewrite (replace_all_id "'") by (apply Hclean; apply list_elem_of_In; simpl; tauto).
  rewrite (replace_all_id "/") by (apply Hclean; apply list_elem_of_In; simpl; tauto).
  apply string_of_list_ascii_of_string.
Qed.

Section WordOnly.

Import validation.

Lemma somewhere_spec here prev (s : list ascii) :
  somewhere here prev s = true ↔
  here prev s = true ∨ ∃ pre c post, s = pre ++ c :: post ∧ here (Some c) post = true.
Proof.
  revert prev. induction s as [|c r IH]; intros prev; simpl.
  - rewrite orb_false_r. split; [by left|].
    intros [H|(pre & c & post & E & _)]; [done|]. by destruct pre.
  - rewrite orb_true_iff, IH. split.
    + intros [H|[H|(pre & c' & post & -> & H)]].
      * by left.
      * right. by exists [], c, r.
      * right. by exists (c :: pre), c', post.
    + intros [H|(pre & c' & post & E & H)]; [by left|].
      right. destruct pre as [|x pre]; simpl in E; inversion E; subst.
      * by left.
      * right. by exists pre, c', post.
Qed.

Lemma word_lower (c : ascii) : is_word c = true → is_word (lower c) = true.
Proof. destruct c as [[] [] [] [] [] [] [] []]; vm_compute; done. Qed.

(** What [at_head] finds in a string of word characters. *)
Lemma at_head_word pat s rest :
  forallb is_word s = true →
  at_head pat s = Some rest →
  forallb (λ p, is_word (lower p)) pat = true
  ∧ forallb is_word rest = true
  ∧ ∃ pre, s = pre ++ rest ∧ lower <$> pre = lower <$> pat.
Proof.
  revert s. induction pat as [|p pat IH]; intros s Hw Hat; simpl in Hat.
  - inversion Hat; subst. split; [done|]. split; [done|]. by exists [].
  - destruct s as [|c s]; [done|].
    destruct (Ascii.eqb (lower p) (lower c)) eqn:E; [|done].
    apply Ascii.eqb_eq in E. simpl in Hw. apply andb_true_iff in Hw as [Hc Hs].
    destruct (IH s Hs Hat) as (Hp & Hr & pre & -> & Hpre).
    split; [|split; [done|]].
    + simpl. rewrite E, (word_lower _ Hc). done.
    + exists (c :: pre). split; [done|]. rewrite !fmap_cons. by rewrite E, Hpre.
Qed.

Lemma at_head_fold pat pre rest :
  lower <$> pre = lower <$> pat → at_head pat (pre ++ rest) = Some rest.
Proof.
  revert pre. induction pat as [|p pat IH]; intros pre E.
  - destruct pre; [done|discriminate].
  - destruct pre as [|c pre]; [discriminate|]. rewrite !fmap_cons in E.
    inversion E as [[E1 E2]].
    simpl. rewrite E1, Ascii.eqb_refl. by apply IH.
Qed.

Lemma boundary_after_word rest :
  forallb is_word rest = true → boundary_after rest = true → rest = [].
Proof.
  destruct rest as [|c rest]; [done|]. simpl.
  intros Hw Hb. apply andb_true_iff in Hw as [Hc _]. by rewrite Hc in Hb.
Qed.

Lemma word_at_word kw prev s rest :
  forallb is_word s = true →
  word_at kw prev s = Some rest →
  boundary_before prev = true ∧ rest = []
  ∧ lower <$> s = lower <$> list_ascii_of_string kw.
Proof.
  intros Hw. unfold word_at.
  destruct (boundary_before prev); [|done].
  destruct (at_head (list_ascii_of_string kw) s) as [r|] eqn:Hat; [|done].
  destruct (boundary_after r) eqn:Hb; [|done]. intros [= <-].
  destruct (at_head_word _ _ _ Hw Hat) as (_ & Hr & pre & -> & Hpre).
  pose proof (boundary_after_word _ Hr Hb) as ->.
  rewrite app_nil_r. done.
Qed.

Lemma forallb_word_app pre post :
  forallb is_word (pre ++ post) = true →
  forallb is_word pre = true ∧ forallb is_word post = true.
Proof. rewrite forallb_app. apply andb_true_iff. Qed.

End WordOnly.

(** X27.  On a string of letters, digits and underscores (the form of a
    userid) [isSafeSqlInput] refuses exactly the strings that are one of
    the SQL keywords, whatever the case, and those that contain [xp_] or
    [sp_], whatever the case. *)
Theorem word_only_unsafe (value : string) :
  forallb validation.is_word (list_ascii_of_string value) = true →
  (validation.isSafeSqlInput value = false ↔
   (∃ kw, kw ∈ validation.keywords
          ∧ validation.lower <$> list_ascii_of_string value
            = validation.lower <$> list_ascii_of_string kw)
   ∨ (∃ fragment before after,
        fragment ∈ ["xp_"; "sp_"]%string
        ∧ validation.lower <$> list_ascii_of_string value
          = before ++ list_ascii_of_string fragment ++ after)).
Proof.
  intros Hw. unfold validation.isSafeSqlInput. rewrite negb_false_iff.
  unfold validation.sqlPatterns. cbn [existsb]. rewrite orb_false_r, !orb_true_iff.
  set (s := list_ascii_of_string value) in *.
  split.
  - intros [H|[H|H]].
    + (* a keyword between word boundaries *)
      left. apply somewhere_spec in H.
      destruct H as [H|(pre & c & post & E & H)];
        apply existsb_exists in H; destruct H as (kw & Hkw & H);
        apply bool_decide_eq_true in H; destruct H as [rest H].
      * destruct (word_at_word _ _ _ _ Hw H) as (_ & _ & Heq).
        exists kw. split; [by apply list_elem_of_In | done].
      * rewrite E in Hw. apply forallb_word_app in Hw as [_ Hw].
        simpl in Hw. apply andb_true_iff in Hw as [Hc Hpost].
        destruct (word_at_word _ _ _ _ Hpost H) as (Hb & _). simpl in Hb.
        by rewrite Hc in Hb.
    + (* one of the fragments *)
      right. apply somewhere_spec in H.
      assert (Hany : ∃ pre post, s = pre ++ post ∧
                existsb (λ f, bool_decide (is_Some (validation.at_head (list_ascii_of_string f) post)))
                  validation.fragments = true).
      { destruct H as [H|(pre & c & post & E & H)].
        - by exists [], s.
        - exists (pre ++ [c]), post. by rewrite <- app_assoc. }
      clear H. destruct Hany as (pre & post & E & H).
      apply existsb_exists in H. destruct H as (f & Hf & H).
      apply bool_decide_eq_true in H. destruct H as [rest H].
      rewrite E in Hw. apply forallb_word_app in Hw as [_ Hpost].
      destruct (at_head_word _ _ _ Hpost H) as (Hpat & _ & pre' & -> & Hpre).
      simpl in Hf.
      destruct Hf as [<-|[<-|[<-|[<-|[<-|[<-|[]]]]]]]; try (vm_compute in Hpat; discriminate).
      * exists "xp_"%string, (validation.lower <$> pre), (validation.lower <$> rest).
        split; [apply list_elem_of_In; simpl; tauto|].
        rewrite E, !fmap_app, Hpre. done.
      * exists "sp_"%string, (validation.lower <$> pre), (validation.lower <$> rest).
        split; [apply list_elem_of_In; simpl; tauto|].
        rewrite E, !fmap_app, Hpre. done.
    + (* OR ... =, 1=1, '=' *)
      exfalso. apply somewhere_spec in H.
      assert (Hany : ∃ prev post, forallb validation.is_word post = true ∧
        (match validation.word_at "OR" prev post with
         | Some rest => validation.equals_on_line rest
         | None => false
         end
         || bool_decide (is_Some (validation.at_head (list_ascii_of_string "1=1") post))
         || bool_decide (is_Some (validation.at_head (list_ascii_of_string "'='") post))) = true).
      { destruct H as [H|(pre & c & post & E & H)].
        - by exists None, s.
        - exists (Some c), post. split; [|done].
          rewrite E in Hw. apply forallb_word_app in Hw as [_ Hw].
          simpl in Hw. by apply andb_true_iff in Hw as [_ Hw]. }
      clear H. destruct Hany as (prev & post & Hpost & H).
      rewrite !orb_true_iff in H. destruct H as [[H|H]|H].
      * destruct (validation.word_at "OR" prev post) as [rest|] eqn:Hor; [|done].
        destruct (word_at_word _ _ _ _ Hpost Hor) as (_ & -> & _). done.
      * apply bool_decide_eq_true in H. destruct H as [rest H].
        destruct (at_head_word _ _ _ Hpost H) as (Hpat & _).
        vm_compute in Hpat. discriminate.
      * apply bool_decide_eq_true in H. destruct H as [rest H].
        destruct (at_head_word _ _ _ Hpost H) as (Hpat & _).
        vm_compute in Hpat. discriminate.
  - intros [(kw & Hkw & Heq)|(f & before & after & Hf & Heq)].
    + left. apply somewhere_spec. left.
      apply existsb_exists. exists kw. split; [by apply list_elem_of_In|].
      apply bool_decide_eq_true. exists [].
      unfold validation.word_at. simpl validation.boundary_before. cbv iota.
      pose proof (at_head_fold (list_ascii_of_string kw) s [] Heq) as Hat.
      rewrite app_nil_r in Hat. rewrite Hat. done.
    + right. left.
      apply fmap_app_inv in Heq. destruct Heq as (pre & tl & -> & Htl & Es).
      symmetry in Htl. apply fmap_app_inv in Htl. destruct Htl as (mid & post & Hmid & -> & ->).
      rewrite Es. apply somewhere_app. intros _.
      assert (Hlow : validation.lower <$> list_ascii_of_string f = list_ascii_of_string f
                     ∧ In f validation.fragments).
      { apply elem_of_cons in Hf. destruct Hf as [->|Hf].
        - split; [done | simpl; tauto].
        - apply list_elem_of_singleton in Hf. subst f. split; [done | simpl; tauto]. }
      destruct Hlow as [Hlow Hfr].
      apply existsb_exists. exists f. split; [done|].
      apply bool_decide_eq_true. exists post. apply at_head_fold.
      by rewrite Hlow.
Qed.

Lemma word_only_unsafe_witness :
  validation.isValidUserid "Select" = true ∧
  validation.isSafeSqlInput "Select" = false.
Proof.
  split; [reflexivity|].
  apply (word_only_unsafe "Select"); [reflexivity|].
  left. exists "SELECT"%string. split; [|reflexivity].
  apply list_elem_of_In. simpl. tauto.
Defined.

(** ** Registration under the lock *)

Section RegisterExtras.

Import register.

Lemma resume_cases userid st r s x s' :
  resume userid st r s = Some (x, s') →
  (∃ a, x = inl a ∧ s' = RequestLock.release userid s) ∨ (∃ st', x = inr st' ∧ s' = s).
Proof.
  destruct st, r as [[[]| |]|]; simpl; intros [= <- <-]; eauto.
Qed.

Lemma held_locks k s s' :
  RequestLock.locks s' = RequestLock.locks s → RequestLock.held k s' = RequestLock.held k s.
Proof. intros E. unfold RequestLock.held. by rewrite E. Qed.

Lemma release_keeps_held k key s :
  k ≠ key → RequestLock.held k (RequestLock.release key s) = RequestLock.held k s.
Proof.
  intros Hne. unfold RequestLock.held. by rewrite release_other.
Qed.

Lemma acquire_other k key s :
  k ≠ key → RequestLock.held k (RequestLock.acquire key s).2 = RequestLock.held k s.
Proof.
  intros Hne. unfold RequestLock.acquire.
  destruct (RequestLock.held key s); [done|]. simpl.
  unfold RequestLock.held. simpl. by rewrite lookup_insert_ne.
Qed.

Lemma acquire_cases key s :
  (RequestLock.held key s = true ∧ RequestLock.acquire key s = (false, s))
  ∨ (RequestLock.held key s = false ∧
     ∃ s', RequestLock.acquire key s = (true, s') ∧ RequestLock.held key s' = true).
Proof.
  destruct (RequestLock.held key s) eqn:Hh.
  - left. split; [done|]. by apply acquire_held.
  - right. split; [done|]. unfold RequestLock.acquire. rewrite Hh.
    eexists. split; [done|]. apply held_true. simpl. rewrite lookup_insert_eq. by eexists.
Qed.

Lemma advance_nothing_due t s :
  RequestLock.due_timers t s = [] →
  RequestLock.locks (RequestLock.advance t s) = RequestLock.locks s.
Proof. intros E. unfold RequestLock.advance. rewrite E. done. Qed.

Lemma cleanup_nothing_expired s :
  RequestLock.expired_keys s = [] → RequestLock.cleanup s = s.
Proof. intros E. unfold RequestLock.cleanup. rewrite E. done. Qed.

Lemma consistent_boot t0 : consistent (boot t0).
Proof.
  split.
  - intros k. split.
    + intros Hh. apply held_true in Hh. simpl in Hh.
      rewrite lookup_empty in Hh. by destruct Hh.
    + intros (id & fl & Hfl & _). simpl in Hfl. by rewrite lookup_empty in Hfl.
  - intros id1 id2 fl1 fl2 H1. simpl in H1. by rewrite lookup_empty in H1.
  - intros id fl H1. simpl in H1. by rewrite lookup_empty in H1.
Qed.

Lemma consistent_same sv sv' :
  (∀ k, RequestLock.held k (lock sv') = RequestLock.held k (lock sv)) →
  flights sv' = flights sv →
  (next_request sv ≤ next_request sv')%nat →
  consistent sv → consistent sv'.
Proof.
  intros Hh Hf Hn [H1 H2 H3]. split.
  - intros k. rewrite Hh, H1. unfold in_flight. by rewrite Hf.
  - rewrite Hf. exact H2.
  - rewrite Hf. intros id fl Hfl. specialize (H3 id fl Hfl). lia.
Qed.

Lemma consistent_step e sv :
  gentle e sv = true → consistent sv → consistent (step e sv).
Proof.
  intros Hg Hc. destruct e as [f|id r|t|]; simpl.
  - (* a request arrives *)
    unfold begin. destruct (validate f) as [a|].
    { apply (consistent_same sv); simpl; auto. }
    set (u := default EmptyString (f_userid f)).
    destruct (acquire_cases u (lock sv)) as [[Hh E]|[Hh (s' & E & Hh')]]; rewrite E.
    { apply (consistent_same sv); simpl; auto. }
    pose proof (acquire_other) as Ho.
    assert (Hs' : s' = (RequestLock.acquire u (lock sv)).2) by by rewrite E.
    destruct Hc as [H1 H2 H3].
    assert (Hnew : flights sv !! next_request sv = None).
    { destruct (flights sv !! next_request sv) as [fl|] eqn:Hfl; [|done].
      specialize (H3 _ _ Hfl). lia. }
    assert (Hfree : ¬ in_flight u sv).
    { intros Hin. apply H1 in Hin. congruence. }
    split; simpl.
    + intros k. destruct (decide (k = u)) as [->|Hne].
      * split; [|done]. intros _. exists (next_request sv), {| key := u; stage := AwaitLookup |}.
        simpl. by rewrite lookup_insert_eq.
      * rewrite Hs', Ho, H1 by done. unfold in_flight. simpl. split.
        -- intros (id & fl & Hfl & Hk). exists id, fl. split; [|done].
           rewrite lookup_insert_ne; [done|]. intros <-. congruence.
        -- intros (id & fl & Hfl & Hk). exists id, fl. split; [|done].
           destruct (decide (next_request sv = id)) as [<-|Hid].
           ++ rewrite lookup_insert_eq in Hfl. inversion Hfl; subst. simpl in Hne. done.
           ++ by rewrite lookup_insert_ne in Hfl.
    + intros id1 id2 fl1 fl2 Hf1 Hf2 Hk.
      destruct (decide (next_request sv = id1)) as [<-|Hn1];
        destruct (decide (next_request sv = id2)) as [<-|Hn2]; [done| | |].
      * rewrite lookup_insert_eq in Hf1. rewrite lookup_insert_ne in Hf2 by done.
        inversion Hf1; subst. simpl in Hk. exfalso. apply Hfree. by exists id2, fl2.
      * rewrite lookup_insert_eq in Hf2. rewrite lookup_insert_ne in Hf1 by done.
        inversion Hf2; subst. simpl in Hk. exfalso. apply Hfree. by exists id1, fl1.
      * rewrite lookup_insert_ne in Hf1, Hf2 by done. by eapply H2.
    + intros id fl Hfl. destruct (decide (next_request sv = id)) as [<-|Hn]; [lia|].
      rewrite lookup_insert_ne in Hfl by done. specialize (H3 _ _ Hfl). lia.
  - (* a promise settles *)
    destruct (flights sv !! id) as [fl|] eqn:Hfl; [|done].
    destruct (resume (key fl) (stage fl) r (lock sv)) as [[x s']|] eqn:Hr; [|done].
    destruct Hc as [H1 H2 H3].
    destruct (resume_cases _ _ _ _ _ _ Hr) as [(a & -> & ->)|(st' & -> & ->)].
    + split; simpl.
      * intros k. destruct (decide (k = key fl)) as [->|Hne].
        -- rewrite release_frees. split; [done|].
           intros (id' & fl' & Hfl' & Hk). exfalso. simpl in Hfl'.
           destruct (decide (id = id')) as [<-|Hid].
           ++ by rewrite lookup_delete_eq in Hfl'.
           ++ rewrite lookup_delete_ne in Hfl' by done.
              apply Hid. by eapply H2.
        -- rewrite release_keeps_held, H1 by done. unfold in_flight. simpl. split.
           ++ intros (id' & fl' & Hfl' & Hk). exists id', fl'. split; [|done].
              rewrite lookup_delete_ne; [done|]. intros <-. congruence.
           ++ intros (id' & fl' & Hfl' & Hk). exists id', fl'. split; [|done].
              destruct (decide (id = id')) as [<-|Hid].
              ** by rewrite lookup_delete_eq in Hfl'.
              ** by rewrite lookup_delete_ne in Hfl'.
      * intros id1 id2 fl1 fl2 Hf1 Hf2 Hk.
        destruct (decide (id = id1)) as [<-|Hn1]; [by rewrite lookup_delete_eq in Hf1|].
        destruct (decide (id = id2)) as [<-|Hn2]; [by rewrite lookup_delete_eq in Hf2|].
        rewrite lookup_delete_ne in Hf1, Hf2 by done. by eapply H2.
      * intros id' fl' Hfl'.
        destruct (decide (id = id')) as [<-|Hn]; [by rewrite lookup_delete_eq in Hfl'|].
        rewrite lookup_delete_ne in Hfl' by done. by eapply H3.
    + assert (Hkeys : ∀ id' fl',
                <[id := {| key := key fl; stage := st' |}]> (flights sv) !! id' = Some fl' →
                ∃ fl0, flights sv !! id' = Some fl0 ∧ key fl0 = key fl').
      { intros id' fl' Hfl'. destruct (decide (id = id')) as [<-|Hn].
        - rewrite lookup_insert_eq in Hfl'. inversion Hfl'; subst. by exists fl.
        - rewrite lookup_insert_ne in Hfl' by done. by exists fl'. }
      split; simpl.
      * intros k. rewrite H1. unfold in_flight. simpl. split.
        -- intros (id' & fl' & Hfl' & Hk).
           destruct (decide (id = id')) as [<-|Hn].
           ++ exists id, {| key := key fl; stage := st' |}.
              rewrite lookup_insert_eq. split; [done|]. simpl. congruence.
           ++ exists id', fl'. by rewrite lookup_insert_ne.
        -- intros (id' & fl' & Hfl' & Hk).
           destruct (Hkeys _ _ Hfl') as (fl0 & Hfl0 & Hk0).
           exists id', fl0. split; [done|]. congruence.
      * intros id1 id2 fl1 fl2 Hf1 Hf2 Hk.
        destruct (Hkeys _ _ Hf1) as (fa & Hfa & Hka).
        destruct (Hkeys _ _ Hf2) as (fb & Hfb & Hkb).
        eapply H2; [exact Hfa | exact Hfb | congruence].
      * intros id' fl' Hfl'. destruct (Hkeys _ _ Hfl') as (fl0 & Hfl0 & _).
        by eapply H3.
  - (* the clock moves and no timer is due *)
    simpl in Hg. apply bool_decide_eq_true in Hg.
    apply (consistent_same sv); simpl; auto.
    intros k. apply held_locks. by apply advance_nothing_due.
  - (* the sweep finds nothing *)
    simpl in Hg. apply bool_decide_eq_true in Hg.
    apply (consistent_same sv); simpl; auto.
    intros k. by rewrite cleanup_nothing_expired.
Qed.

Lemma step_arrive_free f userid sv :
  validate f = None → f_userid f = Some userid →
  RequestLock.held userid (lock sv) = false →
  step (Arrive f) sv
  = {| lock := (RequestLock.acquire userid (lock sv)).2;
       flights := <[next_request sv := {| key := userid; stage := AwaitLookup |}]> (flights sv);
       answers := answers sv;
       next_request := S (next_request sv) |}
  ∧ RequestLock.held userid (RequestLock.acquire userid (lock sv)).2 = true.
Proof.
  intros Hv Hu Hh. unfold step, begin. rewrite Hv, Hu.
  cbn [default from_option]. unfold Datatypes.id.
  destruct (acquire_cases userid (lock sv)) as [[Hh' _]|[_ (s' & E & Hh')]]; [congruence|].
  rewrite E. done.
Qed.

(** A lock taken at [t0] is gone once the clock has reached the end of
    its window. *)
Lemma advance_frees t0 t userid :
  t0 + 5000 ≤ t →
  RequestLock.held userid
    (RequestLock.advance t (RequestLock.acquire userid (RequestLock.create t0)).2) = false.
Proof.
  intros Ht.
  assert (Hw1 : RequestLock.wf (RequestLock.acquire userid (RequestLock.create t0)).2)
    by apply wf_acquire, wf_create.
  assert (Hf : RequestLock.held userid (RequestLock.create t0) = false).
  { apply held_false. simpl. apply lookup_empty. }
  destruct (acquire_free userid _ Hf) as (s1 & E1 & Hl1).
  assert (Hc1 : RequestLock.clock s1 = t0 ∧ RequestLock.timeout s1 = 5000).
  { unfold RequestLock.acquire in E1. rewrite Hf in E1. by inversion E1. }
  rewrite E1 in *. cbn [snd] in *. destruct Hc1 as [Hc1 Hto1].
  destruct (advance_spec t s1 Hw1) as (Hw2 & Hsub & Hc & Hto).
  apply held_false.
  destruct (RequestLock.locks (RequestLock.advance t s1) !! userid) as [li|] eqn:E; [|done].
  exfalso. pose proof (wf_young _ _ _ Hw2 E) as Hy.
  apply Hsub in E. rewrite Hc, Hto, Hc1, Hto1 in Hy.
  rewrite Hl1, lookup_insert_eq in E. inversion E; subst li. simpl in Hy. lia.
Qed.

Lemma consistent_run events sv :
  prompt events sv = true → consistent sv → consistent (run events sv).
Proof.
  revert sv. induction events as [|e events IH]; intros sv Hp Hc; [done|].
  simpl in Hp. apply andb_true_iff in Hp as [Hg Hp].
  simpl. apply IH; [done|]. by apply consistent_step.
Qed.

End RegisterExtras.

(** X28.  As long as no request outlives the window of the lock, at most
    one registration per userid is in flight at any time, and a form that
    passes the checks is answered 429 exactly when a registration for its
    userid is in flight; otherwise it takes the lock and goes on to the
    lookup. *)
Theorem register_one_at_a_time (t0 : Z) (events : list register.Event)
    (f : register.Form) (userid : string) :
  register.prompt events (register.boot t0) = true →
  register.validate f = None →
  register.f_userid f = Some userid →
  let sv := register.run events (register.boot t0) in
  (∀ id1 id2 fl1 fl2,
     register.flights sv !! id1 = Some fl1 → register.flights sv !! id2 = Some fl2 →
     register.key fl1 = register.key fl2 → id1 = id2)
  ∧ ((register.begin f (register.lock sv)).1 = inl register.Busy
     ↔ register.in_flight userid sv)
  ∧ (¬ register.in_flight userid sv →
     (register.begin f (register.lock sv)).1 = inr userid
     ∧ RequestLock.held userid (register.begin f (register.lock sv)).2 = true).
Proof.
  intros Hp Hv Hu sv.
  pose proof (consistent_run events _ Hp (consistent_boot t0)) as [H1 H2 H3].
  fold sv in H1, H2, H3.
  split; [exact H2|].
  unfold register.begin. rewrite Hv, Hu. cbn [default from_option]. unfold Datatypes.id.
  destruct (acquire_cases userid (register.lock sv)) as [[Hh E]|[Hh (s' & E & Hh')]];
    rewrite E; cbn [fst snd].
  - split; [split; [intros _; by apply H1 | done]|].
    intros Hn. exfalso. apply Hn. by apply H1.
  - split; [split; [done|]|done].
    intros Hin. apply H1 in Hin. congruence.
Qed.

Lemma register_one_at_a_time_witness :
  ∃ sv,
    sv = register.run
           [register.Arrive (register.sample_form "alice1");
            register.Arrive (register.sample_form "bobby1");
            register.Settle 0 (register.Resolved (register.Existing false));
            register.Tick 1000; register.Sweep]
           (register.boot 0)
    ∧ ((register.begin (register.sample_form "alice1") (register.lock sv)).1
       = inl register.Busy ↔ register.in_flight "alice1" sv).
Proof.
  eexists. split; [reflexivity|].
  destruct (register_one_at_a_time 0
           [register.Arrive (register.sample_form "alice1");
            register.Arrive (register.sample_form "bobby1");
            register.Settle 0 (register.Resolved (register.Existing false));
            register.Tick 1000; register.Sweep]
           (register.sample_form "alice1") "alice1") as (_ & H & _);
    [vm_compute; reflexivity..|].
  exact H.
Defined.

(** X29.  Every way out of [register] after the lock was taken releases
    the lock of its userid and touches no other; between two awaits the
    lock is left as it is. *)
Theorem register_exit_releases (userid : string) (st : register.Stage)
    (r : register.Reply) (s s' : RequestLock.Loop) (x : register.Answer + register.Stage) :
  register.resume userid st r s = Some (x, s') →
  match x with
  | inl _ =>
      RequestLock.held userid s' = false
      ∧ ∀ k, k ≠ userid → RequestLock.locks s' !! k = RequestLock.locks s !! k
  | inr _ => s' = s
  end.
Proof.
  intros Hr. destruct (resume_cases _ _ _ _ _ _ Hr) as [(a & -> & ->)|(st' & -> & ->)].
  - split; [apply release_frees|].
    intros k Hne. apply release_other. congruence.
  - done.
Qed.

Lemma register_exit_releases_witness :
  let s := (RequestLock.acquire "alice1" (RequestLock.create 0)).2 in
  RequestLock.held "alice1" s = true ∧
  RequestLock.held "alice1" (RequestLock.release "alice1" s) = false.
Proof.
  split; [reflexivity|].
  apply (register_exit_releases "alice1" register.AwaitLookup
           (register.Rejected {| register.e_code := None; register.e_message := None;
                                 register.e_sqlMessage := None |})
           (RequestLock.acquire "alice1" (RequestLock.create 0)).2
           _ (inl register.ServerError)).
  reflexivity.
Defined.

(** X30.  The lock is released by key, not by holder.  When a
    registration outlives the window, a second one for the same userid
    takes the lock; when the first one then completes, its exit frees the
    lock while the second is still in flight, and a third is let in
    beside it. *)
Theorem register_stale_release (t0 t : Z) (f : register.Form) (userid : string)
    (newUser : register.NewUser) :
  register.validate f = None →
  register.f_userid f = Some userid →
  t0 + 5000 ≤ t →
  let waiting := {| register.key := userid; register.stage := register.AwaitLookup |} in
  let sv := register.run
              [register.Arrive f; register.Tick t; register.Arrive f;
               register.Settle 0 (register.Resolved (register.Existing false));
               register.Settle 0 (register.Resolved (register.Row newUser));
               register.Settle 0 (register.Resolved register.Folder)]
              (register.boot t0) in
  register.answers sv !! 0%nat = Some (register.Created newUser)
  ∧ register.flights sv !! 1%nat = Some waiting
  ∧ RequestLock.held userid (register.lock sv) = false
  ∧ register.flights (register.step (register.Arrive f) sv) !! 1%nat = Some waiting
  ∧ register.flights (register.step (register.Arrive f) sv) !! 2%nat = Some waiting.
Proof.
  intros Hv Hu Ht waiting sv.
  assert (Hsv : ∃ s3,
    sv = {| register.lock := RequestLock.release userid s3;
            register.flights :=
              delete 0%nat
                (<[0%nat := {| register.key := userid;
                               register.stage := register.AwaitFolder newUser |}]>
                   (<[0%nat := {| register.key := userid;
                                  register.stage := register.AwaitCreate |}]>
                      (<[1%nat := waiting]> (<[0%nat := waiting]> ∅))));
            register.answers := <[0%nat := register.Created newUser]> ∅;
            register.next_request := 2 |}).
  { subst sv. unfold register.run. cbn [foldl].
    destruct (step_arrive_free f userid (register.boot t0) Hv Hu) as [-> _]; [done|].
    cbn [register.boot register.lock register.flights register.answers
         register.next_request].
    unfold register.step at 5.
    cbn [register.lock register.flights register.answers register.next_request].
    match goal with |- context [register.step (register.Arrive f) ?x] => set (sv2 := x) end.
    destruct (step_arrive_free f userid sv2 Hv Hu) as [-> _].
    { subst sv2. cbn [register.lock]. by apply advance_frees. }
    subst sv2.
    cbn [register.lock register.flights register.answers register.next_request].
    match goal with |- context [RequestLock.acquire userid (RequestLock.advance ?a ?b)] =>
      set (s3 := (RequestLock.acquire userid (RequestLock.advance a b)).2) end.
    exists s3.
    unfold register.step at 3.
    cbn [register.lock register.flights register.answers register.next_request].
    rewrite lookup_insert_ne by done. rewrite lookup_insert_eq.
    cbn [register.key register.stage register.resume].
    unfold register.step at 2.
    cbn [register.lock register.flights register.answers register.next_request].
    rewrite lookup_insert_eq.
    cbn [register.key register.stage register.resume].
    unfold register.step at 1.
    cbn [register.lock register.flights register.answers register.next_request].
    rewrite lookup_insert_eq.
    cbn [register.key register.stage register.resume].
    done. }
  destruct Hsv as (s3 & Hsv).
  assert (H1 : register.flights sv !! 1%nat = Some waiting).
  { rewrite Hsv. cbn [register.flights].
    rewrite lookup_delete_ne by done. rewrite !lookup_insert_ne by done.
    by rewrite lookup_insert_eq. }
  assert (Hfree : RequestLock.held userid (register.lock sv) = false).
  { rewrite Hsv. cbn [register.lock]. apply release_frees. }
  split; [|split; [exact H1|split; [exact Hfree|]]].
  { rewrite Hsv. cbn [register.answers]. by rewrite lookup_insert_eq. }
  destruct (step_arrive_free f userid sv Hv Hu Hfree) as [-> _].
  cbn [register.flights].
  assert (Hn : register.next_request sv = 2%nat) by by rewrite Hsv.
  rewrite Hn. rewrite lookup_insert_ne by done. rewrite lookup_insert_eq. done.
Qed.

Lemma register_stale_release_witness :
  let sv := register.run
              [register.Arrive (register.sample_form "alice1"); register.Tick 5000;
               register.Arrive (register.sample_form "alice1");
               register.Settle 0 (register.Resolved (register.Existing false));
               register.Settle 0 (register.Resolved
                 (register.Row {| register.userindex := 7; register.n_userid := "alice1";
                                  register.n_name := "Alice Kim"; register.n_email := None |}));
               register.Settle 0 (register.Resolved register.Folder)]
              (register.boot 0) in
  register.validate (register.sample_form "alice1") = None ∧
  register.flights sv !! 1%nat
  = Some {| register.key := "alice1"; register.stage := register.AwaitLookup |} ∧
  RequestLock.held "alice1" (register.lock sv) = false.
Proof.
  split; [vm_compute; reflexivity|].
  destruct (register_stale_release 0 5000 (register.sample_form "alice1") "alice1"
              {| register.userindex := 7; register.n_userid := "alice1";
                 register.n_name := "Alice Kim"; register.n_email := None |})
    as (_ & H1 & H2 & _); [vm_compute; reflexivity | reflexivity | lia |].
  split; [exact H1 | exact H2].
Defined.
